(** * mod_spdy: a shallow embedding of the SPDY framer interface, the Apache
    glue of mod_spdy.cc and the input-filter stream, with the properties the
    specification states about them.

    Layout:
    - [CString]   : the C string functions the module calls;
    - [Httpd]     : the return codes and status values of the host server;
    - [AprTable]  : [apr_table_t] as the module uses it;
    - [ModSpdy]   : the hooks and filters of [mod_spdy.cc];
    - [Brigade], [InputStream] : bucket brigades and
                    [InputFilterInputStream] of
                    [input_filter_input_stream.cc];
    - [Wire], [HeaderBlock], [Framer] : the part of [spdy_framer.h] that is
                    declared in the sources, completed from the
                    specification where the bodies are absent. *)

From Stdlib Require Import List String Ascii Strings.Byte ZArith NArith Lia Bool Arith.
From Stdlib Require Import Sorting.Sorted Sorting.Permutation.
Import ListNotations.

Set Implicit Arguments.

(* ------------------------------------------------------------------ *)
(** * C strings *)

Module CString.

Local Open Scope char_scope.

(** The terminating NUL of a C string. *)
Definition NUL : ascii := "000".

(** Storage of a string literal: its characters followed by NUL. *)
Definition literal (s : string) : list ascii :=
  list_ascii_of_string s ++ [NUL].

(** [strlen]: number of characters before the first NUL; [None] when the
    scan leaves the storage (no terminator). *)
Fixpoint strlen (p : list ascii) : option nat :=
  match p with
  | [] => None
  | c :: rest =>
      if Ascii.eqb c NUL then Some 0%nat
      else option_map S (strlen rest)
  end.

(** [strncmp(s1, s2, n)]: compares at most [n] characters, as unsigned
    chars, and stops after a NUL.  [None] when a read leaves either
    storage. *)
Fixpoint strncmp (s1 s2 : list ascii) (n : nat) {struct n} : option Z :=
  match n with
  | O => Some 0%Z
  | S n' =>
      match s1, s2 with
      | c1 :: r1, c2 :: r2 =>
          if Ascii.eqb c1 c2
          then if Ascii.eqb c1 NUL then Some 0%Z else strncmp r1 r2 n'
          else Some (Z.of_nat (nat_of_ascii c1) - Z.of_nat (nat_of_ascii c2))%Z
      | _, _ => None
      end
  end.

(** [tolower] in the C locale. *)
Definition tolower (c : ascii) : ascii :=
  let n := nat_of_ascii c in
  if (65 <=? n)%nat && (n <=? 90)%nat then ascii_of_nat (n + 32) else c.

Fixpoint lowercase (s : string) : string :=
  match s with
  | EmptyString => EmptyString
  | String c r => String (tolower c) (lowercase r)
  end.

(** [strcasecmp(a, b) == 0] on NUL-free strings. *)
Definition strcasecmp_eq (a b : string) : bool :=
  String.eqb (lowercase a) (lowercase b).

(** [strcmp(a, b) == 0] on NUL-free strings. *)
Definition strcmp_eq (a b : string) : bool := String.eqb a b.

End CString.

(* ------------------------------------------------------------------ *)
(** * Host server constants (httpd.h, apr_errno.h) *)

Module Httpd.

Local Open Scope Z_scope.

Definition OK : Z := 0.
Definition DECLINED : Z := -1.
Definition DONE : Z := -2.

Definition apr_status_t := Z.
Definition APR_SUCCESS : apr_status_t := 0.
Definition APR_EOF : apr_status_t := 70014.
Definition APR_STATUS_IS_EOF (s : apr_status_t) : bool := s =? APR_EOF.

End Httpd.

(* ------------------------------------------------------------------ *)
(** * [apr_table_t]

    An ordered table of (key, value) entries whose keys are compared with
    [strcasecmp]. *)

Module AprTable.

Import CString.

Definition apr_table_t := list (string * string).

Definition key_is (key : string) (e : string * string) : bool :=
  strcasecmp_eq (fst e) key.

(** [apr_table_get]: the value of the first entry with that key, NULL
    ([None]) when there is none. *)
Fixpoint apr_table_get (t : apr_table_t) (key : string) : option string :=
  match t with
  | [] => None
  | e :: rest => if key_is key e then Some (snd e) else apr_table_get rest key
  end.

(** [apr_table_unset]: removes every entry with that key; the other
    entries keep their order. *)
Definition apr_table_unset (t : apr_table_t) (key : string) : apr_table_t :=
  filter (fun e => negb (key_is key e)) t.

(** [apr_table_setn]: overwrites the first entry with that key and drops
    the later ones, or appends a new entry. *)
Fixpoint apr_table_setn (t : apr_table_t) (key val : string) : apr_table_t :=
  match t with
  | [] => [(key, val)]
  | e :: rest =>
      if key_is key e then (fst e, val) :: apr_table_unset rest key
      else e :: apr_table_setn rest key val
  end.

End AprTable.

(* ------------------------------------------------------------------ *)
(** * mod_spdy.cc: hooks and filters *)

Module ModSpdy.

Import CString Httpd AprTable.
Local Open Scope string_scope.

(** For now, we only support SPDY version 2. *)
Definition kSpdyProtocolName : string := "spdy/2".

(** The characters of the protocol name the module advertises. *)
Definition spdy2 : list ascii := list_ascii_of_string kSpdyProtocolName.

(** The part of [mod_spdy::SpdyServerConfig] the hooks read. *)
Record SpdyServerConfig := {
  spdy_enabled : bool;
  max_threads_per_process : Z
}.

(** [mod_spdy::ConnectionContext]: the accessors the hooks call. *)
Inductive NpnState := NOT_DONE_YET | USING_SPDY | NOT_USING_SPDY.

Definition NpnState_eqb (a b : NpnState) : bool :=
  match a, b with
  | NOT_DONE_YET, NOT_DONE_YET
  | USING_SPDY, USING_SPDY
  | NOT_USING_SPDY, NOT_USING_SPDY => true
  | _, _ => false
  end.

Record ConnectionContext := {
  is_slave : bool;
  npn_state : NpnState
}.

Definition set_npn_state (context : ConnectionContext) (s : NpnState)
  : ConnectionContext :=
  {| is_slave := is_slave context; npn_state := s |}.

(** [conn_rec], with the module's per-connection data attached:
    [sbh] is the scoreboard handle, [context] what
    [GetConnectionContext] returns (NULL is [None]) and [server_config]
    what [GetServerConfig] returns. *)
Record conn_rec := {
  sbh : option nat;
  context : option ConnectionContext;
  server_config : SpdyServerConfig
}.

Definition GetConnectionContext (c : conn_rec) := context c.
Definition GetServerConfig (c : conn_rec) := server_config c.

Definition with_context (c : conn_rec) (x : ConnectionContext) : conn_rec :=
  {| sbh := sbh c; context := Some x; server_config := server_config c |}.

(** The NPN state of a connection, when it has a context. *)
Definition conn_npn_state (c : conn_rec) : option NpnState :=
  option_map npn_state (context c).

(** What a hook leaves behind besides its return value. *)
Inductive Effect :=
| LogDFatal (msg : string)
| LogError (msg : string)
| LogWarning (msg : string)
| LogAlert (msg : string)
| SpeculativeRead
| RegisterPoolCleanup
| SessionCreated (config : SpdyServerConfig)
| SessionRun.

(** ** AdvertiseNpnProtocols

    [protos] is the [apr_array_header_t] of protocol names;
    [APR_ARRAY_PUSH] appends one element. *)
Definition AdvertiseNpnProtocols (connection : conn_rec)
  (protos : list string) : Z * list string :=
  if negb (spdy_enabled (GetServerConfig connection)) then (DECLINED, protos)
  else (OK, (protos ++ [kSpdyProtocolName])%list).

(** ** OnNextProtocolNegotiated

    [proto_name] is the storage behind the [char*] (it need not be
    NUL-terminated) and [proto_name_len] the length mod_ssl passes.
    The result is the return value, the connection afterwards and the
    log. *)
Definition proto_is_spdy (proto_name : list ascii) (proto_name_len : nat)
  : bool :=
  match strlen (literal kSpdyProtocolName) with
  | Some n =>
      if Nat.eqb proto_name_len n then
        match strncmp (literal kSpdyProtocolName) proto_name proto_name_len with
        | Some 0%Z => true
        | _ => false
        end
      else false
  | None => false
  end.

Definition OnNextProtocolNegotiated (connection : conn_rec)
  (proto_name : list ascii) (proto_name_len : nat)
  : Z * conn_rec * list Effect :=
  match GetConnectionContext connection with
  | None =>
      (DECLINED, connection,
       [LogDFatal "NPN happened, but there is no connection context."])
  | Some context =>
      if is_slave context then
        (DECLINED, connection,
         [LogDFatal "mod_ssl was aparently not disabled for slave connection"])
      else if negb (NpnState_eqb (npn_state context) NOT_DONE_YET) then
        (DECLINED, connection, [LogDFatal "NPN happened twice."])
      else if proto_is_spdy proto_name proto_name_len then
        (OK, with_context connection (set_npn_state context USING_SPDY), [])
      else
        (OK, with_context connection (set_npn_state context NOT_USING_SPDY), [])
  end.

(** mod_ssl calling the hook once per entry of [names], in order. *)
Fixpoint negotiate_all (connection : conn_rec) (names : list (list ascii))
  : conn_rec :=
  match names with
  | [] => connection
  | n :: rest =>
      negotiate_all
        (snd (fst (OnNextProtocolNegotiated connection n (List.length n))))
        rest
  end.

(** ** ChildInit and the per-process thread pool *)

Definition apr_thread_pool := nat.

(** Outcome of [apr_thread_pool_create]: on success it stores the new
    pool through its first argument, on failure it stores NULL and
    returns the status. *)
Inductive pool_create_outcome :=
| PoolCreated (p : apr_thread_pool)
| PoolCreateFailed (status : apr_status_t).

Definition outcome_status (o : pool_create_outcome) : apr_status_t :=
  match o with PoolCreated _ => APR_SUCCESS | PoolCreateFailed s => s end.

Definition outcome_pool (o : pool_create_outcome) : option apr_thread_pool :=
  match o with PoolCreated p => Some p | PoolCreateFailed _ => None end.

(** [ChildInit]: [create] stands for [apr_thread_pool_create], called
    with [max_threads] twice; the result is the new value of
    [gPerProcessThreadPool] and what was logged or registered. *)
Definition ChildInit (create : Z -> Z -> pool_create_outcome)
  (config : SpdyServerConfig) : option apr_thread_pool * list Effect :=
  let max_threads := max_threads_per_process config in
  let o := create max_threads max_threads in
  let status := outcome_status o in
  if negb (Z.eqb status APR_SUCCESS) then
    (outcome_pool o,
     [LogAlert "Could not create mod_spdy thread pool; mod_spdy will not function."])
  else (outcome_pool o, [RegisterPoolCleanup]).

(** ** ProcessConnection

    [gPerProcessThreadPool] is the global; [read] is what the speculative
    [ap_get_brigade] does: its status and, when the handshake ran NPN,
    the protocol name mod_ssl hands to [OnNextProtocolNegotiated]. *)
Definition handshake (connection : conn_rec)
  (negotiated : option (list ascii)) : conn_rec :=
  match negotiated with
  | None => connection
  | Some n =>
      snd (fst (OnNextProtocolNegotiated connection n (List.length n)))
  end.

Definition ProcessConnection (gPerProcessThreadPool : option apr_thread_pool)
  (connection : conn_rec)
  (read : apr_status_t * option (list ascii)) : Z * list Effect :=
  match sbh connection with
  | None => (DECLINED, [])
  | Some _ =>
    match GetConnectionContext connection with
    | None => (DECLINED, [])
    | Some context =>
      if is_slave context then (DECLINED, [])
      else
        match gPerProcessThreadPool with
        | None => (DECLINED, [])
        | Some _ =>
          let status := fst read in
          let connection := handshake connection (snd read) in
          if negb (Z.eqb status APR_SUCCESS) then
            (DECLINED,
             SpeculativeRead ::
             (if negb (APR_STATUS_IS_EOF status)
              then [LogError "Error during speculative read"] else []))
          else
            let state := conn_npn_state connection in
            let warn :=
              match state with
              | Some NOT_DONE_YET =>
                  [LogWarning "NPN didn't happen during SSL handshake."]
              | _ => []
              end in
            match state with
            | Some USING_SPDY =>
                (OK, SpeculativeRead ::
                     (warn ++
                      [SessionCreated (GetServerConfig connection);
                       SessionRun])%list)
            | _ => (DECLINED, SpeculativeRead :: warn)
            end
        end
    end
  end.

(** ** The output filters *)

Record request_rec := {
  chunked : Z;
  headers_out : apr_table_t;
  the_request : string
}.

Definition set_headers_out (r : request_rec) (t : apr_table_t) : request_rec :=
  {| chunked := chunked r; headers_out := t; the_request := the_request r |}.

Section OutputFilters.

(** The brigade type, the next filter ([ap_pass_brigade]) and
    [mod_spdy::HttpToSpdyFilter::Write], which receives the request the
    filter was called on in the state the glue leaves it. *)
Variable brigade : Type.
Variable ap_pass_brigade : request_rec -> brigade -> apr_status_t.
Variable Write : request_rec -> brigade -> apr_status_t.

Definition AntiChunkingFilter (request : request_rec)
  (input_brigade : brigade) : apr_status_t * request_rec * list Effect :=
  let log1 :=
    if negb (Z.eqb (chunked request) 0) then [LogDFatal "request->chunked"]
    else [] in
  let log2 :=
    match apr_table_get (headers_out request) "Transfer-Encoding" with
    | Some _ => [LogDFatal "transfer_encoding"]
    | None => []
    end in
  let request :=
    set_headers_out request
      (apr_table_setn (headers_out request) "Transfer-Encoding" "chunked") in
  (ap_pass_brigade request input_brigade, request, (log1 ++ log2)%list).

Definition HttpToSpdyFilter (request : request_rec)
  (input_brigade : brigade) : apr_status_t * request_rec * list Effect :=
  let log1 :=
    if negb (Z.eqb (chunked request) 0) then [LogDFatal "request->chunked"]
    else [] in
  let log2 :=
    match apr_table_get (headers_out request) "Transfer-Encoding" with
    | Some transfer_encoding =>
        if negb (strcmp_eq transfer_encoding "chunked")
        then [LogDFatal "transfer_encoding"] else []
    | None => []
    end in
  let request :=
    set_headers_out request
      (apr_table_unset (headers_out request) "Transfer-Encoding") in
  (Write request input_brigade, request, (log1 ++ log2)%list).

End OutputFilters.

(** Modelled from the spec: the header block of the SYN_REPLY, built by
    [mod_spdy::HttpToSpdyFilter::Write], which is not among the sources.
    Its first two entries are [status] and [version: HTTP/1.1], followed
    by the response headers with their names lowercased. *)
Definition SynReplyHeaders (status : string) (headers : apr_table_t)
  : list (string * string) :=
  ("status", status) :: ("version", "HTTP/1.1") ::
  map (fun e => (lowercase (fst e), snd e)) headers.

(** ** The hooks that set a connection up *)

(** The filters [RegisterHooks] registers, by the names it gives them. *)
Inductive FilterHandle := SPDY_TO_HTTP | HTTP_TO_SPDY | SPDY_ANTI_CHUNKING.

(** What the set-up hooks do besides returning, in the order they do it:
    log entries, failed [DCHECK]s (a release build skips them), calls of
    mod_ssl's optional functions, and the filters created and added.  A
    filter object built from [context->slave_stream()] is given by the
    [context] it was built from. *)
Inductive HostCall :=
| Logged (e : Effect)
| DCheckFailed (condition : string)
| CallSslEngineDisable
| CallSslIsHttps
| PoolRegisterDelete (h : FilterHandle)
| AddInputFilter (h : FilterHandle) (context : ConnectionContext)
| AddOutputFilter (h : FilterHandle) (context : option ConnectionContext).

(** An optional function of mod_ssl: NULL when mod_ssl is not loaded. *)
Definition optional_fn := option (conn_rec -> Z).

Definition is_null (A : Type) (p : option A) : bool :=
  match p with None => true | Some _ => false end.

(** [RetrieveOptionalFunctions]: the arguments are what
    [APR_RETRIEVE_OPTIONAL_FN] finds for [ssl_engine_disable] and
    [ssl_is_https]; the result is the new values of
    [gDisableSslForConnection] and [gIsUsingSslForConnection] and the
    log. *)
Definition RetrieveOptionalFunctions
  (ssl_engine_disable ssl_is_https : optional_fn)
  : optional_fn * optional_fn * list Effect :=
  let gDisableSslForConnection := ssl_engine_disable in
  let gIsUsingSslForConnection := ssl_is_https in
  let log1 :=
    if is_null gDisableSslForConnection && is_null gIsUsingSslForConnection
    then [LogWarning
            "It seems that mod_spdy is installed but mod_ssl isn't.  Without SSL, the server cannot ever use SPDY."]
    else [] in
  let log2 :=
    if xorb (is_null gDisableSslForConnection)
            (is_null gIsUsingSslForConnection)
    then [LogDFatal
            "Some, but not all, of mod_ssl's optional functions are available.  What's going on?"]
    else [] in
  (gDisableSslForConnection, gIsUsingSslForConnection, (log1 ++ log2)%list).

(** [DisableSslForSlaves], the pre-connection hook that runs before
    mod_ssl's. *)
Definition DisableSslForSlaves (gDisableSslForConnection : optional_fn)
  (connection : conn_rec) : Z * list HostCall :=
  match GetConnectionContext connection with
  | None => (DECLINED, [])
  | Some context =>
      let dcheck :=
        if is_slave context then []
        else [DCheckFailed "context->is_slave()"] in
      let disable :=
        match gDisableSslForConnection with
        | None =>
            [Logged (LogDFatal "mod_ssl missing for slave connection")]
        | Some f =>
            CallSslEngineDisable ::
            (if Z.eqb (f connection) 0
             then [Logged (LogDFatal "mod_ssl missing for slave connection")]
             else [])
        end in
      (OK, (dcheck ++ disable)%list)
  end.

Section PreConnectionHook.

(** [mod_spdy::CreateMasterConnectionContext] (connection_context.h) is
    not among the sources: it attaches a new context to the connection. *)
Variable CreateMasterConnectionContext : conn_rec -> conn_rec.

(** [PreConnection], the pre-connection hook that runs after mod_ssl's
    and before the core's: the return value, the connection afterwards
    and what was done. *)
Definition PreConnection (gIsUsingSslForConnection : optional_fn)
  (connection : conn_rec) : Z * conn_rec * list HostCall :=
  match GetConnectionContext connection with
  | None =>
      match gIsUsingSslForConnection with
      | None => (DECLINED, connection, [])
      | Some f =>
          if Z.eqb (f connection) 0
          then (DECLINED, connection, [CallSslIsHttps])
          else (OK, CreateMasterConnectionContext connection,
                [CallSslIsHttps])
      end
  | Some context =>
      let dcheck :=
        if is_slave context then []
        else [DCheckFailed "context->is_slave()"] in
      (DONE, connection,
       (dcheck ++ [PoolRegisterDelete SPDY_TO_HTTP;
                   AddInputFilter SPDY_TO_HTTP context])%list)
  end.

End PreConnectionHook.

(** [InsertRequestFilters]: [connection] is [request->connection]. *)
Definition InsertRequestFilters (connection : conn_rec) : list HostCall :=
  match GetConnectionContext connection with
  | None => []
  | Some context =>
      if negb (is_slave context) then []
      else [PoolRegisterDelete HTTP_TO_SPDY;
            AddOutputFilter HTTP_TO_SPDY (Some context);
            AddOutputFilter SPDY_ANTI_CHUNKING None]
  end.

(** A master context as [OnNextProtocolNegotiated] and
    [ProcessConnection] expect to find it after [PreConnection]. *)
Definition fresh_master_context : ConnectionContext :=
  {| is_slave := false; npn_state := NOT_DONE_YET |}.

(** The characters of an advertised protocol name, as mod_ssl hands them
    to [OnNextProtocolNegotiated] together with their number. *)
Definition negotiated (name : string) : apr_status_t * option (list ascii) :=
  (APR_SUCCESS, Some (list_ascii_of_string name)).

End ModSpdy.

(* ------------------------------------------------------------------ *)
(** * Bucket brigades (apr_buckets.h)

    A brigade is the list of its buckets, first to last.  Buckets are
    in-memory data buckets or zero-length metadata buckets; [live] is
    cleared when the bucket is destroyed. *)

Module Brigade.

Import Httpd.

Definition APR_INCOMPLETE : apr_status_t := 70008%Z.

Inductive bucket_type := HEAP | EOS | FLUSH.

Record apr_bucket := {
  type : bucket_type;
  data : list byte;
  live : bool
}.

Definition heap_bucket (d : list byte) : apr_bucket :=
  {| type := HEAP; data := d; live := true |}.

Definition apr_bucket_brigade := list apr_bucket.

(** A bucket pointer into a brigade: the bucket at a position, or the
    brigade's sentinel. *)
Inductive bucket_ptr := BucketAt (i : nat) | Sentinel.

Definition bucket_length (e : apr_bucket) : nat := List.length (data e).

(** The bytes a brigade holds, in order. *)
Definition brigade_bytes (b : apr_bucket_brigade) : list byte :=
  List.concat (map data b).

(** [apr_brigade_length(b, 1, &len)]: every bucket here has a known
    length, so the call succeeds. *)
Definition apr_brigade_length (b : apr_bucket_brigade) : apr_status_t * nat :=
  (APR_SUCCESS, List.length (brigade_bytes b)).

(** [apr_bucket_split]: the bucket becomes two, over the same storage. *)
Definition apr_bucket_split (e : apr_bucket) (point : nat)
  : apr_bucket * apr_bucket :=
  ({| type := type e; data := firstn point (data e); live := live e |},
   {| type := type e; data := skipn point (data e); live := live e |}).

(** [apr_brigade_partition(b, point, &after_point)]: splits the bucket
    that contains offset [point], if any, and returns the first bucket
    after the offset.  The buckets all stay in the brigade.
    [APR_INCOMPLETE] when the brigade is shorter than [point]. *)
Fixpoint partition_from (b : apr_bucket_brigade) (point : nat) (idx : nat)
  : apr_status_t * apr_bucket_brigade * bucket_ptr :=
  match b with
  | [] => (APR_INCOMPLETE, [], Sentinel)
  | e :: rest =>
      if point <? bucket_length e then
        let (e1, e2) := apr_bucket_split e point in
        (APR_SUCCESS, e1 :: e2 :: rest, BucketAt (S idx))
      else if point =? bucket_length e then
        (APR_SUCCESS, e :: rest,
         match rest with [] => Sentinel | _ => BucketAt (S idx) end)
      else
        let '(rv, rest', p) :=
          partition_from rest (point - bucket_length e) (S idx) in
        (rv, e :: rest', p)
  end.

Definition apr_brigade_partition (b : apr_bucket_brigade) (point : nat)
  : apr_status_t * apr_bucket_brigade * bucket_ptr :=
  match point with
  | O => (APR_SUCCESS, b, match b with [] => Sentinel | _ => BucketAt 0 end)
  | _ => partition_from b point 0
  end.

(** [apr_brigade_flatten(b, c, &len)]: copies at most [len] bytes from
    the front of the brigade; the result is the bytes copied. *)
Definition apr_brigade_flatten (b : apr_bucket_brigade) (len : nat)
  : apr_status_t * list byte :=
  (APR_SUCCESS, firstn len (brigade_bytes b)).

(** [apr_bucket_destroy]. *)
Definition apr_bucket_destroy (e : apr_bucket) : apr_bucket :=
  {| type := type e; data := data e; live := false |}.

(** [apr_brigade_cleanup]: deletes every bucket of the brigade.  The
    result is the emptied brigade and the buckets, now destroyed, that
    pointers taken earlier still refer to. *)
Definition apr_brigade_cleanup (b : apr_bucket_brigade)
  : apr_bucket_brigade * list apr_bucket :=
  ([], map apr_bucket_destroy b).

(** [APR_BRIGADE_INSERT_TAIL]. *)
Definition APR_BRIGADE_INSERT_TAIL (b : apr_bucket_brigade) (e : apr_bucket)
  : apr_bucket_brigade := b ++ [e].

(** [APR_BRIGADE_CONCAT(a, b)]: appends [b] to [a]. *)
Definition APR_BRIGADE_CONCAT (a b : apr_bucket_brigade)
  : apr_bucket_brigade := a ++ b.

End Brigade.

(* ------------------------------------------------------------------ *)
(** * input_filter_input_stream.cc *)

Module InputStream.

Import Httpd Brigade.

(** The next filter of the chain: what its successive [ap_get_brigade]
    calls deliver (a status and the buckets put into the brigade); once
    the list is used up it answers [APR_EOF] with nothing. *)
Definition next_filter := list (apr_status_t * apr_bucket_brigade).

Record InputFilterInputStream := {
  filter_ : next_filter;
  brigade_ : apr_bucket_brigade;
  tmp_brigade_ : apr_bucket_brigade;
  next_filter_rv_ : apr_status_t
}.

(** The stream the constructor builds, attached to a filter. *)
Definition new_stream (f : next_filter) : InputFilterInputStream :=
  {| filter_ := f; brigade_ := []; tmp_brigade_ := [];
     next_filter_rv_ := APR_SUCCESS |}.

(** [ap_get_brigade(filter_->next, tmp_brigade_, AP_MODE_READBYTES,
    APR_BLOCK_READ, data_needed)]. *)
Definition ap_get_brigade (f : next_filter) (readbytes : Z)
  : apr_status_t * apr_bucket_brigade * next_filter :=
  match f with
  | [] => (APR_EOF, [], [])
  | (rv, buckets) :: rest => (rv, buckets, rest)
  end.

(** [size_t] and [apr_off_t] are 64 bits wide (LP64).  In
    [num_bytes - brigade_len] the [apr_off_t] is converted to [size_t]
    and the difference is taken modulo 2^64; stored into the [apr_off_t]
    [data_needed] it is negative from 2^63 on. *)
Definition APR_OFF_T_MAX : Z := 9223372036854775807%Z.

Definition to_apr_off_t (z : Z) : Z :=
  let u := (z mod 18446744073709551616)%Z in
  if (u <=? APR_OFF_T_MAX)%Z then u else (u - 18446744073709551616)%Z.

(** [PullBytesFromNextFilter]: one iteration per answer of the filter;
    [fuel] bounds the iterations and is never the reason to stop when it
    exceeds the number of answers left.  [CHECK(APR_BRIGADE_EMPTY(
    tmp_brigade_))] ends the process when it fails: the loop is given
    for the streams on which it holds (see [usable]), where
    [tmp_brigade_] receives the filter's answer and is empty again after
    [APR_BRIGADE_CONCAT]. *)
Fixpoint PullBytesFromNextFilter_loop (fuel : nat)
  (s : InputFilterInputStream) (num_bytes : nat)
  : apr_status_t * InputFilterInputStream :=
  match fuel with
  | O => (APR_SUCCESS, s)
  | S fuel' =>
      let (rv, brigade_len) := apr_brigade_length (brigade_ s) in
      if negb (Z.eqb rv APR_SUCCESS) then (rv, s)
      else
        let data_needed :=
          to_apr_off_t (Z.of_nat num_bytes - Z.of_nat brigade_len) in
        if (data_needed <=? 0)%Z then (APR_SUCCESS, s)
        else
          let '(rv, tmp, f') := ap_get_brigade (filter_ s) data_needed in
          let s' := {| filter_ := f';
                       brigade_ := APR_BRIGADE_CONCAT (brigade_ s) tmp;
                       tmp_brigade_ := [];
                       next_filter_rv_ := rv |} in
          if negb (Z.eqb rv APR_SUCCESS) then (rv, s')
          else PullBytesFromNextFilter_loop fuel' s' num_bytes
  end.

Definition PullBytesFromNextFilter (s : InputFilterInputStream)
  (num_bytes : nat) : apr_status_t * InputFilterInputStream :=
  PullBytesFromNextFilter_loop (S (S (List.length (filter_ s)))) s num_bytes.

(** [FinishRead]: the bytes copied to [data], the pointer left in
    [*extra] (NULL is [None]) and the brigade afterwards. *)
Definition FinishRead (brigade : apr_bucket_brigade) (data_len : nat)
  : list byte * option bucket_ptr * apr_bucket_brigade :=
  let (rv, brigade_len) := apr_brigade_length brigade in
  if negb (Z.eqb rv APR_SUCCESS) then ([], None, brigade)
  else
    let '(rv, brigade, extra) :=
      if data_len <? brigade_len then
        let '(rv, b, p) := apr_brigade_partition brigade data_len in
        (rv, b, Some p)
      else (APR_SUCCESS, brigade, None) in
    if negb (Z.eqb rv APR_SUCCESS) then ([], extra, brigade)
    else
      let (rv, bytes) := apr_brigade_flatten brigade data_len in
      if negb (Z.eqb rv APR_SUCCESS) then ([], extra, brigade)
      else (bytes, extra, brigade).

(** [Read]: the bytes handed to the caller and the stream afterwards.
    [extra] still points at its bucket when the brigade is cleaned up,
    so the bucket inserted at the tail is that bucket after
    [apr_brigade_cleanup] has destroyed it. *)
Definition Read (s : InputFilterInputStream) (data_len : nat)
  : list byte * InputFilterInputStream :=
  let (_, s) := PullBytesFromNextFilter s data_len in
  let '(bytes_read, extra, brigade) := FinishRead (brigade_ s) data_len in
  let (brigade, destroyed) := apr_brigade_cleanup brigade in
  let brigade :=
    match extra with
    | Some (BucketAt i) =>
        match nth_error destroyed i with
        | Some e => APR_BRIGADE_INSERT_TAIL brigade e
        | None => brigade
        end
    | Some Sentinel => brigade
    | None => brigade
    end in
  (bytes_read,
   {| filter_ := filter_ s; brigade_ := brigade;
      tmp_brigade_ := tmp_brigade_ s;
      next_filter_rv_ := next_filter_rv_ s |}).

(** Successive [Read] calls with the given lengths: the bytes each one
    returned. *)
Fixpoint Reads (s : InputFilterInputStream) (lens : list nat)
  : list (list byte) * InputFilterInputStream :=
  match lens with
  | [] => ([], s)
  | n :: rest =>
      let (bytes, s1) := Read s n in
      let (more, s2) := Reads s1 rest in
      (bytes :: more, s2)
  end.

(** Every byte the filter delivers over its lifetime, in order. *)
Definition filter_bytes (f : next_filter) : list byte :=
  List.concat (map (fun a => brigade_bytes (snd a)) f).

(** [IsEmpty]: the [CHECK] on [tmp_brigade_] aborts ([None]) when it
    fails. *)
Definition IsEmpty (s : InputFilterInputStream) : option bool :=
  match tmp_brigade_ s with
  | [] => Some match brigade_ s with [] => true | _ => false end
  | _ :: _ => None
  end.

(** During these reads the next filter keeps to the number of bytes it
    is asked for ([AP_MODE_READBYTES]): after each pull the brigade
    holds no more than [data_len] bytes. *)
Fixpoint within_requests (s : InputFilterInputStream) (lens : list nat)
  : Prop :=
  match lens with
  | [] => True
  | n :: rest =>
      (List.length
         (brigade_bytes (brigade_ (snd (PullBytesFromNextFilter s n))))
       <= n)%nat /\
      within_requests (snd (Read s n)) rest
  end.

(** A length that an [apr_off_t] holds. *)
Definition fits_apr_off_t (n : nat) : bool :=
  (Z.of_nat n <=? APR_OFF_T_MAX)%Z.

(** No bucket of the brigade has been destroyed. *)
Definition all_live (b : apr_bucket_brigade) : bool := forallb live b.

(** The streams on which the calls of the class are defined: the
    [CHECK] on [tmp_brigade_] holds, no bucket of the brigade or of the
    filter has been destroyed, and the bytes at hand have a length that
    [apr_brigade_length] can report. *)
Definition usable (s : InputFilterInputStream) : bool :=
  match tmp_brigade_ s with [] => true | _ :: _ => false end &&
  all_live (brigade_ s) &&
  forallb (fun a => all_live (snd a)) (filter_ s) &&
  fits_apr_off_t (List.length (brigade_bytes (brigade_ s)) +
                  List.length (filter_bytes (filter_ s))).

End InputStream.

(* ------------------------------------------------------------------ *)
(** * Wire-level helpers: big-endian fields over bytes *)

Module Wire.

Local Open Scope N_scope.

Definition bytes := list byte.

(** The low eight bits of [n] as a byte. *)
Definition u8 (n : N) : byte :=
  match Byte.of_N (n mod 256) with
  | Some b => b
  | None => x00
  end.

(** 16-bit big-endian. *)
Definition be16 (n : N) : bytes := [u8 (n / 256); u8 n].

Definition read_be16 (b : bytes) : option (N * bytes) :=
  match b with
  | hi :: lo :: rest => Some (Byte.to_N hi * 256 + Byte.to_N lo, rest)
  | _ => None
  end.

(** The bytes with the given values. *)
Definition octets (l : list N) : bytes := map u8 l.

(** The byte at an offset of a buffer, as a number (0 past its end). *)
Definition byte_at (buf : bytes) (i : nat) : N := Byte.to_N (nth i buf x00).

(** [take_chunk remaining data]: the handlers of the parser consume
    [min(remaining, len)] bytes; the result is the bytes consumed, the
    bytes left and what still remains to come. *)
Definition take_chunk (remaining : N) (data : bytes) : bytes * bytes * N :=
  let m := N.min remaining (N.of_nat (List.length data)) in
  (firstn (N.to_nat m) data, skipn (N.to_nat m) data, remaining - m).

End Wire.

(* ------------------------------------------------------------------ *)
(** * Header blocks (spdy_framer.h: [SpdyHeaderBlock], [ParseHeaderBlock],
      [CreateSynStream], [CreateSynReply]) *)

Module HeaderBlock.

Import Wire.
Local Open Scope N_scope.

(** [std::string::compare]: lexicographic on unsigned chars, a proper
    prefix comes first. *)
Fixpoint string_compare (a b : bytes) : comparison :=
  match a, b with
  | [], [] => Eq
  | [], _ :: _ => Lt
  | _ :: _, [] => Gt
  | x :: a', y :: b' =>
      match N.compare (Byte.to_N x) (Byte.to_N y) with
      | Eq => string_compare a' b'
      | c => c
      end
  end.

Definition string_lt (a b : bytes) : Prop := string_compare a b = Lt.

(** [typedef std::map<std::string, std::string> SpdyHeaderBlock]: the
    entries of the map in iteration order, which is ascending key order. *)
Definition SpdyHeaderBlock := list (bytes * bytes).

(** [std::less<std::string>], the map's [key_comp()]. *)
Definition key_comp (a b : bytes) : bool :=
  match string_compare a b with
  | Lt => true
  | _ => false
  end.

(** The order of the map on its entries. *)
Definition entry_lt (p q : bytes * bytes) : Prop :=
  string_lt (fst p) (fst q).

(** The key of the last entry of the map, [None] when it is empty. *)
Fixpoint last_key (block : SpdyHeaderBlock) : option bytes :=
  match block with
  | [] => None
  | (k, _) :: [] => Some k
  | _ :: rest => last_key rest
  end.

(** [std::map::insert]: the entry goes to its place in key order; a key
    that is present keeps its entry. *)
Fixpoint insert (block : SpdyHeaderBlock) (name value : bytes)
  : SpdyHeaderBlock :=
  match block with
  | [] => [(name, value)]
  | (k, v) :: rest =>
      match string_compare name k with
      | Eq => (k, v) :: rest
      | Lt => (name, value) :: (k, v) :: rest
      | Gt => (k, v) :: insert rest name value
      end
  end.

(** Whether a list of pairs has its names in strictly ascending order,
    starting above [last] when there is one. *)
Fixpoint ascending_after (last : option bytes) (pairs : list (bytes * bytes))
  : bool :=
  match pairs with
  | [] => true
  | (n, _) :: rest =>
      match last with
      | None => true
      | Some k => key_comp k n
      end && ascending_after (Some n) rest
  end.

Definition ascending (pairs : list (bytes * bytes)) : bool :=
  ascending_after None pairs.

(** The control frames that carry a header block, and the others. *)
Inductive SpdyFrame :=
| DataFrame (stream_id : N) (flags : N) (payload : bytes)
| SynStream (stream_id associated_stream_id : N) (priority : N)
            (flags : N) (header_data : bytes)
| SynReply (stream_id : N) (flags : N) (header_data : bytes)
| RstStream (stream_id : N) (status : N)
| Settings (payload : bytes)
| Noop
| Ping (token : N)
| Goaway (last_accepted_stream_id : N).

(** Modelled from the spec: the header-block encoding of section 4.2,
    whose code ([SpdyFrameBuilder], spdy_framer.cc) is not among the
    sources.  A 16-bit big-endian count of pairs, then for each pair a
    16-bit big-endian name length, the name, a 16-bit big-endian value
    length and the value. *)
Definition WriteString (s : bytes) : bytes :=
  be16 (N.of_nat (List.length s)) ++ s.

Definition WritePair (p : bytes * bytes) : bytes :=
  WriteString (fst p) ++ WriteString (snd p).

Definition WriteHeaderBlock (pairs : list (bytes * bytes)) : bytes :=
  be16 (N.of_nat (List.length pairs)) ++ List.concat (map WritePair pairs).

(** Modelled from the spec: reading one length-prefixed string; it
    fails when fewer bytes are left than the prefix announces. *)
Definition ReadString (b : bytes) : option (bytes * bytes) :=
  match read_be16 b with
  | None => None
  | Some (n, rest) =>
      if N.of_nat (List.length rest) <? n then None
      else Some (firstn (N.to_nat n) rest, skipn (N.to_nat n) rest)
  end.

(** [std::map::find(name) != end()]. *)
Fixpoint has_key (block : SpdyHeaderBlock) (name : bytes) : bool :=
  match block with
  | [] => false
  | (k, _) :: rest =>
      match string_compare name k with
      | Eq => true
      | _ => has_key rest name
      end
  end.

(** Modelled from the spec: a header name as sections 3 and 4.2 want
    it, not empty, in ASCII and without upper-case letters. *)
Definition lowercase_ascii (b : byte) : bool :=
  let n := Byte.to_N b in
  (n <? 128) && negb ((65 <=? n) && (n <=? 90)).

Definition valid_name (name : bytes) : bool :=
  match name with
  | [] => false
  | _ :: _ => forallb lowercase_ascii name
  end.

Section Codec.

(** Whether the decoder is on one of the paths on which it "barfs on
    out-of-order headers" (section 4.2; the header befriends the test
    HeaderBlockBarfsOnOutOfOrderHeaders): the specification leaves open
    which paths these are. *)
Variable barfs_on_out_of_order : bool.

(** Modelled from the spec: the decoder of section 4.2, whose code
    (spdy_framer.cc) is not among the sources.  It reads the announced
    number of pairs into the map and fails when the data ends early or
    goes on after the last pair.  A name must be lowercase and not
    empty, and a duplicated name is rejected; a name that is not above
    the names read before it is rejected on the paths that barf on
    out-of-order headers.  A value may be empty and stays one string
    (values joined by NUL are split by the map's user). *)
Fixpoint ReadPairs (n : nat) (b : bytes) (block : SpdyHeaderBlock)
  : option SpdyHeaderBlock :=
  match n with
  | O => match b with [] => Some block | _ => None end
  | S n' =>
      match ReadString b with
      | None => None
      | Some (name, b1) =>
          match ReadString b1 with
          | None => None
          | Some (value, b2) =>
              if negb (valid_name name) then None
              else if has_key block name then None
              else if barfs_on_out_of_order &&
                      negb match last_key block with
                           | None => true
                           | Some last => key_comp last name
                           end
              then None
              else ReadPairs n' b2 (insert block name value)
          end
      end
  end.

Definition ReadHeaderBlock (b : bytes) : option SpdyHeaderBlock :=
  match read_be16 b with
  | None => None
  | Some (num_headers, rest) => ReadPairs (N.to_nat num_headers) rest []
  end.

(** The framer's zlib streams, primed with the fixed dictionary:
    [compress] is the outbound compressor and [decompress] the inbound
    decompressor, each failing with [None]; [enable_compression_] is the
    member of that name. *)
Variable enable_compression_ : bool.
Variable compress : bytes -> option bytes.
Variable decompress : bytes -> option bytes.

Definition map_header_data (f : bytes -> option bytes) (frame : SpdyFrame)
  : option SpdyFrame :=
  match frame with
  | SynStream id assoc prio flags d =>
      option_map (SynStream id assoc prio flags) (f d)
  | SynReply id flags d => option_map (SynReply id flags) (f d)
  | other => Some other
  end.

(** [CompressFrame] and [DecompressFrame]: a new frame with the payload
    (de)compressed, NULL ([None]) on failure. *)
Definition CompressFrame (frame : SpdyFrame) : option SpdyFrame :=
  if enable_compression_ then map_header_data compress frame else Some frame.

Definition DecompressFrame (frame : SpdyFrame) : option SpdyFrame :=
  if enable_compression_ then map_header_data decompress frame
  else Some frame.

(** Modelled from the spec: [CreateSynStream] and [CreateSynReply]
    (bodies in spdy_framer.cc) serialize the map in its iteration order
    and compress the frame when [compressed] is set. *)
Definition CreateSynStream (stream_id associated_stream_id priority flags : N)
  (compressed : bool) (headers : SpdyHeaderBlock) : option SpdyFrame :=
  let frame := SynStream stream_id associated_stream_id priority flags
                 (WriteHeaderBlock headers) in
  if compressed then CompressFrame frame else Some frame.

Definition CreateSynReply (stream_id flags : N)
  (compressed : bool) (headers : SpdyHeaderBlock) : option SpdyFrame :=
  let frame := SynReply stream_id flags (WriteHeaderBlock headers) in
  if compressed then CompressFrame frame else Some frame.

(** Modelled from the spec: [ParseHeaderBlock] (body in
    spdy_framer.cc).  Only valid for SYN_STREAM and SYN_REPLY frames,
    whose header block it takes through the inbound decompressor;
    [None] is the [false] return, [Some block] the [true] return with
    [*block] filled in. *)
Definition ParseHeaderBlock (frame : SpdyFrame) : option SpdyHeaderBlock :=
  match frame with
  | SynStream _ _ _ _ _ | SynReply _ _ _ =>
      match DecompressFrame frame with
      | Some (SynStream _ _ _ _ d) | Some (SynReply _ _ d) => ReadHeaderBlock d
      | _ => None
      end
  | _ => None
  end.

End Codec.

(** The size limits of the data model: at most 2^16-1 pairs, names and
    values of at most 2^16-1 bytes each, a serialized block of at most
    2^24-1 bytes. *)
Definition within_limits (pairs : list (bytes * bytes)) : Prop :=
  N.of_nat (List.length pairs) < 65536 /\
  Forall (fun p => N.of_nat (List.length (fst p)) < 65536 /\
                   N.of_nat (List.length (snd p)) < 65536) pairs /\
  N.of_nat (List.length (WriteHeaderBlock pairs)) < 16777216.

(** A header block whose names are all as section 4.2 wants them. *)
Definition valid_names (pairs : list (bytes * bytes)) : Prop :=
  Forall (fun p => valid_name (fst p) = true) pairs.

(** The map that holds the pairs given, put in one after the other. *)
Definition map_of (pairs : list (bytes * bytes)) : SpdyHeaderBlock :=
  fold_left (fun block p => insert block (fst p) (snd p)) pairs [].

(** Two headers, "b" first, and the same two in ascending order. *)
Definition b_then_a : list (bytes * bytes) :=
  [(octets [98], octets [49]); (octets [97], octets [50])].

Definition a_then_b : list (bytes * bytes) :=
  [(octets [97], octets [50]); (octets [98], octets [49])].

End HeaderBlock.

(* ------------------------------------------------------------------ *)
(** * The frame parser (spdy_framer.h: [SpdyFramer]) *)

Module Framer.

Import Wire.
Local Open Scope N_scope.

(** SPDY states. *)
Inductive SpdyState :=
| SPDY_ERROR
| SPDY_DONE
| SPDY_RESET
| SPDY_AUTO_RESET
| SPDY_READING_COMMON_HEADER
| SPDY_INTERPRET_CONTROL_FRAME_COMMON_HEADER
| SPDY_CONTROL_FRAME_PAYLOAD
| SPDY_IGNORE_REMAINING_PAYLOAD
| SPDY_FORWARD_STREAM_FRAME.

(** SPDY error codes. *)
Inductive SpdyError :=
| SPDY_NO_ERROR
| SPDY_INVALID_CONTROL_FRAME      (* Control frame is mal-formatted. *)
| SPDY_CONTROL_PAYLOAD_TOO_LARGE  (* Control frame payload was too large. *)
| SPDY_ZLIB_INIT_FAILURE          (* The Zlib library could not initialize. *)
| SPDY_UNSUPPORTED_VERSION        (* Control frame has unsupported version. *)
| SPDY_DECOMPRESS_FAILURE         (* There was an error decompressing. *)
| SPDY_COMPRESS_FAILURE           (* There was an error compressing. *)
| LAST_ERROR.

(** The calls made on [SpdyFramerVisitorInterface].  [OnError] receives
    the framer, from which the visitor reads [error_code()]; the end of
    a stream's data is signalled by [OnStreamFrameData] with a
    zero-length buffer. *)
Inductive VisitorCall :=
| OnError (error_code : SpdyError)
| OnControl (frame : bytes)
| OnStreamFrameData (stream_id : N) (data : bytes).

(** The members of [SpdyFramer] the parser uses.  [current_frame_len_]
    is the length of [current_frame_buffer_]. *)
Record SpdyFramer := {
  state_ : SpdyState;
  error_code_ : SpdyError;
  remaining_payload_ : N;
  remaining_control_payload_ : N;
  current_frame_buffer_ : bytes;
  current_frame_capacity_ : N
}.

Definition current_frame_len_ (f : SpdyFramer) : N :=
  N.of_nat (List.length (current_frame_buffer_ f)).

(** The inline members of the class. *)
Definition remaining_payload (f : SpdyFramer) : N := remaining_payload_ f.
Definition error_code (f : SpdyFramer) : SpdyError := error_code_ f.
Definition state (f : SpdyFramer) : SpdyState := state_ f.

Definition MessageFullyRead (f : SpdyFramer) : bool :=
  match state_ f with
  | SPDY_DONE | SPDY_AUTO_RESET => true
  | _ => false
  end.

Definition HasError (f : SpdyFramer) : bool :=
  match state_ f with
  | SPDY_ERROR => true
  | _ => false
  end.

Definition CHANGE_STATE (f : SpdyFramer) (s : SpdyState) : SpdyFramer :=
  {| state_ := s; error_code_ := error_code_ f;
     remaining_payload_ := remaining_payload_ f;
     remaining_control_payload_ := remaining_control_payload_ f;
     current_frame_buffer_ := current_frame_buffer_ f;
     current_frame_capacity_ := current_frame_capacity_ f |}.

Definition set_buffer (f : SpdyFramer) (b : bytes) : SpdyFramer :=
  {| state_ := state_ f; error_code_ := error_code_ f;
     remaining_payload_ := remaining_payload_ f;
     remaining_control_payload_ := remaining_control_payload_ f;
     current_frame_buffer_ := b;
     current_frame_capacity_ := current_frame_capacity_ f |}.

Definition set_remaining_payload (f : SpdyFramer) (n : N) : SpdyFramer :=
  {| state_ := state_ f; error_code_ := error_code_ f;
     remaining_payload_ := n;
     remaining_control_payload_ := remaining_control_payload_ f;
     current_frame_buffer_ := current_frame_buffer_ f;
     current_frame_capacity_ := current_frame_capacity_ f |}.

Definition set_remaining_control_payload (f : SpdyFramer) (n : N)
  : SpdyFramer :=
  {| state_ := state_ f; error_code_ := error_code_ f;
     remaining_payload_ := remaining_payload_ f;
     remaining_control_payload_ := n;
     current_frame_buffer_ := current_frame_buffer_ f;
     current_frame_capacity_ := current_frame_capacity_ f |}.

(** Set the error code and moves the framer into the error state; the
    visitor is told. *)
Definition set_error (f : SpdyFramer) (error : SpdyError)
  : SpdyFramer * list VisitorCall :=
  ({| state_ := SPDY_ERROR; error_code_ := error;
      remaining_payload_ := remaining_payload_ f;
      remaining_control_payload_ := remaining_control_payload_ f;
      current_frame_buffer_ := current_frame_buffer_ f;
      current_frame_capacity_ := current_frame_capacity_ f |},
   [OnError error]).

(** Expands the control frame buffer to accomodate a particular payload
    size (the common header precedes the payload in the buffer). *)
Definition ExpandControlFrameBuffer (f : SpdyFramer) (size : N) : SpdyFramer :=
  {| state_ := state_ f; error_code_ := error_code_ f;
     remaining_payload_ := remaining_payload_ f;
     remaining_control_payload_ := remaining_control_payload_ f;
     current_frame_buffer_ := current_frame_buffer_ f;
     current_frame_capacity_ :=
       N.max (current_frame_capacity_ f) (size + 8) |}.

(** Resets the framer state after a frame has been successfully
    decoded. *)
Definition Reset (f : SpdyFramer) : SpdyFramer :=
  {| state_ := SPDY_RESET; error_code_ := SPDY_NO_ERROR;
     remaining_payload_ := 0;
     remaining_control_payload_ := 0;
     current_frame_buffer_ := [];
     current_frame_capacity_ := current_frame_capacity_ f |}.

(** A newly created framer. *)
Definition new_SpdyFramer : SpdyFramer :=
  {| state_ := SPDY_RESET; error_code_ := SPDY_NO_ERROR;
     remaining_payload_ := 0;
     remaining_control_payload_ := 0;
     current_frame_buffer_ := [];
     current_frame_capacity_ := 8 |}.

(** Modelled from the spec: the 8-byte common header of section 4.1,
    whose accessors (spdy_protocol.h) are not among the sources.  The
    first bit tells control from data; control frames carry version (15
    bits), type (16), flags (8), length (24); data frames carry stream
    id (31 bits), flags (8), length (24). *)
Definition kFrameHeaderSize : N := 8.
Definition kSpdyProtocolVersion : N := 2.

Definition is_control_frame (h : bytes) : bool := 128 <=? byte_at h 0.
Definition version (h : bytes) : N :=
  (byte_at h 0 mod 128) * 256 + byte_at h 1.
Definition frame_type (h : bytes) : N := byte_at h 2 * 256 + byte_at h 3.
Definition stream_id (h : bytes) : N :=
  (byte_at h 0 mod 128) * 16777216 + byte_at h 1 * 65536
  + byte_at h 2 * 256 + byte_at h 3.
Definition flags (h : bytes) : N := byte_at h 4.
Definition length (h : bytes) : N :=
  byte_at h 5 * 65536 + byte_at h 6 * 256 + byte_at h 7.

(** A framer that expects the first byte of a frame. *)
Definition at_frame_start (f : SpdyFramer) : bool :=
  match state_ f with
  | SPDY_RESET | SPDY_AUTO_RESET => true
  | SPDY_READING_COMMON_HEADER =>
      match current_frame_buffer_ f with [] => true | _ => false end
  | _ => false
  end.

(** Modelled from the spec: whether the framer can only go on with a
    byte of input, being between frames, inside a header or inside a
    payload.  In the other
    states (a complete header to interpret, a payload of which nothing
    remains) it goes on by itself. *)
Definition wants_input (f : SpdyFramer) : bool :=
  match state_ f with
  | SPDY_RESET | SPDY_AUTO_RESET => true
  | SPDY_READING_COMMON_HEADER => current_frame_len_ f <? kFrameHeaderSize
  | SPDY_CONTROL_FRAME_PAYLOAD => negb (remaining_control_payload_ f =? 0)
  | SPDY_IGNORE_REMAINING_PAYLOAD
  | SPDY_FORWARD_STREAM_FRAME => negb (remaining_payload_ f =? 0)
  | SPDY_INTERPRET_CONTROL_FRAME_COMMON_HEADER => false
  | SPDY_ERROR | SPDY_DONE => false
  end.

Section Parser.

(** [control_frame_cap_bytes] is the configured cap on a control frame's
    payload; [DATA_FLAG_FIN] is the flag bit of spdy_protocol.h. *)
Variable control_frame_cap_bytes : N.
Variable DATA_FLAG_FIN : N.

Definition has_fin (h : bytes) : bool :=
  negb (N.land (flags h) DATA_FLAG_FIN =? 0).

(** Modelled from the spec: the bodies of the four handlers and of
    [ProcessInput] are in spdy_framer.cc, which is not among the
    sources; they follow section 4.1.  Each handler returns the framer,
    the bytes it left and the visitor calls it made.

    [ProcessCommonHeader] gathers the 8 header bytes and, once they are
    there, moves on according to the first bit. *)
Definition ProcessCommonHeader (f : SpdyFramer) (data : bytes)
  : SpdyFramer * bytes * list VisitorCall :=
  let '(chunk, rest, _) :=
    take_chunk (kFrameHeaderSize - current_frame_len_ f) data in
  let f := set_buffer f (current_frame_buffer_ f ++ chunk) in
  if current_frame_len_ f <? kFrameHeaderSize then (f, rest, [])
  else
    let f := set_remaining_payload f (length (current_frame_buffer_ f)) in
    if is_control_frame (current_frame_buffer_ f)
    then (CHANGE_STATE f SPDY_INTERPRET_CONTROL_FRAME_COMMON_HEADER, rest, [])
    else (CHANGE_STATE f SPDY_FORWARD_STREAM_FRAME, rest, []).

(** Modelled from the spec: [ProcessControlFrameHeader] consumes
    nothing and applies the error conditions of section 4.1 in the order
    the specification lists them: a version other than 2 is
    INVALID_CONTROL_FRAME, stated for every control frame, and a payload
    length above the cap is CONTROL_PAYLOAD_TOO_LARGE.  Otherwise the
    buffer is expanded for the payload. *)
Definition ProcessControlFrameHeader (f : SpdyFramer)
  : SpdyFramer * list VisitorCall :=
  let h := current_frame_buffer_ f in
  if negb (version h =? kSpdyProtocolVersion)
  then set_error f SPDY_INVALID_CONTROL_FRAME
  else if control_frame_cap_bytes <? length h
  then set_error f SPDY_CONTROL_PAYLOAD_TOO_LARGE
  else
    let f := set_remaining_control_payload f (length h) in
    let f := ExpandControlFrameBuffer f (length h) in
    (CHANGE_STATE f SPDY_CONTROL_FRAME_PAYLOAD, []).

(** Modelled from the spec: [ProcessControlFramePayload] copies payload
    bytes into the buffer and hands the complete frame to [OnControl]. *)
Definition ProcessControlFramePayload (f : SpdyFramer) (data : bytes)
  : SpdyFramer * bytes * list VisitorCall :=
  let '(chunk, rest, remaining) :=
    take_chunk (remaining_control_payload_ f) data in
  let f := set_buffer f (current_frame_buffer_ f ++ chunk) in
  let f := set_remaining_control_payload f remaining in
  if remaining =? 0
  then (CHANGE_STATE f SPDY_AUTO_RESET, rest,
        [OnControl (current_frame_buffer_ f)])
  else (f, rest, []).

(** The payload gathered behind the 8 header bytes of the buffer. *)
Definition payload (buffer : bytes) : bytes :=
  skipn (N.to_nat kFrameHeaderSize) buffer.

(** Modelled from the spec: [ProcessDataFramePayload] copies payload
    bytes into the buffer and, once the frame is complete, emits it: the
    data of the frame in one [OnStreamFrameData] call, and for a frame
    with FIN the call with a zero-length buffer by which
    [SpdyFramerVisitorInterface] signals the end of the stream (a frame
    without data makes that call only).  In
    [SPDY_IGNORE_REMAINING_PAYLOAD] the frame is dropped. *)
Definition ProcessDataFramePayload (f : SpdyFramer) (data : bytes)
  : SpdyFramer * bytes * list VisitorCall :=
  let forwarding :=
    match state_ f with
    | SPDY_FORWARD_STREAM_FRAME => true
    | _ => false
    end in
  let '(chunk, rest, remaining) := take_chunk (remaining_payload_ f) data in
  let f := set_buffer f (current_frame_buffer_ f ++ chunk) in
  let f := set_remaining_payload f remaining in
  if remaining =? 0
  then
    let h := current_frame_buffer_ f in
    (CHANGE_STATE f SPDY_AUTO_RESET, rest,
     if forwarding
     then match payload h with
          | [] => []
          | _ :: _ => [OnStreamFrameData (stream_id h) (payload h)]
          end ++
          (if has_fin h then [OnStreamFrameData (stream_id h) []] else [])
     else [])
  else (f, rest, []).

(** Modelled from the spec: one turn of the loop of [ProcessInput],
    by the state the framer is in; [None] in the states that take
    nothing more. *)
Definition ProcessInput_step (f : SpdyFramer) (data : bytes)
  : option (SpdyFramer * bytes * list VisitorCall) :=
  match state_ f with
  | SPDY_ERROR | SPDY_DONE => None
  | SPDY_AUTO_RESET | SPDY_RESET =>
      Some (CHANGE_STATE (Reset f) SPDY_READING_COMMON_HEADER, data, [])
  | SPDY_READING_COMMON_HEADER => Some (ProcessCommonHeader f data)
  | SPDY_INTERPRET_CONTROL_FRAME_COMMON_HEADER =>
      let (f', calls) := ProcessControlFrameHeader f in Some (f', data, calls)
  | SPDY_CONTROL_FRAME_PAYLOAD => Some (ProcessControlFramePayload f data)
  | SPDY_IGNORE_REMAINING_PAYLOAD
  | SPDY_FORWARD_STREAM_FRAME => Some (ProcessDataFramePayload f data)
  end.

(** Modelled from the spec: the loop of [ProcessInput].  It turns until
    the input is used up and the framer cannot go on without a byte, so
    that a frame is emitted, or rejected, in the call that brings its
    last byte; between frames it waits in [SPDY_AUTO_RESET].  [fuel]
    bounds the turns. *)
Fixpoint ProcessInput_loop (fuel : nat) (f : SpdyFramer) (data : bytes)
  : SpdyFramer * bytes * list VisitorCall :=
  match fuel with
  | O => (f, data, [])
  | S fuel' =>
      if match data with [] => wants_input f | _ :: _ => false end
      then (f, data, [])
      else
        match ProcessInput_step f data with
        | None => (f, data, [])
        | Some (f', data', calls) =>
            let '(f'', rest, calls') := ProcessInput_loop fuel' f' data' in
            (f'', rest, calls ++ calls')
        end
  end.

(** Between two bytes consumed the loop takes at most five turns. *)
Definition fuel_for (data : bytes) : nat := 6 * List.length data + 6.

(** [ProcessInput(data, len)]: the number of bytes consumed, the framer
    afterwards and the visitor calls made, in order. *)
Definition ProcessInput (f : SpdyFramer) (data : bytes)
  : nat * SpdyFramer * list VisitorCall :=
  let '(f', rest, calls) := ProcessInput_loop (fuel_for data) f data in
  ((List.length data - List.length rest)%nat, f', calls).

(** The loop of [ProcessInput] started with the fuel [ProcessInput]
    gives it. *)
Definition run (f : SpdyFramer) (data : bytes)
  : SpdyFramer * bytes * list VisitorCall :=
  ProcessInput_loop (fuel_for data) f data.

(** Feeding a byte sequence one byte per [ProcessInput] call: the framer
    afterwards and all the visitor calls, in order. *)
Fixpoint feed_bytewise (f : SpdyFramer) (data : bytes)
  : SpdyFramer * list VisitorCall :=
  match data with
  | [] => (f, [])
  | b :: rest =>
      let '(_, f', calls) := ProcessInput f [b] in
      let (f'', calls') := feed_bytewise f' rest in
      (f'', calls ++ calls')
  end.

(** Feeding a list of inputs, one [ProcessInput] call each: the bytes
    each call consumed, the framer afterwards and the visitor calls. *)
Fixpoint feed_all (f : SpdyFramer) (inputs : list bytes)
  : list nat * SpdyFramer * list VisitorCall :=
  match inputs with
  | [] => ([], f, [])
  | d :: rest =>
      let '(n, f', calls) := ProcessInput f d in
      let '(ns, f'', calls') := feed_all f' rest in
      (n :: ns, f'', calls ++ calls')
  end.

(** [peel_ok f b rest]: feeding [b] alone and then [rest] ends in the
    same framer as feeding [b :: rest], with the same visitor calls. *)
Definition peel_ok (f : SpdyFramer) (b : byte) (rest : bytes) : Prop :=
  fst (fst (run f (b :: rest))) =
  fst (fst (run (fst (fst (run f [b]))) rest)) /\
  snd (run f (b :: rest)) =
  (snd (run f [b]) ++ snd (run (fst (fst (run f [b]))) rest))%list.

(** ** The session's use of the framer *)

(** The status the session's run entry point returns (section 7). *)
Inductive SessionStatus := Clean | PeerClosed | ProtocolError | TransportError.

(** What the session does on the way: it handles the frames the framer
    emits, sends GOAWAY with status PROTOCOL_ERROR and closes the
    transport. *)
Inductive SessionAction :=
| Handle (call : VisitorCall)
| SendGoawayProtocolError
| CloseTransport.

(** The frames among the visitor calls of one feed. *)
Definition emitted (calls : list VisitorCall) : list VisitorCall :=
  filter (fun c => match c with OnError _ => false | _ => true end) calls.

(** Modelled from the spec: the ingress loop of the session (sections
    4.4 and 7), whose code (spdy_session.cc) is not among the sources.
    [reads] is what the successive reads from the transport deliver,
    until the peer closes.  The session feeds each read to the framer
    and handles the frames emitted; an error of the framer is fatal to
    the session, which answers it with GOAWAY PROTOCOL_ERROR, closes the
    transport and returns [ProtocolError]. *)
Fixpoint ingress (f : SpdyFramer) (reads : list bytes)
  : SessionStatus * list SessionAction :=
  match reads with
  | [] => (PeerClosed, [CloseTransport])
  | d :: rest =>
      let '(_, f', calls) := ProcessInput f d in
      if HasError f'
      then (ProtocolError,
            map Handle (emitted calls) ++
            [SendGoawayProtocolError; CloseTransport])
      else
        let (status, actions) := ingress f' rest in
        (status, map Handle (emitted calls) ++ actions)
  end.

End Parser.

(** How many turns a framer can take before it needs a byte. *)
Definition pending (f : SpdyFramer) : nat :=
  match state_ f with
  | SPDY_ERROR | SPDY_DONE => 0
  | SPDY_RESET | SPDY_AUTO_RESET => 1
  | SPDY_READING_COMMON_HEADER =>
      if current_frame_len_ f <? kFrameHeaderSize then 0 else 5
  | SPDY_INTERPRET_CONTROL_FRAME_COMMON_HEADER => 4
  | SPDY_CONTROL_FRAME_PAYLOAD =>
      if remaining_control_payload_ f =? 0 then 3 else 0
  | SPDY_IGNORE_REMAINING_PAYLOAD | SPDY_FORWARD_STREAM_FRAME =>
      if remaining_payload_ f =? 0 then 3 else 0
  end.

Definition measure (f : SpdyFramer) (data : bytes) : nat :=
  6 * List.length data + pending f.

(** A control frame header of version 3 (type 5, no payload) and one of
    version 2 announcing 5 payload bytes; the latter with version 3; a
    data frame of stream 1 with two payload bytes and FIN, and one
    without payload. *)
Definition version_3_header : bytes := octets [128; 3; 0; 5; 0; 0; 0; 0].
Definition five_byte_control_header : bytes :=
  octets [128; 2; 0; 6; 0; 0; 0; 5].
Definition two_byte_data_frame : bytes :=
  octets [0; 0; 0; 1; 1; 0; 0; 2; 97; 98].
Definition empty_fin_data_frame : bytes :=
  octets [0; 0; 0; 1; 1; 0; 0; 0].

End Framer.

(* ================================================================== *)
(** * Properties *)

(* ------------------------------------------------------------------ *)
(** ** C strings *)

Section CStringFacts.

Import CString.

Lemma nat_of_ascii_inj (a b : ascii) : nat_of_ascii a = nat_of_ascii b -> a = b.
Proof.
  intro H.
  rewrite <- (ascii_nat_embedding a), <- (ascii_nat_embedding b).
  now rewrite H.
Qed.

(** Against storage of exactly [length s] characters, [strncmp] with a
    NUL-free prefix [s] answers 0 exactly when the storage holds [s]. *)
Lemma strncmp_zero_iff (s tail p : list ascii) :
  Forall (fun c => c <> NUL) s ->
  List.length p = List.length s ->
  strncmp (s ++ tail) p (List.length s) = Some 0%Z <-> p = s.
Proof.
  intros Hs. revert p.
  induction Hs as [|c s Hc Hs IH]; intros p Hlen.
  - destruct p; [|discriminate]. simpl. split; reflexivity.
  - destruct p as [|d p]; [discriminate|].
    simpl in Hlen. injection Hlen as Hlen.
    simpl. destruct (Ascii.eqb_spec c d) as [->|Hne].
    + destruct (Ascii.eqb_spec d NUL) as [E|_]; [contradiction|].
      rewrite (IH p Hlen). split; [now intros ->|].
      now intros [= ->].
    + split.
      * intros [= H]. exfalso. apply Hne, nat_of_ascii_inj. lia.
      * intros [= E _]. now subst.
Qed.

End CStringFacts.

(* ------------------------------------------------------------------ *)
(** ** mod_spdy.cc *)

Section ModSpdyFacts.

Import CString Httpd AprTable ModSpdy.
Local Open Scope string_scope.


Lemma proto_is_spdy_iff (proto_name : list ascii) :
  proto_is_spdy proto_name (List.length proto_name) = true <->
  proto_name = spdy2.
Proof.
  unfold proto_is_spdy.
  change (strlen (literal kSpdyProtocolName)) with (Some 6%nat).
  cbv beta iota.
  destruct (Nat.eqb_spec (List.length proto_name) 6) as [Hlen|Hlen].
  - assert (Hnul : Forall (fun c => c <> NUL) spdy2)
      by (repeat constructor; discriminate).
    pose proof (@strncmp_zero_iff spdy2 [NUL] proto_name Hnul Hlen) as H.
    change (spdy2 ++ [NUL])%list with (literal kSpdyProtocolName) in H.
    change (List.length spdy2) with 6%nat in H.
    rewrite Hlen, <- H.
    destruct (strncmp _ _ _) as [[| |]|]; split; congruence.
  - split; [discriminate|]. intros ->. now elim Hlen.
Qed.

Lemma NpnState_eqb_eq (a b : NpnState) : NpnState_eqb a b = true <-> a = b.
Proof. destruct a, b; simpl; split; congruence. Qed.

(** Once the NPN state has left [NOT_DONE_YET], further calls of the
    hook leave the connection as it is. *)
Lemma negotiate_all_settled (connection : conn_rec)
  (names : list (list ascii)) :
  conn_npn_state connection <> Some NOT_DONE_YET ->
  negotiate_all connection names = connection.
Proof.
  revert connection.
  induction names as [|n names IH]; intros connection H; [reflexivity|].
  simpl. unfold OnNextProtocolNegotiated, GetConnectionContext.
  unfold conn_npn_state in H.
  destruct (context connection) as [ctx|] eqn:E; simpl in *.
  - destruct (is_slave ctx) eqn:Es; simpl.
    + apply IH. unfold conn_npn_state. now rewrite E.
    + destruct (NpnState_eqb (npn_state ctx) NOT_DONE_YET) eqn:En; simpl.
      * apply NpnState_eqb_eq in En. congruence.
      * apply IH. unfold conn_npn_state. now rewrite E.
  - apply IH. unfold conn_npn_state. now rewrite E.
Qed.

(** C6: the NPN advertisement hook appends exactly the literal string
    "spdy/2" to the advertised protocols and returns OK when the server
    configuration has [spdy_enabled]; otherwise it returns DECLINED and
    leaves the list as it was. *)
Theorem AdvertiseNpnProtocols_spdy2 (connection : conn_rec)
  (protos : list string) :
  AdvertiseNpnProtocols connection protos =
  if spdy_enabled (GetServerConfig connection)
  then (OK, (protos ++ ["spdy/2"])%list)
  else (DECLINED, protos).
Proof.
  unfold AdvertiseNpnProtocols.
  now destruct (spdy_enabled (GetServerConfig connection)).
Qed.

(** C10 as stated fails on a slave connection: its NPN state is
    [NOT_DONE_YET] and the negotiated name is "spdy/2", yet the hook
    declines and sets nothing. *)
Lemma OnNextProtocolNegotiated_declines_slave :
  let c := {| sbh := Some 0%nat;
              context := Some {| is_slave := true;
                                 npn_state := NOT_DONE_YET |};
              server_config := {| spdy_enabled := true;
                                  max_threads_per_process := 4%Z |} |} in
  let r := OnNextProtocolNegotiated c spdy2 (List.length spdy2) in
  conn_npn_state c = Some NOT_DONE_YET /\
  fst (fst r) = DECLINED /\
  snd (fst r) = c /\
  conn_npn_state (snd (fst r)) = Some NOT_DONE_YET /\
  conn_npn_state (snd (fst r)) <> Some USING_SPDY.
Proof. cbv zeta. repeat split. discriminate. Qed.

(** C10, as the code has it: the NPN state of a connection moves at
    most once, and only on a master connection.
    [OnNextProtocolNegotiated] declines and changes nothing when the
    connection has no context, when its context is a slave's (whatever
    its NPN state) and when the NPN state is not [NOT_DONE_YET]; on a
    master connection in [NOT_DONE_YET] it returns OK and sets
    [USING_SPDY] if and only if the negotiated name, of the length
    given, is "spdy/2" byte for byte, and [NOT_USING_SPDY] otherwise;
    after that no further call changes the connection. *)
Theorem OnNextProtocolNegotiated_once (connection : conn_rec)
  (proto_name : list ascii) :
  let r := OnNextProtocolNegotiated connection proto_name
             (List.length proto_name) in
  let connection' := snd (fst r) in
  (GetConnectionContext connection = None ->
   fst (fst r) = DECLINED /\ connection' = connection) /\
  (forall ctx,
     GetConnectionContext connection = Some ctx ->
     is_slave ctx = true ->
     fst (fst r) = DECLINED /\ connection' = connection) /\
  (conn_npn_state connection <> Some NOT_DONE_YET ->
   fst (fst r) = DECLINED /\ connection' = connection) /\
  (forall ctx,
     GetConnectionContext connection = Some ctx ->
     is_slave ctx = false ->
     npn_state ctx = NOT_DONE_YET ->
     fst (fst r) = OK /\
     (conn_npn_state connection' = Some USING_SPDY <-> proto_name = spdy2) /\
     (proto_name <> spdy2 ->
      conn_npn_state connection' = Some NOT_USING_SPDY) /\
     (forall later, negotiate_all connection' later = connection')).
Proof.
  cbv zeta. unfold OnNextProtocolNegotiated, GetConnectionContext.
  split; [|split; [|split]].
  - now intros ->.
  - intros ctx -> ->. now split.
  - unfold conn_npn_state.
    destruct (context connection) as [ctx|]; simpl; [|auto].
    intro H. destruct (is_slave ctx); simpl; [auto|].
    destruct (NpnState_eqb (npn_state ctx) NOT_DONE_YET) eqn:En; simpl;
      [|auto].
    apply NpnState_eqb_eq in En. congruence.
  - intros ctx Hctx Hslave Hstate. rewrite Hctx, Hslave, Hstate. simpl.
    pose proof (proto_is_spdy_iff proto_name) as Hiff.
    destruct (proto_is_spdy proto_name (List.length proto_name)); simpl.
    + repeat split; auto.
      * intros _. now apply Hiff.
      * intro Hne. elim Hne. now apply Hiff.
      * intro later. now apply negotiate_all_settled.
    + repeat split; auto.
      * discriminate.
      * intro E. apply Hiff in E. discriminate.
      * intro later. now apply negotiate_all_settled.
Qed.

Lemma OnNextProtocolNegotiated_once_witness :
  let c := {| sbh := Some 0%nat;
              context := Some {| is_slave := false;
                                 npn_state := NOT_DONE_YET |};
              server_config := {| spdy_enabled := true;
                                  max_threads_per_process := 4%Z |} |} in
  conn_npn_state
    (snd (fst (OnNextProtocolNegotiated c spdy2 (List.length spdy2))))
  = Some USING_SPDY.
Proof.
  intro c.
  destruct (OnNextProtocolNegotiated_once c spdy2) as (_ & _ & _ & H).
  destruct (H _ eq_refl eq_refl eq_refl) as [_ [Hiff _]].
  apply Hiff. reflexivity.
Defined.

(** C8: when the per-process thread pool could not be created, the
    global stays NULL and [ProcessConnection] returns DECLINED before
    the speculative read: no SPDY session is created and none is run. *)
Theorem ProcessConnection_without_thread_pool
  (create : Z -> Z -> pool_create_outcome) (config : SpdyServerConfig)
  (connection : conn_rec) (read : apr_status_t * option (list ascii)) :
  outcome_pool (create (max_threads_per_process config)
                       (max_threads_per_process config)) = None ->
  let gPerProcessThreadPool := fst (ChildInit create config) in
  gPerProcessThreadPool = None /\
  ProcessConnection gPerProcessThreadPool connection read = (DECLINED, []) /\
  (forall e, In e (snd (ProcessConnection None connection read)) ->
             e <> SessionRun /\ forall c, e <> SessionCreated c).
Proof.
  intros Hnone. cbv zeta.
  assert (Hg : fst (ChildInit create config) = None).
  { unfold ChildInit.
    destruct (negb _); simpl; exact Hnone. }
  assert (Hp : ProcessConnection None connection read = (DECLINED, [])).
  { unfold ProcessConnection.
    destruct (sbh connection); [|reflexivity].
    destruct (GetConnectionContext connection) as [ctx|]; [|reflexivity].
    now destruct (is_slave ctx). }
  rewrite Hg, Hp. repeat split; try intro; simpl in *; contradiction.
Qed.

Lemma ProcessConnection_without_thread_pool_witness :
  let create := fun _ _ : Z => PoolCreateFailed 12%Z in
  let config := {| spdy_enabled := true; max_threads_per_process := 4%Z |} in
  let c := {| sbh := Some 0%nat;
              context := Some {| is_slave := false;
                                 npn_state := NOT_DONE_YET |};
              server_config := config |} in
  ProcessConnection (fst (ChildInit create config)) c
    (APR_SUCCESS, Some spdy2) = (DECLINED, []).
Proof.
  intros create config c.
  apply (@ProcessConnection_without_thread_pool create config c
           (APR_SUCCESS, Some spdy2)).
  reflexivity.
Defined.

(** With the pool in place the same connection is served as a SPDY
    session: the guard is what keeps the session from running. *)
Example ProcessConnection_with_thread_pool :
  ProcessConnection (Some 1%nat)
    {| sbh := Some 0%nat;
       context := Some {| is_slave := false; npn_state := NOT_DONE_YET |};
       server_config := {| spdy_enabled := true;
                           max_threads_per_process := 4%Z |} |}
    (APR_SUCCESS, Some spdy2)
  = (OK, [SpeculativeRead;
          SessionCreated {| spdy_enabled := true;
                            max_threads_per_process := 4%Z |};
          SessionRun]).
Proof. reflexivity. Qed.

End ModSpdyFacts.

Section OutputFilterFacts.

Import CString Httpd AprTable ModSpdy.
Local Open Scope string_scope.

Variable brigade : Type.
Variable Write : request_rec -> brigade -> apr_status_t.

(** A table key names the Transfer-Encoding header exactly when its
    lowercased form is [transfer-encoding]. *)
Lemma key_is_transfer_encoding (e : string * string) :
  key_is "Transfer-Encoding" e =
  String.eqb (lowercase (fst e)) "transfer-encoding".
Proof. reflexivity. Qed.

Lemma apr_table_get_unset (t : apr_table_t) (key : string) :
  apr_table_get (apr_table_unset t key) key = None.
Proof.
  induction t as [|e t IH]; [reflexivity|].
  unfold apr_table_unset in *. simpl.
  destruct (key_is key e) eqn:E; simpl; [exact IH|].
  now rewrite E.
Qed.

Lemma apr_table_get_unset_other (t : apr_table_t) (key other : string) :
  strcasecmp_eq other key = false ->
  apr_table_get (apr_table_unset t key) other = apr_table_get t other.
Proof.
  intro Hne. induction t as [|e t IH]; [reflexivity|].
  unfold apr_table_unset in *. simpl.
  destruct (key_is key e) eqn:E; simpl.
  - rewrite IH. destruct (key_is other e) eqn:E'; [|reflexivity].
    unfold key_is, strcasecmp_eq in *.
    apply String.eqb_eq in E, E'. rewrite <- E, E' in Hne.
    now rewrite String.eqb_refl in Hne.
  - now rewrite IH.
Qed.

Lemma SynReplyHeaders_unset (status : string) (t : apr_table_t) :
  SynReplyHeaders status (apr_table_unset t "Transfer-Encoding") =
  filter (fun e => negb (String.eqb (fst e) "transfer-encoding"))
         (SynReplyHeaders status t).
Proof.
  unfold SynReplyHeaders. simpl. do 2 f_equal.
  induction t as [|e t IH]; [reflexivity|].
  unfold apr_table_unset in *. simpl.
  rewrite key_is_transfer_encoding.
  destruct (String.eqb (lowercase (fst e)) "transfer-encoding"); simpl;
    now rewrite IH.
Qed.

Lemma apr_table_unset_absent (t : apr_table_t) (key : string) :
  apr_table_get t key = None -> apr_table_unset t key = t.
Proof.
  induction t as [|e t IH]; [reflexivity|].
  unfold apr_table_unset in *. cbn.
  destruct (key_is key e); [discriminate|].
  intro H. cbn. now rewrite IH.
Qed.

Lemma apr_table_unset_setn (t : apr_table_t) (key val : string) :
  apr_table_unset (apr_table_setn t key val) key = apr_table_unset t key.
Proof.
  induction t as [|e t IH].
  - unfold apr_table_unset, key_is, strcasecmp_eq. cbn.
    now rewrite String.eqb_refl.
  - cbn [apr_table_setn]. destruct (key_is key e) eqn:E.
    + unfold apr_table_unset at 1 3. cbn [filter].
      unfold key_is in *. cbn [fst]. rewrite E. cbn [negb].
      fold (apr_table_unset (apr_table_unset t key) key).
      apply apr_table_unset_absent, apr_table_get_unset.
    + unfold apr_table_unset in *. cbn [filter]. rewrite E. cbn [negb].
      now rewrite IH.
Qed.

(** X12.  The anti-chunking filter followed by the HTTP-to-SPDY filter:
    a response that was not chunked and had no Transfer-Encoding header
    shows [Transfer-Encoding: chunked] to the filters in between, and
    reaches [Write] with exactly the headers it had; neither filter
    logs anything. *)
Lemma AntiChunkingFilter_then_HttpToSpdyFilter
  (ap_pass_brigade : request_rec -> brigade -> apr_status_t)
  (request : request_rec) (input_brigade : brigade) :
  chunked request = 0%Z ->
  apr_table_get (headers_out request) "Transfer-Encoding" = None ->
  let r1 := AntiChunkingFilter ap_pass_brigade request input_brigade in
  let r2 := HttpToSpdyFilter Write (snd (fst r1)) input_brigade in
  apr_table_get (headers_out (snd (fst r1))) "Transfer-Encoding"
    = Some "chunked" /\
  headers_out (snd (fst r2)) = headers_out request /\
  snd r1 = [] /\ snd r2 = [].
Proof.
  intros Hch Hte. cbv zeta.
  unfold AntiChunkingFilter, HttpToSpdyFilter, set_headers_out.
  cbn [fst snd headers_out chunked the_request].
  rewrite Hch, Hte, apr_table_unset_setn.
  assert (Hget : apr_table_get
                   (apr_table_setn (headers_out request)
                      "Transfer-Encoding" "chunked") "Transfer-Encoding"
                 = Some "chunked").
  { clear Hch. induction (headers_out request) as [|e t IH];
      [reflexivity|].
    cbn in Hte |- *. destruct (key_is "Transfer-Encoding" e) eqn:E;
      [discriminate|].
    cbn. rewrite E. now apply IH. }
  rewrite Hget. repeat split.
  now apply apr_table_unset_absent.
Qed.

(** C7: [HttpToSpdyFilter] removes the Transfer-Encoding header from the
    response headers before it calls [Write], which builds the SYN_REPLY:
    the table [Write] sees has no such entry, every other header is
    there unchanged and in order, and the header block built from it has
    no [transfer-encoding] name and is otherwise the block of the
    original headers.  A response carrying [Transfer-Encoding: chunked]
    (and not marked chunked) is handled without a log entry. *)
Theorem HttpToSpdyFilter_strips_transfer_encoding
  (request : request_rec) (input_brigade : brigade) :
  let r := HttpToSpdyFilter Write request input_brigade in
  let request' := snd (fst r) in
  fst (fst r) = Write request' input_brigade /\
  apr_table_get (headers_out request') "Transfer-Encoding" = None /\
  headers_out request' =
    filter (fun e => negb (key_is "Transfer-Encoding" e))
           (headers_out request) /\
  (forall other,
     strcasecmp_eq other "Transfer-Encoding" = false ->
     apr_table_get (headers_out request') other =
     apr_table_get (headers_out request) other) /\
  (forall status,
     ~ In "transfer-encoding"
          (map fst (SynReplyHeaders status (headers_out request'))) /\
     SynReplyHeaders status (headers_out request') =
     filter (fun e => negb (String.eqb (fst e) "transfer-encoding"))
            (SynReplyHeaders status (headers_out request))) /\
  chunked request' = chunked request /\
  the_request request' = the_request request /\
  (apr_table_get (headers_out request) "Transfer-Encoding" = Some "chunked" ->
   chunked request = 0%Z -> snd r = []).
Proof.
  cbv zeta. unfold HttpToSpdyFilter, set_headers_out.
  cbn [fst snd headers_out chunked the_request].
  repeat split.
  - apply apr_table_get_unset.
  - intros other Hne. now apply apr_table_get_unset_other.
  - rewrite SynReplyHeaders_unset. intro Hin.
    apply in_map_iff in Hin. destruct Hin as [e [He Hin]].
    apply filter_In in Hin. destruct Hin as [_ Hf].
    rewrite He in Hf. now rewrite String.eqb_refl in Hf.
  - apply SynReplyHeaders_unset.
  - intros Hte Hch. rewrite Hte, Hch. reflexivity.
Qed.

End OutputFilterFacts.

Lemma HttpToSpdyFilter_strips_transfer_encoding_witness :
  let request :=
    {| ModSpdy.chunked := 0;
       ModSpdy.headers_out :=
         [("Content-Type", "text/html"); ("Transfer-Encoding", "chunked");
          ("Content-Length", "3")]%string;
       ModSpdy.the_request := "GET / HTTP/1.1" |} in
  snd (ModSpdy.HttpToSpdyFilter (fun _ (_ : unit) => Httpd.APR_SUCCESS)
         request tt) = [] /\
  ModSpdy.SynReplyHeaders "200 OK"
    (ModSpdy.headers_out
       (snd (fst (ModSpdy.HttpToSpdyFilter
                    (fun _ (_ : unit) => Httpd.APR_SUCCESS) request tt))))
  = [("status", "200 OK"); ("version", "HTTP/1.1");
     ("content-type", "text/html"); ("content-length", "3")]%string.
Proof.
  intro request.
  pose proof (@HttpToSpdyFilter_strips_transfer_encoding unit
                (fun _ _ => Httpd.APR_SUCCESS) request tt) as H.
  cbv zeta in H.
  destruct H as (_ & _ & _ & _ & Hblock & _ & _ & Hlog).
  split.
  - apply Hlog; reflexivity.
  - rewrite (proj2 (Hblock "200 OK"%string)). reflexivity.
Defined.

(* ------------------------------------------------------------------ *)
(** ** input_filter_input_stream.cc *)

Section InputStreamFacts.

Import Httpd Brigade InputStream.

(** [Read] never returns more than [data_len] bytes. *)
Lemma Read_at_most_data_len (s : InputFilterInputStream) (data_len : nat) :
  (List.length (fst (Read s data_len)) <= data_len)%nat.
Proof.
  unfold Read.
  destruct (PullBytesFromNextFilter s data_len) as [rv s1].
  unfold FinishRead, apr_brigade_length, apr_brigade_flatten.
  change (negb (APR_SUCCESS =? APR_SUCCESS)%Z) with false. cbv iota.
  destruct (data_len <? _)%nat.
  - destruct (apr_brigade_partition (brigade_ s1) data_len) as [[rv' b] p].
    destruct (negb (rv' =? APR_SUCCESS)%Z); cbn [fst apr_brigade_cleanup].
    + apply Nat.le_0_l.
    + apply firstn_le_length.
  - cbn [fst apr_brigade_cleanup]. apply firstn_le_length.
Qed.

(** The loop of [PullBytesFromNextFilter] ends by itself: fuel beyond
    the number of answers the filter has left changes nothing. *)
Lemma PullBytesFromNextFilter_fuel (fuel1 fuel2 : nat)
  (s : InputFilterInputStream) (num_bytes : nat) :
  (List.length (filter_ s) + 1 < fuel1)%nat ->
  (List.length (filter_ s) + 1 < fuel2)%nat ->
  PullBytesFromNextFilter_loop fuel1 s num_bytes =
  PullBytesFromNextFilter_loop fuel2 s num_bytes.
Proof.
  revert fuel2 s.
  induction fuel1 as [|fuel1 IH]; intros fuel2 s H1 H2; [lia|].
  destruct fuel2 as [|fuel2]; [lia|].
  cbn [PullBytesFromNextFilter_loop].
  destruct (apr_brigade_length (brigade_ s)) as [rv brigade_len].
  destruct (negb (rv =? APR_SUCCESS)%Z); [reflexivity|].
  cbv zeta. destruct (_ <=? 0)%Z; [reflexivity|].
  destruct (filter_ s) as [|[rv' tmp] rest] eqn:Hf; cbn [ap_get_brigade].
  - reflexivity.
  - destruct (negb (rv' =? APR_SUCCESS)%Z); [reflexivity|].
    apply IH; cbn [filter_]; cbn [List.length] in *; lia.
Qed.

(** When the brigade holds no more than [data_len] bytes after the
    pull, [Read] returns all of them and leaves the brigade empty. *)
Lemma Read_within_data_len (s : InputFilterInputStream) (data_len : nat) :
  let s1 := snd (PullBytesFromNextFilter s data_len) in
  (List.length (brigade_bytes (brigade_ s1)) <= data_len)%nat ->
  fst (Read s data_len) = brigade_bytes (brigade_ s1) /\
  brigade_ (snd (Read s data_len)) = [].
Proof.
  cbv zeta. unfold Read.
  destruct (PullBytesFromNextFilter s data_len) as [rv s1].
  cbn [snd]. intro Hle.
  unfold FinishRead, apr_brigade_length, apr_brigade_flatten.
  change (negb (APR_SUCCESS =? APR_SUCCESS)%Z) with false. cbv iota.
  destruct (Nat.ltb_spec data_len (List.length (brigade_bytes (brigade_ s1))));
    [lia|].
  change (negb (APR_SUCCESS =? APR_SUCCESS)%Z) with false.
  cbn [fst snd apr_brigade_cleanup brigade_].
  split; [|reflexivity].
  now apply firstn_all2.
Qed.

Lemma brigade_bytes_cons (e : apr_bucket) (b : apr_bucket_brigade) :
  brigade_bytes (e :: b) = (data e ++ brigade_bytes b)%list.
Proof. reflexivity. Qed.

Lemma brigade_bytes_app (a b : apr_bucket_brigade) :
  brigade_bytes (a ++ b) = (brigade_bytes a ++ brigade_bytes b)%list.
Proof.
  unfold brigade_bytes. now rewrite map_app, concat_app.
Qed.

(** [apr_brigade_partition] at an offset inside the brigade succeeds:
    the brigade is cut at the offset, the buckets before
    [*after_point] hold the bytes before the offset, that bucket and the
    ones after it hold the rest. *)
Lemma partition_from_inside (b : apr_bucket_brigade) (point idx : nat) :
  (0 < point)%nat ->
  (point < List.length (brigade_bytes b))%nat ->
  exists pre e post,
    partition_from b point idx =
      (APR_SUCCESS, (pre ++ e :: post)%list,
       BucketAt (idx + List.length pre)) /\
    brigade_bytes pre = firstn point (brigade_bytes b) /\
    brigade_bytes (e :: post) = skipn point (brigade_bytes b).
Proof.
  revert point idx.
  induction b as [|e0 rest IH]; intros point idx Hpos Hlt;
    [cbn in Hlt; lia|].
  rewrite brigade_bytes_cons, length_app in Hlt.
  cbn [partition_from]. unfold bucket_length.
  destruct (Nat.ltb_spec point (List.length (data e0))) as [H1|H1].
  - cbn [apr_bucket_split].
    eexists [_], _, rest. split; [|split].
    + cbn [app List.length]. now rewrite Nat.add_1_r.
    + rewrite brigade_bytes_cons. cbn [brigade_bytes map List.concat data].
      rewrite app_nil_r, firstn_app.
      replace (point - List.length (data e0))%nat with 0%nat by lia.
      cbn [firstn]. now rewrite app_nil_r.
    + rewrite !brigade_bytes_cons. cbn [data].
      rewrite skipn_app.
      replace (point - List.length (data e0))%nat with 0%nat by lia.
      reflexivity.
  - destruct (Nat.eqb_spec point (List.length (data e0))) as [H2|H2].
    + destruct rest as [|e1 rest]; [cbn in Hlt; lia|].
      exists [e0], e1, rest. split; [|split].
      * cbn [app List.length]. now rewrite Nat.add_1_r.
      * rewrite brigade_bytes_cons. cbn [brigade_bytes map List.concat].
        rewrite app_nil_r, firstn_app, H2, Nat.sub_diag, firstn_all.
        cbn [firstn]. now rewrite app_nil_r.
      * rewrite (brigade_bytes_cons e0), skipn_app, H2, Nat.sub_diag.
        now rewrite skipn_all.
    + destruct (IH (point - List.length (data e0))%nat (S idx))
        as (pre & e & post & Hp & Hpre & Hpost); try lia.
      rewrite Hp. exists (e0 :: pre), e, post. split; [|split].
      * cbn [app List.length]. do 2 f_equal. lia.
      * rewrite !brigade_bytes_cons, Hpre, firstn_app.
        rewrite (@firstn_all2 _ point (data e0)) by lia. reflexivity.
      * rewrite Hpost, brigade_bytes_cons, skipn_app.
        rewrite (@skipn_all2 _ point (data e0)) by lia. reflexivity.
Qed.

Lemma apr_brigade_partition_inside (b : apr_bucket_brigade) (point : nat) :
  (point < List.length (brigade_bytes b))%nat ->
  exists pre e post,
    apr_brigade_partition b point =
      (APR_SUCCESS, (pre ++ e :: post)%list, BucketAt (List.length pre)) /\
    brigade_bytes pre = firstn point (brigade_bytes b) /\
    brigade_bytes (e :: post) = skipn point (brigade_bytes b).
Proof.
  intro Hlt. unfold apr_brigade_partition.
  destruct point as [|point].
  - destruct b as [|e post]; [cbn in Hlt; lia|].
    exists [], e, post. repeat split.
  - apply (@partition_from_inside b (S point) 0); [lia|exact Hlt].
Qed.

(** What [Read] does with a brigade that holds more than [data_len]
    bytes after the pull: it returns the first [data_len] bytes, and of
    the bytes beyond them it keeps those of one bucket, the one [extra]
    points at, in a bucket that [apr_brigade_cleanup] has destroyed;
    the bytes of all the buckets after it are dropped. *)
Lemma Read_beyond_data_len (s : InputFilterInputStream) (data_len : nat) :
  let s1 := snd (PullBytesFromNextFilter s data_len) in
  let buffered := brigade_bytes (brigade_ s1) in
  (data_len < List.length buffered)%nat ->
  exists e dropped,
    fst (Read s data_len) = firstn data_len buffered /\
    brigade_ (snd (Read s data_len)) = [e] /\
    live e = false /\
    skipn data_len buffered = (data e ++ dropped)%list.
Proof.
  cbv zeta. unfold Read.
  destruct (PullBytesFromNextFilter s data_len) as [rv s1].
  cbn [snd]. intro Hlt.
  destruct (apr_brigade_partition_inside _ Hlt)
    as (pre & e & post & Hp & Hpre & Hpost).
  unfold FinishRead, apr_brigade_length, apr_brigade_flatten.
  change (negb (APR_SUCCESS =? APR_SUCCESS)%Z) with false. cbv iota.
  destruct (Nat.ltb_spec data_len
              (List.length (brigade_bytes (brigade_ s1)))); [|lia].
  rewrite Hp.
  change (negb (APR_SUCCESS =? APR_SUCCESS)%Z) with false. cbv iota.
  cbn [fst snd apr_brigade_cleanup brigade_].
  rewrite map_app, nth_error_app2 by (rewrite length_map; lia).
  rewrite length_map, Nat.sub_diag. cbn [map nth_error].
  exists (apr_bucket_destroy e), (brigade_bytes post).
  repeat split.
  - rewrite brigade_bytes_app, Hpre, Hpost. now rewrite firstn_skipn.
  - rewrite <- Hpost. reflexivity.
Qed.

(** C9, at an input where it fails.  The next filter answers the first
    read with two buckets, "ab" and "c".  [Read(1)] returns "a";
    [apr_brigade_cleanup] then deletes every bucket, and only the bucket
    [extra] points at ("b", by then destroyed) is put back: the bucket
    "c" is gone.  The following reads return "b" and then nothing, so of
    the three bytes the filter delivered the caller sees two. *)
Theorem Read_loses_buckets_after_extra :
  let a := "a"%byte in let b := "b"%byte in let c := "c"%byte in
  let next := [(APR_SUCCESS, [heap_bucket [a; b]; heap_bucket [c]])] in
  let s0 := new_stream next in
  filter_bytes next = [a; b; c] /\
  fst (Read s0 1) = [a] /\
  brigade_ (snd (Read s0 1)) =
    [{| type := HEAP; data := [b]; live := false |}] /\
  fst (Reads s0 [1; 2; 5]%nat) = [[a]; [b]; []] /\
  brigade_ (snd (Reads s0 [1; 2; 5]%nat)) = [] /\
  filter_ (snd (Reads s0 [1; 2; 5]%nat)) = [].
Proof. cbv zeta. repeat split. Qed.

End InputStreamFacts.

(* ------------------------------------------------------------------ *)
(** ** The frame parser *)

Section TakeChunk.

Import Wire.
Local Open Scope N_scope.

Lemma take_chunk_nil (n : N) : take_chunk n [] = ([], [], n).
Proof.
  unfold take_chunk. cbn [List.length N.of_nat].
  rewrite N.min_0_r, N.sub_0_r. reflexivity.
Qed.

Lemma take_chunk_zero (data : bytes) : take_chunk 0 data = ([], data, 0).
Proof. unfold take_chunk. rewrite N.min_0_l. reflexivity. Qed.

(** With something to take, the first byte at hand is taken and the
    rest is a chunk for what remains. *)
Lemma take_chunk_cons (n : N) (b : byte) (rest : bytes) :
  0 < n ->
  take_chunk n (b :: rest) =
  let '(c, r, n') := take_chunk (n - 1) rest in (b :: c, r, n').
Proof.
  intro Hn. unfold take_chunk.
  assert (Hlen : N.of_nat (List.length (b :: rest)) =
                 N.of_nat (List.length rest) + 1)
    by (cbn [List.length]; lia).
  rewrite Hlen. generalize (N.of_nat (List.length rest)) as len. intro len.
  assert (Hmin : N.min n (len + 1) = N.min (n - 1) len + 1) by lia.
  rewrite Hmin.
  replace (N.to_nat (N.min (n - 1) len + 1))
    with (S (N.to_nat (N.min (n - 1) len))) by lia.
  cbn [firstn skipn]. f_equal. lia.
Qed.

Lemma take_chunk_length (n : N) (data c r : bytes) (n' : N) :
  take_chunk n data = (c, r, n') ->
  data = (c ++ r)%list /\ N.of_nat (List.length c) + n' = n /\
  N.of_nat (List.length c) = N.min n (N.of_nat (List.length data)).
Proof.
  unfold take_chunk. intros [= <- <- <-].
  rewrite firstn_skipn. split; [reflexivity|].
  rewrite length_firstn. lia.
Qed.

End TakeChunk.

Section ParserFacts.

Import Wire Framer.
Local Open Scope N_scope.

Variable control_frame_cap_bytes : N.
Variable DATA_FLAG_FIN : N.

Local Notation "'step'" :=
  (ProcessInput_step control_frame_cap_bytes DATA_FLAG_FIN).
Local Notation "'loop'" :=
  (ProcessInput_loop control_frame_cap_bytes DATA_FLAG_FIN).
Local Notation "'run'" :=
  (Framer.run control_frame_cap_bytes DATA_FLAG_FIN).
Local Notation "'peel_ok'" :=
  (Framer.peel_ok control_frame_cap_bytes DATA_FLAG_FIN).

Lemma pending_le (f : SpdyFramer) : (pending f <= 5)%nat.
Proof.
  unfold pending.
  destruct (state_ f); repeat match goal with
  | |- context [if ?b then _ else _] => destruct b
  end; lia.
Qed.

(** A framer that can take a turn without a byte takes the same turn
    whatever the input, and leaves the input alone. *)
Lemma step_without_input (f : SpdyFramer) :
  (0 < pending f)%nat ->
  exists f' c,
    (forall d, step f d = Some (f', d, c)) /\ (pending f' < pending f)%nat.
Proof.
  intro Hp.
  destruct f as [st ec rp rcp buf cap].
  unfold ProcessInput_step. cbn [state_].
  destruct st; unfold pending in Hp |- *;
    cbn [state_ remaining_payload_ remaining_control_payload_] in Hp |- *;
    try lia.
  - eexists _, _. split; [reflexivity|]. cbn. lia.
  - eexists _, _. split; [reflexivity|]. cbn. lia.
  - unfold current_frame_len_, kFrameHeaderSize in *.
    cbn [current_frame_buffer_] in *.
    destruct (N.of_nat (List.length buf) <? 8) eqn:Hlen; [lia|].
    assert (H0 : 8 - N.of_nat (List.length buf) = 0)
      by (apply N.ltb_ge in Hlen; lia).
    assert (Hstep : forall d,
      ProcessCommonHeader
        {| state_ := SPDY_READING_COMMON_HEADER; error_code_ := ec;
           remaining_payload_ := rp; remaining_control_payload_ := rcp;
           current_frame_buffer_ := buf; current_frame_capacity_ := cap |} d
      = ({| state_ := if is_control_frame buf
                      then SPDY_INTERPRET_CONTROL_FRAME_COMMON_HEADER
                      else SPDY_FORWARD_STREAM_FRAME;
            error_code_ := ec;
            remaining_payload_ := length buf;
            remaining_control_payload_ := rcp;
            current_frame_buffer_ := buf;
            current_frame_capacity_ := cap |}, d, [])).
    { intro d. unfold ProcessCommonHeader, current_frame_len_,
        kFrameHeaderSize.
      cbn [current_frame_buffer_].
      rewrite H0, take_chunk_zero.
      unfold CHANGE_STATE, set_remaining_payload, set_buffer.
      cbn [state_ error_code_ remaining_payload_
           remaining_control_payload_
           current_frame_buffer_ current_frame_capacity_].
      rewrite app_nil_r, Hlen.
      now destruct (is_control_frame buf). }
    eexists _, _. split; [intro d; now rewrite Hstep|].
    cbn [state_ remaining_payload_].
    destruct (is_control_frame buf); [lia|].
    destruct (length buf =? 0); lia.
  - destruct (ProcessControlFrameHeader control_frame_cap_bytes
                {| state_ := SPDY_INTERPRET_CONTROL_FRAME_COMMON_HEADER;
                   error_code_ := ec; remaining_payload_ := rp;
                   remaining_control_payload_ := rcp;
                   current_frame_buffer_ := buf;
                   current_frame_capacity_ := cap |}) as [f' c] eqn:H.
    exists f', c. split; [reflexivity|].
    unfold ProcessControlFrameHeader, set_error in H.
    cbn [current_frame_buffer_] in H.
    repeat match type of H with
    | context [if ?b then _ else _] => destruct b
    end; injection H as <- <-; cbn;
      repeat match goal with
      | |- context [if ?b then _ else _] => destruct b
      end; lia.
  - destruct (rcp =? 0) eqn:Hr; [|lia]. apply N.eqb_eq in Hr. subst rcp.
    eexists _, _. split.
    + intro d. unfold ProcessControlFramePayload.
      cbn [remaining_control_payload_]. rewrite take_chunk_zero.
      reflexivity.
    + cbn. lia.
  - destruct (rp =? 0) eqn:Hr; [|lia]. apply N.eqb_eq in Hr. subst rp.
    eexists _, _. split.
    + intro d. unfold ProcessDataFramePayload.
      cbn [remaining_payload_]. rewrite take_chunk_zero.
      reflexivity.
    + cbn. lia.
  - destruct (rp =? 0) eqn:Hr; [|lia]. apply N.eqb_eq in Hr. subst rp.
    eexists _, _. split.
    + intro d. unfold ProcessDataFramePayload.
      cbn [remaining_payload_]. rewrite take_chunk_zero.
      reflexivity.
    + cbn. lia.
Qed.

(** A framer that cannot take a turn without a byte either has stopped
    for good or wants input. *)
Lemma pending_zero (f : SpdyFramer) :
  pending f = 0%nat ->
  (forall d, step f d = None) \/ wants_input f = true.
Proof.
  unfold pending, wants_input, ProcessInput_step.
  destruct (state_ f); try discriminate; auto;
    repeat match goal with
           | |- context [if ?b then _ else _] => destruct b
           end;
    try discriminate; auto.
Qed.

Lemma pending_wants_input (f : SpdyFramer) :
  (1 < pending f)%nat -> wants_input f = false.
Proof.
  unfold pending, wants_input.
  destruct (state_ f); try lia; auto.
  - destruct (current_frame_len_ f <? kFrameHeaderSize); [lia|reflexivity].
  - destruct (remaining_control_payload_ f =? 0); [reflexivity|lia].
  - destruct (remaining_payload_ f =? 0); [reflexivity|lia].
  - destruct (remaining_payload_ f =? 0); [reflexivity|lia].
Qed.

(** With a byte at hand, a framer that wants input consumes at least
    one. *)
Lemma step_consumes (f f' : SpdyFramer) (b : byte) (data data' : bytes)
  (calls : list VisitorCall) :
  pending f = 0%nat ->
  step f (b :: data) = Some (f', data', calls) ->
  (List.length data' <= List.length data)%nat.
Proof.
  intros Hp Hstep.
  unfold ProcessInput_step in Hstep. unfold pending in Hp.
  destruct (state_ f) eqn:Hst; try discriminate.
  - unfold ProcessCommonHeader in Hstep.
    destruct (current_frame_len_ f <? kFrameHeaderSize) eqn:Hlen;
      [|discriminate].
    apply N.ltb_lt in Hlen.
    rewrite take_chunk_cons in Hstep by (unfold kFrameHeaderSize in *; lia).
    destruct (take_chunk _ data) as [[c r] n'] eqn:Hc.
    apply take_chunk_length in Hc. destruct Hc as [-> _].
    repeat match type of Hstep with
    | context [if ?b then _ else _] => destruct b
    end; injection Hstep as <- <- <-; rewrite length_app; lia.
  - unfold ProcessControlFramePayload in Hstep.
    destruct (remaining_control_payload_ f =? 0) eqn:Hrem; [discriminate|].
    apply N.eqb_neq in Hrem.
    rewrite take_chunk_cons in Hstep by lia.
    destruct (take_chunk _ data) as [[c r] n'] eqn:Hc.
    apply take_chunk_length in Hc. destruct Hc as [-> _].
    destruct (n' =? 0); injection Hstep as <- <- <-;
      rewrite length_app; lia.
  - unfold ProcessDataFramePayload in Hstep.
    destruct (remaining_payload_ f =? 0) eqn:Hrem; [discriminate|].
    apply N.eqb_neq in Hrem.
    rewrite take_chunk_cons in Hstep by lia.
    destruct (take_chunk _ data) as [[c r] n'] eqn:Hc.
    apply take_chunk_length in Hc. destruct Hc as [-> _].
    destruct (n' =? 0); injection Hstep as <- <- <-;
      rewrite length_app; lia.
  - unfold ProcessDataFramePayload in Hstep.
    destruct (remaining_payload_ f =? 0) eqn:Hrem; [discriminate|].
    apply N.eqb_neq in Hrem.
    rewrite take_chunk_cons in Hstep by lia.
    destruct (take_chunk _ data) as [[c r] n'] eqn:Hc.
    apply take_chunk_length in Hc. destruct Hc as [-> _].
    destruct (n' =? 0); injection Hstep as <- <- <-;
      rewrite length_app; lia.
Qed.

(** Every turn the loop takes brings it closer to its end. *)
Lemma step_measure (f f' : SpdyFramer) (data data' : bytes)
  (calls : list VisitorCall) :
  data <> [] \/ wants_input f = false ->
  step f data = Some (f', data', calls) ->
  (measure f' data' < measure f data)%nat.
Proof.
  intros Hgo Hstep. unfold measure.
  destruct (Nat.eq_dec (pending f) 0) as [H0|H0].
  - destruct (pending_zero f H0) as [Hnone|Hw];
      [rewrite Hnone in Hstep; discriminate|].
    destruct Hgo as [Hne|Hgo]; [|congruence].
    destruct data as [|b data]; [congruence|].
    pose proof (@step_consumes f f' b data data' calls H0 Hstep) as Hlen.
    pose proof (pending_le f'). cbn [List.length]. lia.
  - destruct (@step_without_input f) as (g & c & Hg & Hlt); [lia|].
    rewrite Hg in Hstep. injection Hstep as <- <- <-. lia.
Qed.

(** Whether the loop stops before taking a turn. *)
Lemma loop_S (fuel : nat) (f : SpdyFramer) (data : bytes) :
  loop (S fuel) f data =
  if match data with [] => wants_input f | _ :: _ => false end
  then (f, data, [])
  else
    match step f data with
    | None => (f, data, [])
    | Some (f', data', calls) =>
        let '(f'', rest, calls') := loop fuel f' data' in
        (f'', rest, (calls ++ calls')%list)
    end.
Proof. reflexivity. Qed.

Lemma waits_or_goes (f : SpdyFramer) (data : bytes) :
  match data with [] => wants_input f | _ :: _ => false end = false ->
  data <> [] \/ wants_input f = false.
Proof. destruct data; [now right|left; discriminate]. Qed.

(** Fuel beyond the measure changes nothing. *)
Lemma loop_fuel (fuel1 fuel2 : nat) (f : SpdyFramer) (data : bytes) :
  (measure f data < fuel1)%nat -> (measure f data < fuel2)%nat ->
  loop fuel1 f data = loop fuel2 f data.
Proof.
  revert fuel2 f data.
  induction fuel1 as [|fuel1 IH]; intros fuel2 f data H1 H2; [lia|].
  destruct fuel2 as [|fuel2]; [lia|].
  rewrite !loop_S.
  destruct (match data with [] => wants_input f | _ :: _ => false end)
    eqn:Hw; [reflexivity|].
  destruct (step f data) as [[[f' data'] calls]|] eqn:Hstep; [|reflexivity].
  apply step_measure in Hstep; [|now apply waits_or_goes].
  rewrite (IH fuel2 f' data') by lia. reflexivity.
Qed.

Lemma measure_lt_fuel (f : SpdyFramer) (data : bytes) :
  (measure f data < fuel_for data)%nat.
Proof. unfold measure, fuel_for. pose proof (pending_le f). lia. Qed.

Lemma fuel_for_S (data : bytes) :
  fuel_for data = S (6 * List.length data + 5).
Proof. unfold fuel_for. lia. Qed.

(** The loop waits when the input is used up and the framer wants
    more. *)
Lemma run_wait (f : SpdyFramer) :
  wants_input f = true -> run f [] = (f, [], []).
Proof.
  intro H. unfold Framer.run. rewrite fuel_for_S, loop_S. now rewrite H.
Qed.

Lemma run_stop (f : SpdyFramer) (data : bytes) :
  step f data = None -> run f data = (f, data, []).
Proof.
  intro H. unfold Framer.run. rewrite fuel_for_S, loop_S.
  rewrite H. now destruct (match data with [] => _ | _ => _ end).
Qed.

(** One turn of the loop, then the loop again. *)
Lemma run_step (f f' : SpdyFramer) (data data' : bytes)
  (calls : list VisitorCall) :
  data <> [] \/ wants_input f = false ->
  step f data = Some (f', data', calls) ->
  run f data =
  let '(f'', rest, calls') := run f' data' in (f'', rest, (calls ++ calls')%list).
Proof.
  intros Hgo Hstep. unfold Framer.run at 1. rewrite fuel_for_S, loop_S.
  assert (Hw : match data with [] => wants_input f | _ :: _ => false end
               = false).
  { destruct data; [|reflexivity]. destruct Hgo; congruence. }
  rewrite Hw, Hstep.
  pose proof Hstep as Hm. apply step_measure in Hm; [|exact Hgo].
  pose proof (measure_lt_fuel f data) as Hf.
  rewrite fuel_for_S in Hf.
  rewrite (@loop_fuel _ (fuel_for data') f' data')
    by (try apply measure_lt_fuel; lia).
  reflexivity.
Qed.

(** [ProcessInput] in terms of [run]. *)
Lemma ProcessInput_run (f : SpdyFramer) (data : bytes) :
  ProcessInput control_frame_cap_bytes DATA_FLAG_FIN f data =
  let '(f', rest, calls) := run f data in
  ((List.length data - List.length rest)%nat, f', calls).
Proof. reflexivity. Qed.

(** In the error state [ProcessInput] consumes nothing, calls nothing
    and leaves the framer as it is. *)
Lemma ProcessInput_in_error (f : SpdyFramer) (data : bytes) :
  HasError f = true ->
  ProcessInput control_frame_cap_bytes DATA_FLAG_FIN f data = (0%nat, f, []).
Proof.
  intro H. rewrite ProcessInput_run, run_stop.
  - now rewrite Nat.sub_diag.
  - unfold ProcessInput_step. unfold HasError in H.
    now destruct (state_ f).
Qed.

Lemma feed_all_in_error (f : SpdyFramer) (inputs : list bytes) :
  HasError f = true ->
  feed_all control_frame_cap_bytes DATA_FLAG_FIN f inputs =
  (map (fun _ => 0%nat) inputs, f, []).
Proof.
  intro H. induction inputs as [|d inputs IH]; [reflexivity|].
  cbn [feed_all map]. rewrite ProcessInput_in_error by exact H.
  now rewrite IH.
Qed.

(** C2: once the framer is in the error state ([HasError()] true,
    whatever the error code), every later [ProcessInput] call, on any
    input, returns 0 consumed bytes and makes no visitor call; the
    framer stays in the error state and [error_code()] keeps returning
    the same code. *)
Theorem ProcessInput_error_latched (f : SpdyFramer) (inputs : list bytes) :
  HasError f = true ->
  let '(consumed, f', calls) :=
    feed_all control_frame_cap_bytes DATA_FLAG_FIN f inputs in
  Forall (fun n => n = 0%nat) consumed /\
  List.length consumed = List.length inputs /\
  calls = [] /\
  HasError f' = true /\
  error_code f' = error_code f.
Proof.
  intro H. rewrite feed_all_in_error by exact H.
  repeat split; auto.
  - apply Forall_forall. intros n Hin.
    apply in_map_iff in Hin. now destruct Hin as [_ [<- _]].
  - apply length_map.
Qed.

Lemma take_chunk_exact (n : N) (h rest : bytes) :
  N.of_nat (List.length h) = n -> take_chunk n (h ++ rest) = (h, rest, 0).
Proof.
  intro H. unfold take_chunk. rewrite length_app.
  replace (N.min n (N.of_nat (List.length h + List.length rest))) with n
    by lia.
  replace (N.to_nat n) with (List.length h + 0)%nat by lia.
  rewrite firstn_app_2, skipn_app, Nat.add_0_r, skipn_all, Nat.sub_diag.
  cbn [firstn skipn app]. rewrite app_nil_r. f_equal. lia.
Qed.

(** The framer once the eight bytes [h] of a common header are in. *)
Lemma run_common_header (f : SpdyFramer) (h rest : bytes) :
  at_frame_start f = true ->
  List.length h = 8%nat ->
  run f (h ++ rest) =
  run {| state_ := if is_control_frame h
                   then SPDY_INTERPRET_CONTROL_FRAME_COMMON_HEADER
                   else SPDY_FORWARD_STREAM_FRAME;
         error_code_ := if match state_ f with
                           | SPDY_READING_COMMON_HEADER => true
                           | _ => false
                           end
                        then error_code_ f else SPDY_NO_ERROR;
         remaining_payload_ := length h;
         remaining_control_payload_ :=
           if match state_ f with
              | SPDY_READING_COMMON_HEADER => true
              | _ => false
              end
           then remaining_control_payload_ f else 0;
         current_frame_buffer_ := h;
         current_frame_capacity_ := current_frame_capacity_ f |} rest.
Proof.
  intros Hstart Hlen.
  assert (Hne : (h ++ rest)%list <> []) by (destruct h; discriminate).
  assert (Hread : forall g,
            state_ g = SPDY_READING_COMMON_HEADER ->
            current_frame_buffer_ g = [] ->
            step g (h ++ rest) =
            Some ({| state_ := if is_control_frame h
                               then SPDY_INTERPRET_CONTROL_FRAME_COMMON_HEADER
                               else SPDY_FORWARD_STREAM_FRAME;
                     error_code_ := error_code_ g;
                     remaining_payload_ := length h;
                     remaining_control_payload_ :=
                       remaining_control_payload_ g;
                     current_frame_buffer_ := h;
                     current_frame_capacity_ := current_frame_capacity_ g |},
                  rest, [])).
  { intros g Hst Hbuf. unfold ProcessInput_step. rewrite Hst.
    unfold ProcessCommonHeader, current_frame_len_. rewrite Hbuf.
    cbn [List.length N.of_nat]. rewrite N.sub_0_r.
    rewrite take_chunk_exact by (unfold kFrameHeaderSize; lia).
    cbn [set_buffer current_frame_buffer_ app]. rewrite Hlen.
    change (N.of_nat 8 <? kFrameHeaderSize) with false. cbv iota.
    unfold CHANGE_STATE, set_remaining_payload, set_buffer.
    cbn [state_ error_code_ remaining_payload_ remaining_control_payload_
         current_frame_buffer_ current_frame_capacity_ app].
    now destruct (is_control_frame h). }
  unfold at_frame_start in Hstart.
  destruct (state_ f) eqn:Hst; try discriminate.
  - erewrite run_step;
      [|left; exact Hne|unfold ProcessInput_step; rewrite Hst; reflexivity].
    erewrite run_step; [|left; exact Hne|apply Hread; reflexivity].
    cbn -[Framer.run].
    match goal with
    | |- context [run ?g rest] => destruct (run g rest) as [[? ?] ?]
    end; reflexivity.
  - erewrite run_step;
      [|left; exact Hne|unfold ProcessInput_step; rewrite Hst; reflexivity].
    erewrite run_step; [|left; exact Hne|apply Hread; reflexivity].
    cbn -[Framer.run].
    match goal with
    | |- context [run ?g rest] => destruct (run g rest) as [[? ?] ?]
    end; reflexivity.
  - destruct (current_frame_buffer_ f) eqn:Hbuf; [|discriminate].
    erewrite run_step; [|left; exact Hne|now apply Hread].
    cbn -[Framer.run].
    match goal with
    | |- context [run ?g rest] => destruct (run g rest) as [[? ?] ?]
    end; reflexivity.
Qed.

(** What [ProcessInput] does with a control frame header that
    [ProcessControlFrameHeader] rejects with [error]: it consumes the
    eight header bytes and no more, calls [OnError] once and nothing
    else, and leaves the framer in the error state with that code. *)
Lemma ProcessInput_header_rejected (f : SpdyFramer) (h rest : bytes)
  (error : SpdyError) :
  at_frame_start f = true ->
  List.length h = 8%nat ->
  is_control_frame h = true ->
  (forall g, current_frame_buffer_ g = h ->
             ProcessControlFrameHeader control_frame_cap_bytes g =
             set_error g error) ->
  exists f',
    ProcessInput control_frame_cap_bytes DATA_FLAG_FIN f (h ++ rest) =
    (8%nat, f', [OnError error]) /\
    HasError f' = true /\ error_code f' = error.
Proof.
  intros Hstart Hlen Hctl Hrej.
  rewrite ProcessInput_run, run_common_header by assumption.
  rewrite Hctl.
  match goal with |- context [run ?g rest] => set (g0 := g) end.
  destruct (set_error g0 error) as [f' calls] eqn:Herr.
  erewrite (@run_step g0 f' rest rest calls); [|right; reflexivity|].
  2:{ unfold ProcessInput_step. cbn [state_ g0].
      rewrite Hrej by reflexivity. now rewrite Herr. }
  unfold set_error in Herr. injection Herr as <- <-.
  rewrite run_stop by reflexivity.
  eexists. split.
  - rewrite length_app, Hlen. cbn [app]. f_equal. f_equal. lia.
  - split; reflexivity.
Qed.


(** *** One byte per call against one call *)

(** After a call the framer waits: a call without input changes
    nothing. *)
Lemma run_settled (f : SpdyFramer) (data : bytes) :
  run (fst (fst (run f data))) [] = (fst (fst (run f data)), [], []).
Proof.
  remember (measure f data) as n eqn:Hn. revert f data Hn.
  induction n as [n IH] using lt_wf_ind. intros f data Hn.
  destruct (match data with [] => wants_input f | _ :: _ => false end)
    eqn:Hw.
  - destruct data as [|b data]; [|discriminate].
    rewrite (run_wait f Hw). cbn [fst]. now apply run_wait.
  - destruct (step f data) as [[[f' data'] calls]|] eqn:Hstep.
    + pose proof Hstep as Hm.
      apply step_measure in Hm; [|now apply waits_or_goes].
      rewrite (@run_step f f' data data' calls)
        by (try apply waits_or_goes; assumption).
      specialize (IH (measure f' data') ltac:(lia) f' data' eq_refl).
      destruct (run f' data') as [[f'' r] calls']. exact IH.
    + rewrite (run_stop f data Hstep). cbn [fst].
      apply run_stop.
      unfold ProcessInput_step in *.
      destruct (state_ f); try discriminate; try reflexivity.
      destruct (ProcessControlFrameHeader _ _); discriminate.
Qed.

(** What the loop does on an input it would also do, for the part that
    needs no input, in a call of its own before. *)
Lemma run_idle_first (f : SpdyFramer) (rest : bytes) :
  fst (fst (run f rest)) = fst (fst (run (fst (fst (run f []))) rest)) /\
  snd (run f rest) =
  (snd (run f []) ++ snd (run (fst (fst (run f []))) rest))%list.
Proof.
  remember (pending f) as n eqn:Hn. revert f Hn.
  induction n as [n IH] using lt_wf_ind. intros f Hn.
  destruct (wants_input f) eqn:Hw.
  { rewrite (run_wait f Hw). cbn [fst snd app]. now split. }
  destruct (Nat.eq_dec (pending f) 0) as [H0|H0].
  { destruct (pending_zero f H0) as [Hnone|Hw']; [|congruence].
    rewrite (run_stop f rest (Hnone _)), (run_stop f [] (Hnone _)).
    cbn [fst snd app].
    rewrite (run_stop f rest (Hnone _)). now split. }
  destruct (@step_without_input f) as (g & c & Hg & Hlt); [lia|].
  rewrite (@run_step f g rest rest c) by (auto || apply Hg).
  rewrite (@run_step f g [] [] c) by (auto || apply Hg).
  specialize (IH (pending g) ltac:(lia) g eq_refl).
  destruct (run g rest) as [[f3 r3] c3].
  destruct (run g []) as [[f1 r1] c1].
  cbn [fst snd] in *. destruct IH as [IH1 IH2].
  split; [exact IH1|]. now rewrite IH2, app_assoc.
Qed.

Lemma peel_nil (f : SpdyFramer) (b : byte) : peel_ok f b [].
Proof.
  unfold Framer.peel_ok. rewrite run_settled. cbn [fst snd].
  now rewrite app_nil_r.
Qed.

Lemma peel_stop (f : SpdyFramer) (b : byte) (rest : bytes) :
  (forall d, step f d = None) -> peel_ok f b rest.
Proof.
  intro H. unfold Framer.peel_ok.
  rewrite (@run_stop f (b :: rest) (H _)), (@run_stop f [b] (H _)).
  cbn [fst snd]. rewrite (@run_stop f rest (H _)). now cbn.
Qed.

Lemma peel_zero (f f' : SpdyFramer) (c : list VisitorCall)
  (b : byte) (rest : bytes) :
  (forall d, step f d = Some (f', d, c)) ->
  peel_ok f' b rest -> peel_ok f b rest.
Proof.
  intros H [H1 H2]. unfold Framer.peel_ok.
  rewrite (@run_step f f' (b :: rest) (b :: rest) c)
    by (try (left; discriminate); apply H).
  rewrite (@run_step f f' [b] [b] c) by (try (left; discriminate); apply H).
  destruct (run f' (b :: rest)) as [[f3 r3] c3].
  destruct (run f' [b]) as [[f1 r1] c1].
  cbn [fst snd] in *. split; [exact H1|].
  now rewrite H2, !app_assoc.
Qed.

(** The byte completes what the framer was gathering. *)
Lemma peel_one (f X : SpdyFramer) (c : list VisitorCall)
  (b : byte) (rest : bytes) :
  (forall d, step f (b :: d) = Some (X, d, c)) ->
  peel_ok f b rest.
Proof.
  intro H. unfold Framer.peel_ok.
  rewrite (@run_step f X (b :: rest) rest c)
    by (try (left; discriminate); apply H).
  rewrite (@run_step f X [b] [] c) by (try (left; discriminate); apply H).
  destruct (run_idle_first X rest) as [H1 H2].
  destruct (run X rest) as [[f3 r3] c3].
  destruct (run X []) as [[f1 r1] c1].
  cbn [fst snd] in *. split; [exact H1|].
  now rewrite H2, !app_assoc.
Qed.

(** The byte leaves the framer gathering, and the rest goes on from
    there. *)
Lemma peel_two (f f1 X : SpdyFramer) (cB : list VisitorCall)
  (b : byte) (rest r : bytes) :
  rest <> [] ->
  step f (b :: rest) = Some (X, r, cB) ->
  step f [b] = Some (f1, [], []) ->
  wants_input f1 = true ->
  step f1 rest = Some (X, r, cB) ->
  peel_ok f b rest.
Proof.
  intros Hrest HA H1 Hw HB. unfold Framer.peel_ok.
  rewrite (@run_step f X (b :: rest) r cB)
    by (try (left; discriminate); exact HA).
  rewrite (@run_step f f1 [b] [] []) by (try (left; discriminate); exact H1).
  rewrite (run_wait f1 Hw). cbn [fst snd app].
  rewrite (@run_step f1 X rest r cB) by (try (left; exact Hrest); exact HB).
  destruct (run X r) as [[f3 r3] c3]. cbn [fst snd]. now split.
Qed.

(** A framer one byte further into the common header. *)
Lemma peel_common_header (f : SpdyFramer) (b : byte) (rest : bytes) :
  state_ f = SPDY_READING_COMMON_HEADER ->
  current_frame_len_ f < kFrameHeaderSize ->
  rest <> [] ->
  peel_ok f b rest.
Proof.
  intros Hst Hlen Hrest.
  destruct f as [st ec rp rcp buf cap]. cbn in Hst. subst st.
  unfold current_frame_len_, kFrameHeaderSize in Hlen. cbn in Hlen.
  destruct (N.eq_dec (N.of_nat (List.length buf)) 7) as [H7|H7].
  - (* the header is complete with [b] *)
    assert (Hlen8 : (N.of_nat (List.length (buf ++ [b])) <? 8) = false).
    { rewrite length_app. cbn [List.length]. apply N.ltb_ge. lia. }
    assert (Hstep : forall d,
      step {| state_ := SPDY_READING_COMMON_HEADER; error_code_ := ec;
              remaining_payload_ := rp; remaining_control_payload_ := rcp;
              current_frame_buffer_ := buf;
              current_frame_capacity_ := cap |} (b :: d) =
      Some ({| state_ := if is_control_frame (buf ++ [b])
                         then SPDY_INTERPRET_CONTROL_FRAME_COMMON_HEADER
                         else SPDY_FORWARD_STREAM_FRAME;
               error_code_ := ec;
               remaining_payload_ := length (buf ++ [b]);
               remaining_control_payload_ := rcp;
               current_frame_buffer_ := (buf ++ [b])%list;
               current_frame_capacity_ := cap |}, d, [])).
    { intro d. unfold ProcessInput_step, ProcessCommonHeader.
      unfold current_frame_len_, kFrameHeaderSize.
      cbn [state_ current_frame_buffer_].
      rewrite take_chunk_cons by lia.
      replace (8 - N.of_nat (List.length buf) - 1) with 0 by lia.
      rewrite take_chunk_zero.
      unfold CHANGE_STATE, set_remaining_payload, set_buffer.
      cbn [state_ error_code_ remaining_payload_ remaining_control_payload_
           current_frame_buffer_ current_frame_capacity_].
      rewrite Hlen8. now destruct (is_control_frame (buf ++ [b])). }
    eapply peel_one; apply Hstep.
  - (* more header bytes are needed after [b] *)
    assert (Hlen8 : (N.of_nat (List.length (buf ++ [b])) <? 8) = true).
    { rewrite length_app. cbn [List.length]. apply N.ltb_lt. lia. }
    set (f1 := {| state_ := SPDY_READING_COMMON_HEADER; error_code_ := ec;
                  remaining_payload_ := rp;
                  remaining_control_payload_ := rcp;
                  current_frame_buffer_ := (buf ++ [b])%list;
                  current_frame_capacity_ := cap |}).
    match goal with |- peel_ok ?g _ _ => set (f0 := g) end.
    assert (H1 : step f0 [b] = Some (f1, [], [])).
    { unfold ProcessInput_step, ProcessCommonHeader.
      unfold current_frame_len_, kFrameHeaderSize.
      cbn [state_ current_frame_buffer_ f0].
      rewrite take_chunk_cons, take_chunk_nil by lia.
      unfold set_buffer.
      cbn [state_ error_code_ remaining_payload_ remaining_control_payload_
           current_frame_buffer_ current_frame_capacity_].
      now rewrite Hlen8. }
    assert (HAB : step f0 (b :: rest) = step f1 rest).
    { unfold ProcessInput_step, ProcessCommonHeader.
      unfold current_frame_len_, kFrameHeaderSize.
      cbn [state_ current_frame_buffer_ f0 f1].
      rewrite take_chunk_cons by lia.
      replace (8 - N.of_nat (List.length (buf ++ [b])))
        with (8 - N.of_nat (List.length buf) - 1)
        by (rewrite length_app; cbn [List.length]; lia).
      destruct (take_chunk _ rest) as [[c r] n'].
      unfold set_buffer.
      cbn [state_ error_code_ remaining_payload_ remaining_control_payload_
           current_frame_buffer_ current_frame_capacity_].
      rewrite <- app_assoc. reflexivity. }
    assert (Hw : wants_input f1 = true) by exact Hlen8.
    destruct (step f1 rest) as [[[X r] cB]|] eqn:HB.
    + eapply peel_two; [exact Hrest|exact HAB|exact H1|exact Hw|exact HB].
    + unfold ProcessInput_step in HB. cbn [state_ f1] in HB. discriminate.
Qed.

(** A framer one byte further into a control frame's payload. *)
Lemma peel_control_payload (f : SpdyFramer) (b : byte) (rest : bytes) :
  state_ f = SPDY_CONTROL_FRAME_PAYLOAD ->
  0 < remaining_control_payload_ f ->
  rest <> [] ->
  peel_ok f b rest.
Proof.
  intros Hst Hrem Hrest.
  destruct f as [st ec rp rcp buf cap]. cbn in Hst, Hrem. subst st.
  match goal with |- peel_ok ?g _ _ => set (f0 := g) end.
  destruct (N.eq_dec rcp 1) as [H1|H1].
  - (* the payload is complete with [b] *)
    assert (Hstep : forall d,
      step f0 (b :: d) =
      Some ({| state_ := SPDY_AUTO_RESET; error_code_ := ec;
               remaining_payload_ := rp; remaining_control_payload_ := 0;
               current_frame_buffer_ := (buf ++ [b])%list;
               current_frame_capacity_ := cap |}, d,
            [OnControl (buf ++ [b])])).
    { intro d. unfold ProcessInput_step, ProcessControlFramePayload.
      cbn [state_ remaining_control_payload_ f0].
      rewrite take_chunk_cons by lia.
      replace (rcp - 1) with 0 by lia. rewrite take_chunk_zero.
      reflexivity. }
    eapply peel_one; apply Hstep.
  - set (f1 := {| state_ := SPDY_CONTROL_FRAME_PAYLOAD; error_code_ := ec;
                  remaining_payload_ := rp;
                  remaining_control_payload_ := rcp - 1;
                  current_frame_buffer_ := (buf ++ [b])%list;
                  current_frame_capacity_ := cap |}).
    assert (Hne : (rcp - 1 =? 0) = false) by (apply N.eqb_neq; lia).
    assert (Hb : step f0 [b] = Some (f1, [], [])).
    { unfold ProcessInput_step, ProcessControlFramePayload.
      cbn [state_ remaining_control_payload_ f0].
      rewrite take_chunk_cons, take_chunk_nil by lia.
      unfold set_buffer, set_remaining_control_payload.
      cbn [state_ error_code_ remaining_payload_ remaining_control_payload_
           current_frame_buffer_ current_frame_capacity_].
      now rewrite Hne. }
    assert (HAB : step f0 (b :: rest) = step f1 rest).
    { unfold ProcessInput_step, ProcessControlFramePayload.
      cbn [state_ remaining_control_payload_ current_frame_buffer_ f0 f1].
      rewrite take_chunk_cons by lia.
      destruct (take_chunk _ rest) as [[c r] n'].
      unfold CHANGE_STATE, set_buffer, set_remaining_control_payload.
      cbn [state_ error_code_ remaining_payload_ remaining_control_payload_
           current_frame_buffer_ current_frame_capacity_].
      rewrite <- app_assoc. reflexivity. }
    assert (Hw : wants_input f1 = true)
      by (unfold wants_input; cbn [state_ remaining_control_payload_ f1];
          now rewrite Hne).
    destruct (step f1 rest) as [[[X r] cB]|] eqn:HB.
    + eapply peel_two; [exact Hrest|exact HAB|exact Hb|exact Hw|exact HB].
    + unfold ProcessInput_step in HB. cbn [state_ f1] in HB. discriminate.
Qed.

(** A framer one byte further into a data frame's payload. *)
Lemma peel_data_payload (f : SpdyFramer) (b : byte) (rest : bytes) :
  state_ f = SPDY_FORWARD_STREAM_FRAME \/
  state_ f = SPDY_IGNORE_REMAINING_PAYLOAD ->
  0 < remaining_payload_ f ->
  rest <> [] ->
  peel_ok f b rest.
Proof.
  intros Hst Hrem Hrest.
  destruct f as [st ec rp rcp buf cap]. cbn in Hst, Hrem.
  match goal with |- peel_ok ?g _ _ => set (f0 := g) end.
  destruct (N.eq_dec rp 1) as [H1|H1].
  - (* the payload is complete with [b] *)
    assert (Hstep : forall d,
      step f0 (b :: d) =
      Some (fst (fst (ProcessDataFramePayload DATA_FLAG_FIN f0 [b])), d,
            snd (ProcessDataFramePayload DATA_FLAG_FIN f0 [b]))).
    { intro d. unfold ProcessInput_step.
      cbn [state_ f0].
      assert (HP : ProcessDataFramePayload DATA_FLAG_FIN f0 (b :: d) =
                   (fst (fst (ProcessDataFramePayload DATA_FLAG_FIN f0 [b])),
                    d, snd (ProcessDataFramePayload DATA_FLAG_FIN f0 [b]))).
      { unfold ProcessDataFramePayload.
        cbn [state_ remaining_payload_ f0].
        rewrite !take_chunk_cons by lia.
        replace (rp - 1) with 0 by lia.
        rewrite !take_chunk_zero. reflexivity. }
      destruct Hst as [-> | ->]; now rewrite HP. }
    eapply peel_one; apply Hstep.
  - set (f1 := {| state_ := st; error_code_ := ec;
                  remaining_payload_ := rp - 1;
                  remaining_control_payload_ := rcp;
                  current_frame_buffer_ := (buf ++ [b])%list;
                  current_frame_capacity_ := cap |}).
    assert (Hne : (rp - 1 =? 0) = false) by (apply N.eqb_neq; lia).
    assert (HPb : ProcessDataFramePayload DATA_FLAG_FIN f0 [b] = (f1, [], [])).
    { unfold ProcessDataFramePayload.
      cbn [state_ remaining_payload_ current_frame_buffer_ f0].
      rewrite take_chunk_cons, take_chunk_nil by lia.
      unfold set_remaining_payload, set_buffer.
      cbn [state_ error_code_ remaining_payload_
           remaining_control_payload_
           current_frame_buffer_ current_frame_capacity_].
      now rewrite Hne. }
    assert (HPAB : ProcessDataFramePayload DATA_FLAG_FIN f0 (b :: rest) =
                   ProcessDataFramePayload DATA_FLAG_FIN f1 rest).
    { unfold ProcessDataFramePayload.
      cbn [state_ remaining_payload_ current_frame_buffer_ f0 f1].
      rewrite take_chunk_cons by lia.
      destruct (take_chunk _ rest) as [[c r] n'].
      unfold CHANGE_STATE, set_buffer, set_remaining_payload.
      cbn [state_ error_code_ remaining_payload_ remaining_control_payload_
           current_frame_buffer_ current_frame_capacity_].
      rewrite <- app_assoc. reflexivity. }
    assert (Hb : step f0 [b] = Some (f1, [], [])).
    { unfold ProcessInput_step. cbn [state_ f0].
      destruct Hst as [-> | ->]; now rewrite HPb. }
    assert (HAB : step f0 (b :: rest) = step f1 rest).
    { unfold ProcessInput_step. cbn [state_ f0 f1].
      destruct Hst as [-> | ->]; now rewrite HPAB. }
    assert (Hw : wants_input f1 = true).
    { unfold wants_input. cbn [state_ remaining_payload_ f1].
      destruct Hst as [-> | ->]; now rewrite Hne. }
    destruct (step f1 rest) as [[[X r] cB]|] eqn:HB.
    + eapply peel_two; [exact Hrest|exact HAB|exact Hb|exact Hw|exact HB].
    + unfold ProcessInput_step in HB. cbn [state_ f1] in HB.
      destruct Hst as [E | E]; rewrite E in HB; discriminate.
Qed.

(** Feeding the first byte on its own changes nothing. *)
Lemma run_peel (f : SpdyFramer) (b : byte) (rest : bytes) :
  peel_ok f b rest.
Proof.
  remember (pending f) as n eqn:Hn. revert f Hn.
  induction n as [n IH] using lt_wf_ind. intros f Hn.
  destruct rest as [|b2 rest2]; [apply peel_nil|].
  assert (Hrest : b2 :: rest2 <> []) by discriminate.
  destruct (Nat.eq_dec (pending f) 0) as [H0|H0].
  - unfold pending in H0.
    destruct (state_ f) eqn:Hst; try discriminate.
    + apply peel_stop. intro d. unfold ProcessInput_step. now rewrite Hst.
    + apply peel_stop. intro d. unfold ProcessInput_step. now rewrite Hst.
    + apply peel_common_header; try assumption.
      destruct (current_frame_len_ f <? kFrameHeaderSize) eqn:E;
        [now apply N.ltb_lt|discriminate].
    + apply peel_control_payload; try assumption.
      destruct (remaining_control_payload_ f =? 0) eqn:E; [discriminate|].
      apply N.eqb_neq in E. lia.
    + apply peel_data_payload; try assumption; [now right|].
      destruct (remaining_payload_ f =? 0) eqn:E; [discriminate|].
      apply N.eqb_neq in E. lia.
    + apply peel_data_payload; try assumption; [now left|].
      destruct (remaining_payload_ f =? 0) eqn:E; [discriminate|].
      apply N.eqb_neq in E. lia.
  - destruct (@step_without_input f) as (f' & c & Hstep & Hlt); [lia|].
    eapply peel_zero; [exact Hstep|].
    eapply IH; [|reflexivity]. lia.
Qed.

(** Fed one byte per call, a framer that waits for input ends as when
    fed everything in one call, with the same visitor calls. *)
Lemma feed_bytewise_run (f : SpdyFramer) (data : bytes) :
  run f [] = (f, [], []) ->
  fst (feed_bytewise control_frame_cap_bytes DATA_FLAG_FIN f data) =
    fst (fst (run f data)) /\
  snd (feed_bytewise control_frame_cap_bytes DATA_FLAG_FIN f data) =
    snd (run f data).
Proof.
  revert f. induction data as [|b data IH]; intros f Hf.
  - rewrite Hf. now split.
  - cbn [feed_bytewise]. rewrite ProcessInput_run.
    pose proof (run_peel f b data) as [Hs Hc].
    pose proof (run_settled f [b]) as Hset.
    destruct (run f [b]) as [[f1 r1] c1]. cbn [fst snd] in *.
    specialize (IH f1 Hset). destruct IH as [IHf IHc].
    destruct (feed_bytewise _ _ f1 data) as [f2 c2]. cbn [fst snd] in *.
    split; congruence.
Qed.

(** C3: fed to a fresh frame parser one byte per [ProcessInput] call, a
    byte sequence produces exactly the visitor calls, in the same
    order, that it produces when fed in a single call, and leaves the
    parser in the same state.  The same holds from every state in which
    the parser waits for input, so for every parser in use. *)
Theorem feed_bytewise_same_frames (data : bytes) :
  let one_call (f : SpdyFramer) :=
    ProcessInput control_frame_cap_bytes DATA_FLAG_FIN f data in
  let per_byte (f : SpdyFramer) :=
    feed_bytewise control_frame_cap_bytes DATA_FLAG_FIN f data in
  (snd (per_byte new_SpdyFramer) = snd (one_call new_SpdyFramer) /\
   fst (per_byte new_SpdyFramer) = snd (fst (one_call new_SpdyFramer))) /\
  forall f earlier,
    let f1 := snd (fst (ProcessInput control_frame_cap_bytes DATA_FLAG_FIN
                          f earlier)) in
    snd (per_byte f1) = snd (one_call f1) /\
    fst (per_byte f1) = snd (fst (one_call f1)).
Proof.
  cbv zeta. split.
  - destruct (@feed_bytewise_run new_SpdyFramer data eq_refl) as [Hf Hc].
    rewrite ProcessInput_run.
    destruct (run new_SpdyFramer data) as [[f' r] calls].
    cbn [fst snd] in *. now split.
  - intros f earlier.
    rewrite (ProcessInput_run f earlier).
    pose proof (run_settled f earlier) as Hset.
    destruct (run f earlier) as [[f1 r1] c1]. cbn [fst snd] in *.
    destruct (@feed_bytewise_run f1 data Hset) as [Hf Hc].
    rewrite ProcessInput_run.
    destruct (run f1 data) as [[f' r] calls].
    cbn [fst snd] in *. now split.
Qed.

Lemma at_frame_start_waits (f : SpdyFramer) :
  at_frame_start f = true -> run f [] = (f, [], []).
Proof.
  intro H. apply run_wait. unfold at_frame_start in H. unfold wants_input.
  destruct (state_ f); try discriminate; try reflexivity.
  unfold current_frame_len_.
  destruct (current_frame_buffer_ f); [reflexivity|discriminate].
Qed.

(** C4: a control frame whose version field is not 2 makes the framer
    report [SPDY_INVALID_CONTROL_FRAME], and no other error, and enter
    the error state.  It does so in the call that brings the last byte
    of the frame's header, whatever follows the header and whether the
    bytes arrive in one call or one per call; [OnError] is the only
    visitor call. *)
Theorem bad_version_reports_invalid_control_frame
  (f : SpdyFramer) (h rest : bytes) :
  at_frame_start f = true ->
  List.length h = 8%nat ->
  is_control_frame h = true ->
  version h <> 2 ->
  exists f',
    ProcessInput control_frame_cap_bytes DATA_FLAG_FIN f (h ++ rest) =
    (8%nat, f', [OnError SPDY_INVALID_CONTROL_FRAME]) /\
    HasError f' = true /\
    error_code f' = SPDY_INVALID_CONTROL_FRAME /\
    feed_bytewise control_frame_cap_bytes DATA_FLAG_FIN f (h ++ rest) =
    (f', [OnError SPDY_INVALID_CONTROL_FRAME]).
Proof.
  intros Hstart Hlen Hctl Hver.
  assert (Hrej : forall g, current_frame_buffer_ g = h ->
            ProcessControlFrameHeader control_frame_cap_bytes g =
            set_error g SPDY_INVALID_CONTROL_FRAME).
  { intros g Hg. unfold ProcessControlFrameHeader. rewrite Hg.
    apply N.eqb_neq in Hver. unfold kSpdyProtocolVersion.
    now rewrite Hver. }
  destruct (@ProcessInput_header_rejected f h rest
              SPDY_INVALID_CONTROL_FRAME)
    as [f' [Hrun [Herr Hcode]]]; try assumption.
  exists f'. repeat split; try assumption.
  destruct (@feed_bytewise_run f (h ++ rest) (at_frame_start_waits f Hstart))
    as [Hf Hc].
  rewrite ProcessInput_run in Hrun.
  destruct (run f (h ++ rest)) as [[f1 r1] c1]. cbn [fst snd] in *.
  injection Hrun as _ <- <-.
  rewrite (surjective_pairing (feed_bytewise _ _ f (h ++ rest))).
  now rewrite Hf, Hc.
Qed.


(** The length field has 24 bits: under a cap of 16 MiB no control
    frame is too large. *)
Remark length_below_16MiB (h : bytes) : length h < 16777216.
Proof.
  unfold length, byte_at.
  pose proof (Byte.to_N_bounded (nth 5 h x00)).
  pose proof (Byte.to_N_bounded (nth 6 h x00)).
  pose proof (Byte.to_N_bounded (nth 7 h x00)).
  lia.
Qed.

End ParserFacts.

(** *** The parser at concrete inputs *)

Section ParserExamples.

Import Wire Framer.
Local Open Scope N_scope.

Lemma ProcessInput_error_latched_witness :
  let f := snd (fst (ProcessInput 16777216 1 new_SpdyFramer
                       (version_3_header ++ octets [0]))) in
  HasError f = true /\
  let '(consumed, f', calls) :=
    feed_all 16777216 1 f [two_byte_data_frame; octets [128; 2]] in
  Forall (fun n => n = 0%nat) consumed /\
  List.length consumed = 2%nat /\
  calls = [] /\
  HasError f' = true /\
  error_code f' = error_code f.
Proof.
  intro f. split; [reflexivity|].
  apply (@ProcessInput_error_latched 16777216 1 f
           [two_byte_data_frame; octets [128; 2]]).
  reflexivity.
Defined.

Lemma bad_version_reports_invalid_control_frame_witness :
  exists f',
    ProcessInput 16777216 1 new_SpdyFramer version_3_header =
    (8%nat, f', [OnError SPDY_INVALID_CONTROL_FRAME]) /\
    HasError f' = true /\
    error_code f' = SPDY_INVALID_CONTROL_FRAME /\
    feed_bytewise 16777216 1 new_SpdyFramer version_3_header =
    (f', [OnError SPDY_INVALID_CONTROL_FRAME]).
Proof.
  assert (Hver : version version_3_header <> 2)
    by (intro H; vm_compute in H; discriminate H).
  pose proof (@bad_version_reports_invalid_control_frame 16777216 1
                new_SpdyFramer version_3_header []
                eq_refl eq_refl eq_refl Hver) as H.
  rewrite app_nil_r in H. exact H.
Defined.



(** Under the cap the same frame is parsed and handed to [OnControl],
    in the call that brings its last byte. *)
Example five_byte_control_frame_dispatched :
  ProcessInput 5 1 new_SpdyFramer
    (five_byte_control_header ++ octets [1; 2; 3; 4; 5]) =
  (13%nat,
   {| state_ := SPDY_AUTO_RESET; error_code_ := SPDY_NO_ERROR;
      remaining_payload_ := 5; remaining_control_payload_ := 0;
      current_frame_buffer_ :=
        (five_byte_control_header ++ octets [1; 2; 3; 4; 5])%list;
      current_frame_capacity_ := 13 |},
   [OnControl (five_byte_control_header ++ octets [1; 2; 3; 4; 5])]).
Proof. reflexivity. Qed.

(** A data frame without payload and with FIN signals the end of the
    stream, with no bytes, in the call that brings its header; a data
    frame with payload is handed over whole. *)
Example data_frames_emitted :
  snd (ProcessInput 16777216 1 new_SpdyFramer empty_fin_data_frame) =
    [OnStreamFrameData 1 []] /\
  snd (ProcessInput 16777216 1 new_SpdyFramer two_byte_data_frame) =
    [OnStreamFrameData 1 (octets [97; 98]); OnStreamFrameData 1 []] /\
  snd (feed_bytewise 16777216 1 new_SpdyFramer two_byte_data_frame) =
    [OnStreamFrameData 1 (octets [97; 98]); OnStreamFrameData 1 []].
Proof. repeat split. Qed.

(** A control frame of version 3 ends the session with GOAWAY
    PROTOCOL_ERROR. *)
Example version_mismatch_ends_the_session :
  ingress 16777216 1 new_SpdyFramer [version_3_header; two_byte_data_frame] =
  (ProtocolError, [SendGoawayProtocolError; CloseTransport]).
Proof. reflexivity. Qed.

End ParserExamples.

(* ------------------------------------------------------------------ *)
(** ** Header blocks *)

Section WireFacts.

Import Wire.
Local Open Scope N_scope.

Lemma to_N_u8 (n : N) : Byte.to_N (u8 n) = n mod 256.
Proof.
  unfold u8.
  assert (H : n mod 256 < 256) by (apply N.mod_lt; discriminate).
  destruct (Byte.of_N (n mod 256)) as [b|] eqn:E.
  - now apply Byte.to_of_N.
  - apply Byte.of_N_None_iff in E. lia.
Qed.

Lemma to_N_inj (x y : byte) : Byte.to_N x = Byte.to_N y -> x = y.
Proof.
  intro H.
  assert (E : Some x = Some y)
    by (rewrite <- (Byte.of_to_N x), <- (Byte.of_to_N y); now rewrite H).
  now injection E.
Qed.

Lemma read_be16_be16 (n : N) (rest : bytes) :
  n < 65536 -> read_be16 (be16 n ++ rest) = Some (n, rest).
Proof.
  intro H. unfold be16, read_be16. cbn [app].
  rewrite !to_N_u8.
  assert (Hd : n / 256 < 256) by (apply N.Div0.div_lt_upper_bound; lia).
  rewrite (N.mod_small (n / 256)) by exact Hd.
  do 2 f_equal. pose proof (N.div_mod n 256). lia.
Qed.

End WireFacts.

Section HeaderBlockFacts.

Import Wire HeaderBlock.
Local Open Scope N_scope.

Lemma ReadString_WriteString (s rest : bytes) :
  N.of_nat (List.length s) < 65536 ->
  ReadString (WriteString s ++ rest) = Some (s, rest).
Proof.
  intro H. unfold ReadString, WriteString.
  rewrite <- app_assoc, read_be16_be16 by exact H.
  rewrite length_app.
  destruct (N.ltb_spec (N.of_nat (List.length s + List.length rest))
                       (N.of_nat (List.length s))); [lia|].
  rewrite Nat2N.id.
  rewrite firstn_app, Nat.sub_diag, firstn_all. cbn [firstn].
  rewrite app_nil_r.
  rewrite skipn_app, Nat.sub_diag, skipn_all. reflexivity.
Qed.

(** *** The order of [std::string] *)

Lemma string_compare_eq (a b : bytes) :
  string_compare a b = Eq <-> a = b.
Proof.
  revert b. induction a as [|x a IH]; intros [|y b]; cbn;
    try (split; [discriminate|discriminate]); [tauto|].
  destruct (N.compare_spec (Byte.to_N x) (Byte.to_N y)) as [E|E|E].
  - apply to_N_inj in E. subst y. rewrite IH.
    split; [now intros ->|now intros [= ->]].
  - split; [discriminate|]. intros [= -> _]. lia.
  - split; [discriminate|]. intros [= -> _]. lia.
Qed.

Lemma string_compare_antisym (a b : bytes) :
  string_compare b a = CompOpp (string_compare a b).
Proof.
  revert b. induction a as [|x a IH]; intros [|y b]; cbn; try reflexivity.
  rewrite (N.compare_antisym (Byte.to_N x) (Byte.to_N y)).
  destruct (Byte.to_N x ?= Byte.to_N y); cbn; auto.
Qed.

Lemma string_lt_trans (a b c : bytes) :
  string_lt a b -> string_lt b c -> string_lt a c.
Proof.
  unfold string_lt. revert b c.
  induction a as [|x a IH]; intros [|y b] [|z c]; cbn;
    try discriminate; try reflexivity.
  destruct (N.compare_spec (Byte.to_N x) (Byte.to_N y)) as [E1|E1|E1];
    destruct (N.compare_spec (Byte.to_N y) (Byte.to_N z)) as [E2|E2|E2];
    try discriminate; intros H1 H2.
  - rewrite E1, E2, N.compare_refl. eapply IH; eassumption.
  - rewrite E1. now apply N.compare_lt_iff in E2 as ->.
  - rewrite <- E2. now apply N.compare_lt_iff in E1 as ->.
  - assert (E : Byte.to_N x < Byte.to_N z) by lia.
    now apply N.compare_lt_iff in E as ->.
Qed.


Lemma entry_lt_trans : Relations_1.Transitive entry_lt.
Proof. intros p q r. apply string_lt_trans. Qed.


(** *** The map *)

Lemma key_comp_lt (a b : bytes) : key_comp a b = true <-> string_lt a b.
Proof.
  unfold key_comp, string_lt.
  destruct (string_compare a b); split; congruence.
Qed.

Lemma string_lt_irrefl (a : bytes) : ~ string_lt a a.
Proof.
  unfold string_lt. intro H.
  assert (E : string_compare a a = Eq) by now apply string_compare_eq.
  congruence.
Qed.

Lemma last_key_app (block : SpdyHeaderBlock) (n v : bytes) :
  last_key (block ++ [(n, v)]) = Some n.
Proof.
  induction block as [|[k w] block IH]; [reflexivity|].
  cbn [app last_key]. rewrite IH.
  destruct (block ++ [(n, v)])%list eqn:E; [|reflexivity].
  now destruct block.
Qed.

Lemma last_key_none (block : SpdyHeaderBlock) :
  last_key block = None -> block = [].
Proof.
  induction block as [|[k w] block IH]; [reflexivity|].
  cbn. destruct block; [discriminate|]. intro H. now specialize (IH H).
Qed.

(** In a sorted map every entry is below a key above the last one. *)
Lemma below_last (block : SpdyHeaderBlock) (k n v : bytes) :
  StronglySorted entry_lt block ->
  last_key block = Some k ->
  string_lt k n ->
  Forall (fun e => entry_lt e (n, v)) block.
Proof.
  induction 1 as [|[k' w] block Hs IH Hall]; intros Hlast Hlt;
    [constructor|].
  destruct block as [|e block].
  - cbn in Hlast. injection Hlast as ->. repeat constructor. exact Hlt.
  - assert (Hl : last_key (e :: block) = Some k) by exact Hlast.
    specialize (IH Hl Hlt). constructor; [|exact IH].
    inversion Hall as [|? ? He _]; subst.
    inversion IH as [|? ? He' _]; subst.
    unfold entry_lt in *. cbn [fst] in *.
    eapply string_lt_trans; eassumption.
Qed.

(** Inserting a key above all the keys present appends the entry. *)
Lemma insert_above (block : SpdyHeaderBlock) (name value : bytes) :
  Forall (fun e => entry_lt e (name, value)) block ->
  insert block name value = (block ++ [(name, value)])%list.
Proof.
  induction 1 as [|[k v] block Hlt _ IH]; [reflexivity|].
  cbn. unfold entry_lt, string_lt in Hlt. cbn in Hlt.
  rewrite (string_compare_antisym k name), Hlt. cbn. now rewrite IH.
Qed.

Lemma sorted_snoc (block : SpdyHeaderBlock) (e : bytes * bytes) :
  StronglySorted entry_lt block ->
  Forall (fun x => entry_lt x e) block ->
  StronglySorted entry_lt (block ++ [e]).
Proof.
  induction 1 as [|x block Hs IH Hall]; intro Hb.
  - repeat constructor.
  - inversion Hb as [|? ? Hx Hb']; subst.
    cbn [app]. constructor; [now apply IH|].
    apply Forall_app. split; [exact Hall|]. now repeat constructor.
Qed.

Lemma ascending_after_sorted (k v : bytes) (pairs : list (bytes * bytes)) :
  ascending_after (Some k) pairs = true <->
  Sorted entry_lt ((k, v) :: pairs).
Proof.
  revert k v. induction pairs as [|[n w] pairs IH]; intros k v.
  - cbn. split; [repeat constructor|reflexivity].
  - cbn [ascending_after]. rewrite andb_true_iff, key_comp_lt, (IH n w).
    split.
    + intros [Hlt Hs]. constructor; [exact Hs|]. now constructor.
    + intro Hs. inversion Hs as [|? ? Hs' Hhd]; subst.
      inversion Hhd; subst. now split.
Qed.

Lemma ascending_sorted (pairs : list (bytes * bytes)) :
  ascending pairs = true <-> Sorted entry_lt pairs.
Proof.
  unfold ascending. destruct pairs as [|[n w] pairs].
  - split; [constructor|reflexivity].
  - cbn [ascending_after andb]. apply ascending_after_sorted.
Qed.

Lemma sorted_NoDup (pairs : list (bytes * bytes)) :
  Sorted entry_lt pairs -> NoDup (map fst pairs).
Proof.
  intro H. apply Sorted_StronglySorted in H; [|exact entry_lt_trans].
  induction H as [|[n v] pairs Hs IH Hall]; [constructor|].
  cbn [map fst]. constructor; [|exact IH].
  intro Hin. apply in_map_iff in Hin. destruct Hin as [[n' v'] [E Hin]].
  cbn in E. subst n'. rewrite Forall_forall in Hall.
  apply Hall in Hin. now apply string_lt_irrefl in Hin.
Qed.

(** *** What the map holds *)

Lemma has_key_above (block : SpdyHeaderBlock) (name value : bytes) :
  Forall (fun e => entry_lt e (name, value)) block ->
  has_key block name = false.
Proof.
  induction 1 as [|[k v] block Hlt _ IH]; [reflexivity|].
  cbn. unfold entry_lt, string_lt in Hlt. cbn in Hlt.
  now rewrite (string_compare_antisym k name), Hlt.
Qed.

Lemma insert_Forall (P : bytes * bytes -> Prop) (block : SpdyHeaderBlock)
  (name value : bytes) :
  Forall P block -> P (name, value) -> Forall P (insert block name value).
Proof.
  induction 1 as [|[k v] block Hk Hall IH]; intro Hp; cbn.
  - now repeat constructor.
  - destruct (string_compare name k); repeat constructor; auto.
Qed.

(** [std::map::insert] keeps the map in ascending key order. *)
Lemma insert_sorted (block : SpdyHeaderBlock) (name value : bytes) :
  StronglySorted entry_lt block ->
  StronglySorted entry_lt (insert block name value).
Proof.
  induction 1 as [|[k v] block Hs IH Hall]; cbn.
  - repeat constructor.
  - destruct (string_compare name k) eqn:E.
    + now constructor.
    + constructor; [now constructor|].
      constructor; [exact E|].
      eapply Forall_impl; [|exact Hall].
      intros e He. unfold entry_lt in *. cbn [fst] in *.
      eapply string_lt_trans; [exact E|exact He].
    + constructor; [exact IH|].
      apply insert_Forall; [exact Hall|].
      unfold entry_lt, string_lt. cbn [fst].
      now rewrite (string_compare_antisym name k), E.
Qed.

Lemma map_of_sorted (pairs : list (bytes * bytes)) :
  StronglySorted entry_lt (map_of pairs).
Proof.
  unfold map_of.
  assert (H : forall block, StronglySorted entry_lt block ->
            StronglySorted entry_lt
              (fold_left (fun block p => insert block (fst p) (snd p))
                         pairs block)).
  { induction pairs as [|p pairs IH]; intros block Hs; [exact Hs|].
    cbn [fold_left]. apply IH. now apply insert_sorted. }
  apply H. constructor.
Qed.

Lemma fold_insert_ascending (pairs : list (bytes * bytes))
  (block : SpdyHeaderBlock) :
  StronglySorted entry_lt block ->
  ascending_after (last_key block) pairs = true ->
  fold_left (fun block p => insert block (fst p) (snd p)) pairs block =
  (block ++ pairs)%list.
Proof.
  revert block.
  induction pairs as [|[n v] pairs IH]; intros block Hs Hasc.
  - cbn. now rewrite app_nil_r.
  - cbn [fold_left fst snd ascending_after] in *.
    apply andb_true_iff in Hasc. destruct Hasc as [Hlast Hasc].
    assert (Hins : Forall (fun e => entry_lt e (n, v)) block).
    { destruct (last_key block) as [k|] eqn:Hl.
      - apply key_comp_lt in Hlast. eapply below_last; eassumption.
      - apply last_key_none in Hl. subst block. constructor. }
    rewrite (insert_above Hins), IH, <- app_assoc; [reflexivity| |].
    + now apply sorted_snoc.
    + now rewrite last_key_app.
Qed.

(** A list in ascending name order is the map of its pairs. *)
Lemma map_of_ascending (pairs : list (bytes * bytes)) :
  Sorted entry_lt pairs -> map_of pairs = pairs.
Proof.
  intro Hs. unfold map_of.
  rewrite fold_insert_ascending; [reflexivity|constructor|].
  now apply ascending_sorted.
Qed.

Lemma sorted_strongly (pairs : list (bytes * bytes)) :
  StronglySorted entry_lt pairs ->
  Sorted entry_lt pairs /\ NoDup (map fst pairs).
Proof.
  intro H. apply StronglySorted_Sorted in H.
  split; [exact H|now apply sorted_NoDup].
Qed.

(** *** What the decoder yields *)

Lemma ReadPairs_sorted (barfs : bool) (n : nat) (b : bytes)
  (block result : SpdyHeaderBlock) :
  StronglySorted entry_lt block -> valid_names block ->
  ReadPairs barfs n b block = Some result ->
  StronglySorted entry_lt result /\ valid_names result.
Proof.
  revert b block.
  induction n as [|n IH]; intros b block Hs Hv; cbn [ReadPairs].
  - destruct b; [|discriminate]. intros [= <-]. now split.
  - destruct (ReadString b) as [[name b1]|]; [|discriminate].
    destruct (ReadString b1) as [[value b2]|]; [|discriminate].
    destruct (valid_name name) eqn:Hn; cbn [negb]; [|discriminate].
    destruct (has_key block name); [discriminate|].
    destruct (barfs && _); [discriminate|].
    apply IH; [now apply insert_sorted|].
    now apply insert_Forall.
Qed.

Lemma ReadHeaderBlock_sorted (barfs : bool) (b : bytes)
  (block : SpdyHeaderBlock) :
  ReadHeaderBlock barfs b = Some block ->
  Sorted entry_lt block /\ NoDup (map fst block) /\ valid_names block.
Proof.
  unfold ReadHeaderBlock.
  destruct (read_be16 b) as [[n rest]|]; [|discriminate].
  intro H. apply ReadPairs_sorted in H; [|constructor|constructor].
  destruct H as [Hs Hv]. apply sorted_strongly in Hs. tauto.
Qed.

Lemma ParseHeaderBlock_sorted (barfs enable_compression_ : bool)
  (decompress : bytes -> option bytes) (frame : SpdyFrame)
  (block : SpdyHeaderBlock) :
  ParseHeaderBlock barfs enable_compression_ decompress frame = Some block ->
  Sorted entry_lt block /\ NoDup (map fst block) /\ valid_names block.
Proof.
  unfold ParseHeaderBlock.
  destruct frame; try discriminate;
    (destruct (DecompressFrame _ _ _) as [[]|]; try discriminate;
     apply ReadHeaderBlock_sorted).
Qed.

(** *** Reading back what was written *)

Lemma ReadPairs_WritePairs (barfs : bool) (pairs : list (bytes * bytes))
  (block : SpdyHeaderBlock) :
  StronglySorted entry_lt block ->
  Forall (fun p => N.of_nat (List.length (fst p)) < 65536 /\
                   N.of_nat (List.length (snd p)) < 65536) pairs ->
  valid_names pairs ->
  ascending_after (last_key block) pairs = true ->
  ReadPairs barfs (List.length pairs) (List.concat (map WritePair pairs))
            block = Some (block ++ pairs)%list.
Proof.
  revert block.
  induction pairs as [|[n v] pairs IH]; intros block Hs Hlim Hval Hasc.
  - cbn. now rewrite app_nil_r.
  - cbn [List.length map List.concat ReadPairs ascending_after] in *.
    inversion Hlim as [|? ? [Hln Hlv] Hlim']; subst.
    inversion Hval as [|? ? Hn Hval']; subst. cbn [fst snd] in *.
    unfold WritePair at 1. cbn [fst snd].
    rewrite <- !app_assoc.
    rewrite ReadString_WriteString by exact Hln.
    rewrite ReadString_WriteString by exact Hlv.
    rewrite Hn. cbn [negb].
    apply andb_true_iff in Hasc. destruct Hasc as [Hlast Hasc].
    assert (Hins : Forall (fun e => entry_lt e (n, v)) block).
    { destruct (last_key block) as [k|] eqn:Hl.
      - apply key_comp_lt in Hlast. eapply below_last; eassumption.
      - apply last_key_none in Hl. subst block. constructor. }
    rewrite (has_key_above Hins), Hlast. cbn [negb].
    rewrite andb_false_r.
    rewrite (insert_above Hins), IH, <- app_assoc;
      [reflexivity| |exact Hlim'|exact Hval'|].
    + now apply sorted_snoc.
    + now rewrite last_key_app.
Qed.

Lemma ReadHeaderBlock_WriteHeaderBlock (barfs : bool)
  (pairs : list (bytes * bytes)) :
  within_limits pairs -> valid_names pairs -> Sorted entry_lt pairs ->
  ReadHeaderBlock barfs (WriteHeaderBlock pairs) = Some pairs.
Proof.
  intros (Hcount & Hlim & _) Hval Hs.
  unfold ReadHeaderBlock, WriteHeaderBlock.
  rewrite read_be16_be16 by exact Hcount.
  rewrite Nat2N.id.
  rewrite ReadPairs_WritePairs;
    [reflexivity|constructor|exact Hlim|exact Hval|].
  now apply ascending_sorted.
Qed.

Lemma unsorted_never_parsed (barfs enable_compression_ : bool)
  (decompress : bytes -> option bytes) (frame : SpdyFrame)
  (pairs : list (bytes * bytes)) :
  ~ Sorted entry_lt pairs ->
  ParseHeaderBlock barfs enable_compression_ decompress frame <> Some pairs.
Proof.
  intros Hn H. apply ParseHeaderBlock_sorted in H. tauto.
Qed.

Lemma b_then_a_unsorted : ~ Sorted entry_lt b_then_a.
Proof.
  intro H. inversion H as [|? ? _ Hhd]; subst.
  inversion Hhd as [|? ? Hlt]; subst. discriminate.
Qed.

Lemma within_limits_a_then_b : within_limits a_then_b.
Proof.
  split; [reflexivity|]. split; [repeat constructor|reflexivity].
Qed.

Lemma sorted_a_then_b : Sorted entry_lt a_then_b.
Proof. repeat constructor. Qed.

Section RoundTrip.

Variable barfs_on_out_of_order : bool.
Variable enable_compression_ : bool.
Variable compress decompress : bytes -> option bytes.

(** The decompressor undoes the compressor. *)
Hypothesis decompress_compress :
  forall b z, compress b = Some z -> decompress z = Some b.

Local Notation "'parse'" :=
  (ParseHeaderBlock barfs_on_out_of_order enable_compression_ decompress).

Lemma ParseHeaderBlock_compressed (frame frame' : SpdyFrame) :
  CompressFrame enable_compression_ compress frame = Some frame' ->
  parse frame' =
  match frame with
  | SynStream _ _ _ _ d | SynReply _ _ d =>
      ReadHeaderBlock barfs_on_out_of_order d
  | _ => None
  end.
Proof.
  unfold CompressFrame, ParseHeaderBlock, DecompressFrame.
  destruct enable_compression_.
  - destruct frame; cbn [map_header_data]; try (intros [= <-]; reflexivity).
    + destruct (compress header_data) as [z|] eqn:E; [|discriminate].
      intros [= <-]. cbn [map_header_data option_map].
      now rewrite (decompress_compress E).
    + destruct (compress header_data) as [z|] eqn:E; [|discriminate].
      intros [= <-]. cbn [map_header_data option_map].
      now rewrite (decompress_compress E).
  - intros [= <-]. now destruct frame.
Qed.

Lemma ParseHeaderBlock_created (compressed : bool) (frame frame' : SpdyFrame) :
  compressed = true \/ enable_compression_ = false ->
  (if compressed then CompressFrame enable_compression_ compress frame
   else Some frame) = Some frame' ->
  parse frame' =
  match frame with
  | SynStream _ _ _ _ d | SynReply _ _ d =>
      ReadHeaderBlock barfs_on_out_of_order d
  | _ => None
  end.
Proof.
  intros Hc H. destruct compressed.
  - now apply ParseHeaderBlock_compressed.
  - destruct Hc as [Hc|Hc]; [discriminate|].
    apply ParseHeaderBlock_compressed.
    unfold CompressFrame. now rewrite Hc.
Qed.

(** C1, as the code has it.  A header block is a [std::map], which
    holds its entries in strictly ascending order of their names (and so
    without a duplicated name).  Hence every header block that
    [ParseHeaderBlock] yields is in that order, whatever the frame, and
    pairs listed in another order are never yielded.  A header block in
    ascending name order, with lowercase nonempty names and within the
    size limits, is yielded again, pair for pair and in the same order,
    from the frame that [CreateSynReply] or [CreateSynStream] builds of
    it with its header block compressed (or with compression switched
    off in the framer), whether or not the decoder barfs on out-of-order
    headers. *)
Theorem header_block_round_trip (stream_id associated_stream_id : N)
  (priority flags : N) (compressed : bool) (pairs : list (bytes * bytes)) :
  (forall frame block,
     parse frame = Some block ->
     Sorted entry_lt block /\ NoDup (map fst block) /\ valid_names block) /\
  (~ Sorted entry_lt pairs -> forall frame, parse frame <> Some pairs) /\
  (Sorted entry_lt (map_of pairs) /\
   (Sorted entry_lt pairs -> map_of pairs = pairs)) /\
  (within_limits pairs -> valid_names pairs -> Sorted entry_lt pairs ->
   compressed = true \/ enable_compression_ = false ->
   NoDup (map fst pairs) /\
   (forall frame,
      CreateSynReply enable_compression_ compress stream_id flags compressed
        pairs = Some frame ->
      parse frame = Some pairs) /\
   (forall frame,
      CreateSynStream enable_compression_ compress stream_id
        associated_stream_id priority flags compressed pairs = Some frame ->
      parse frame = Some pairs)).
Proof.
  split; [|split; [|split]].
  - intros frame block. apply ParseHeaderBlock_sorted.
  - intros Hn frame. now apply unsorted_never_parsed.
  - split.
    + apply StronglySorted_Sorted, map_of_sorted.
    + apply map_of_ascending.
  - intros Hlim Hval Hs Hc.
    pose proof (@ReadHeaderBlock_WriteHeaderBlock barfs_on_out_of_order
                  pairs Hlim Hval Hs) as Hread.
    split; [now apply sorted_NoDup|]. split.
    + intros frame H. unfold CreateSynReply in H.
      now rewrite (ParseHeaderBlock_created _ Hc H).
    + intros frame H. unfold CreateSynStream in H.
      now rewrite (ParseHeaderBlock_created _ Hc H).
Qed.

End RoundTrip.

(** C1 as stated fails: the pairs "b", "a" have no duplicated name,
    lowercase names, and are within the limits, and no frame at all
    decodes to them, whatever the compression and whether or not the
    decoder barfs on out-of-order headers.  The frame that lists them in
    their order is rejected where the decoder barfs and yields "a", "b"
    where it does not; the map built from them holds "a" first, and the
    frame built from the map decodes to that map, not to the pairs in
    their original order. *)
Lemma ParseHeaderBlock_rejects_descending_names :
  NoDup (map fst b_then_a) /\
  within_limits b_then_a /\
  valid_names b_then_a /\
  (forall barfs enable_compression_ decompress frame,
     ParseHeaderBlock barfs enable_compression_ decompress frame <>
     Some b_then_a) /\
  ParseHeaderBlock true false Some (SynReply 1 0 (WriteHeaderBlock b_then_a))
    = None /\
  ParseHeaderBlock false false Some (SynReply 1 0 (WriteHeaderBlock b_then_a))
    = Some a_then_b /\
  map_of b_then_a = a_then_b /\
  (forall barfs,
     CreateSynReply false Some 1 0 true (map_of b_then_a) =
       Some (SynReply 1 0 (WriteHeaderBlock a_then_b)) /\
     ParseHeaderBlock barfs false Some
       (SynReply 1 0 (WriteHeaderBlock a_then_b)) = Some a_then_b) /\
  a_then_b <> b_then_a.
Proof.
  split; [repeat constructor; cbn; intuition discriminate|].
  split; [split; [reflexivity|split; [repeat constructor|reflexivity]]|].
  split; [repeat constructor|].
  split; [intros; apply unsorted_never_parsed, b_then_a_unsorted|].
  split; [reflexivity|]. split; [reflexivity|]. split; [reflexivity|].
  split; [|discriminate].
  intros [|]; split; reflexivity.
Qed.

Lemma header_block_round_trip_witness :
  (forall frame,
     CreateSynReply true Some 1 0 true a_then_b = Some frame ->
     ParseHeaderBlock true true Some frame = Some a_then_b) /\
  (forall frame,
     CreateSynStream true Some 1 0 0 0 true a_then_b = Some frame ->
     ParseHeaderBlock true true Some frame = Some a_then_b).
Proof.
  pose proof (@header_block_round_trip true true Some Some
                (fun b z H => eq_sym H) 1 0 0 0 true a_then_b) as H.
  destruct H as (_ & _ & _ & H).
  apply H.
  - exact within_limits_a_then_b.
  - repeat constructor.
  - exact sorted_a_then_b.
  - left. reflexivity.
Defined.

(** The decoder on names that section 4.2 excludes: an empty name, an
    upper-case name and a name listed twice are rejected, on every path. *)
Example ReadHeaderBlock_strictness (barfs : bool) :
  ReadHeaderBlock barfs (WriteHeaderBlock [([], octets [49])]) = None /\
  ReadHeaderBlock barfs (WriteHeaderBlock [(octets [65], octets [49])])
    = None /\
  ReadHeaderBlock barfs
    (WriteHeaderBlock [(octets [97], octets [49]);
                       (octets [97], octets [50])]) = None /\
  ReadHeaderBlock barfs (WriteHeaderBlock [(octets [97], [])])
    = Some [(octets [97], [])].
Proof. now destruct barfs. Qed.

End HeaderBlockFacts.

(* ================================================================== *)
(** * Further properties of the hooks of mod_spdy.cc *)

Section ConnectionHookFacts.

Import CString Httpd AprTable ModSpdy.
Local Open Scope string_scope.

(** Case analysis on the guards of a hook: splits the statement, opens
    the hypotheses and closes each case by contradiction or by naming
    the context at hand. *)
Ltac hook_cases :=
  repeat split; intros;
  repeat match goal with
         | H : _ /\ _ |- _ => destruct H
         | H : exists _, _ |- _ => destruct H
         | H : _ \/ _ |- _ => destruct H
         | H : False |- _ => contradiction
         | H : ?x <> ?x |- _ => now elim H
         | H : Some _ = Some _ |- _ => injection H as H
         end;
  subst; try discriminate; try congruence; auto;
  try (eexists; split; [reflexivity|assumption]).

Lemma handshake_server_config (connection : conn_rec)
  (negotiated : option (list ascii)) :
  server_config (handshake connection negotiated) = server_config connection.
Proof.
  destruct negotiated as [n|]; [|reflexivity].
  unfold handshake, OnNextProtocolNegotiated, GetConnectionContext.
  destruct (context connection) as [ctx|]; [|reflexivity].
  destruct (is_slave ctx); [reflexivity|].
  destruct (negb _); [reflexivity|].
  now destruct (proto_is_spdy _ _).
Qed.

(** The handshake leaves a connection without context, and a slave
    connection, as they are, and changes at most the NPN state. *)
Lemma handshake_context (connection : conn_rec)
  (negotiated : option (list ascii)) :
  match context connection with
  | None => context (handshake connection negotiated) = None
  | Some ctx =>
      exists state,
        context (handshake connection negotiated) =
        Some {| is_slave := is_slave ctx; npn_state := state |}
  end.
Proof.
  destruct negotiated as [n|]; unfold handshake.
  - unfold OnNextProtocolNegotiated, GetConnectionContext.
    destruct (context connection) as [ctx|] eqn:E; [|exact E].
    destruct (is_slave ctx) eqn:Es; cbn [fst snd].
    + exists (npn_state ctx). rewrite E, <- Es. now destruct ctx.
    + destruct (negb _); cbn [fst snd].
      * exists (npn_state ctx). rewrite E, <- Es. now destruct ctx.
      * destruct (proto_is_spdy _ _); cbn [fst snd with_context context];
          eexists; unfold set_npn_state; rewrite Es; reflexivity.
  - destruct (context connection) as [ctx|] eqn:E; [|reflexivity].
    exists (npn_state ctx). now destruct ctx.
Qed.

Lemma ProcessConnection_OK_iff
  (gPerProcessThreadPool : option apr_thread_pool) (connection : conn_rec)
  (read : apr_status_t * option (list ascii)) :
  fst (ProcessConnection gPerProcessThreadPool connection read) = OK <->
  sbh connection <> None /\
  (exists ctx, GetConnectionContext connection = Some ctx /\
               is_slave ctx = false) /\
  gPerProcessThreadPool <> None /\
  fst read = APR_SUCCESS /\
  conn_npn_state (handshake connection (snd read)) = Some USING_SPDY.
Proof.
  unfold ProcessConnection, GetConnectionContext, GetServerConfig.
  destruct (sbh connection) as [h|]; [|cbn; hook_cases].
  destruct (context connection) as [ctx|]; [|cbn; hook_cases].
  destruct (is_slave ctx) eqn:Es; [cbn; hook_cases|].
  destruct gPerProcessThreadPool as [p|]; [|cbn; hook_cases].
  destruct (Z.eqb_spec (fst read) APR_SUCCESS) as [Hs|Hs]; cbn [negb].
  2:{ destruct (negb (APR_STATUS_IS_EOF (fst read))); cbn; hook_cases. }
  destruct (conn_npn_state (handshake connection (snd read)))
    as [[| |]|]; cbn; hook_cases.
Qed.

(** On a master connection whose NPN has not happened, the handshake
    leaves [USING_SPDY] for the name "spdy/2" and [NOT_USING_SPDY] for
    any other. *)
Lemma handshake_fresh_master (connection : conn_rec) (name : list ascii) :
  GetConnectionContext connection = Some fresh_master_context ->
  conn_npn_state (handshake connection (Some name)) = Some USING_SPDY <->
  name = spdy2.
Proof.
  intro Hctx. unfold handshake, OnNextProtocolNegotiated.
  rewrite Hctx. cbn -[proto_is_spdy].
  rewrite <- proto_is_spdy_iff.
  destruct (proto_is_spdy name (List.length name)); cbn;
    split; congruence.
Qed.

(** X1.  [ProcessConnection] answers OK, and so takes the connection
    over, exactly when the connection is inbound (it has a scoreboard
    handle), carries a master context, the process has its thread pool,
    the speculative read succeeded and NPN ended in [USING_SPDY]; in
    every other case it answers DECLINED.  A SPDY session is created and
    run exactly when the answer is OK, with the configuration of the
    connection's server. *)
Theorem ProcessConnection_serves_negotiated_masters
  (gPerProcessThreadPool : option apr_thread_pool) (connection : conn_rec)
  (read : apr_status_t * option (list ascii)) :
  let r := ProcessConnection gPerProcessThreadPool connection read in
  (fst r = OK <->
     sbh connection <> None /\
     (exists ctx, GetConnectionContext connection = Some ctx /\
                  is_slave ctx = false) /\
     gPerProcessThreadPool <> None /\
     fst read = APR_SUCCESS /\
     conn_npn_state (handshake connection (snd read)) = Some USING_SPDY) /\
  (fst r <> OK -> fst r = DECLINED) /\
  (In SessionRun (snd r) <-> fst r = OK) /\
  (forall config, In (SessionCreated config) (snd r) <->
                  fst r = OK /\ config = GetServerConfig connection).
Proof.
  cbv zeta. unfold ProcessConnection, GetConnectionContext, GetServerConfig.
  rewrite handshake_server_config.
  destruct (sbh connection) as [h|]; [|cbn; hook_cases].
  destruct (context connection) as [ctx|]; [|cbn; hook_cases].
  destruct (is_slave ctx) eqn:Es; [cbn; hook_cases|].
  destruct gPerProcessThreadPool as [p|]; [|cbn; hook_cases].
  destruct (Z.eqb_spec (fst read) APR_SUCCESS) as [Hs|Hs]; cbn [negb].
  2:{ destruct (negb (APR_STATUS_IS_EOF (fst read))); cbn; hook_cases. }
  destruct (conn_npn_state (handshake connection (snd read)))
    as [[| |]|]; cbn; hook_cases.
Qed.

(** X2.  [ProcessConnection] touches the connection only after its
    guards: the speculative read is made exactly for an inbound
    connection with a master context in a process that has its thread
    pool, and without the read nothing at all is done or logged.  An
    error is logged exactly when the read fails with a status other than
    end-of-file, and the warning about NPN exactly when the read
    succeeds and the NPN state is still [NOT_DONE_YET]. *)
Theorem ProcessConnection_reads_after_guards
  (gPerProcessThreadPool : option apr_thread_pool) (connection : conn_rec)
  (read : apr_status_t * option (list ascii)) :
  let r := ProcessConnection gPerProcessThreadPool connection read in
  let guarded :=
    sbh connection <> None /\
    (exists ctx, GetConnectionContext connection = Some ctx /\
                 is_slave ctx = false) /\
    gPerProcessThreadPool <> None in
  (In SpeculativeRead (snd r) <-> guarded) /\
  (~ guarded -> r = (DECLINED, [])) /\
  (In (LogError "Error during speculative read") (snd r) <->
     guarded /\ fst read <> APR_SUCCESS /\ fst read <> APR_EOF) /\
  (In (LogWarning "NPN didn't happen during SSL handshake.") (snd r) <->
     guarded /\ fst read = APR_SUCCESS /\
     conn_npn_state (handshake connection (snd read)) = Some NOT_DONE_YET).
Proof.
  cbv zeta. unfold ProcessConnection, GetConnectionContext, GetServerConfig.
  destruct (sbh connection) as [h|]; [|cbn; hook_cases].
  destruct (context connection) as [ctx|]; [|cbn; hook_cases].
  destruct (is_slave ctx) eqn:Es; [cbn; hook_cases|].
  destruct gPerProcessThreadPool as [p|]; [|cbn; hook_cases].
  assert (Hg : Some h <> None /\
               (exists c, Some ctx = Some c /\ is_slave c = false) /\
               Some p <> None)
    by (repeat split; try discriminate; now exists ctx).
  destruct (Z.eqb_spec (fst read) APR_SUCCESS) as [Hs|Hs]; cbn [negb].
  2:{ unfold APR_STATUS_IS_EOF.
      destruct (Z.eqb_spec (fst read) APR_EOF) as [He|He]; cbn;
        repeat split; intros; auto; try tauto;
        repeat match goal with
               | H : _ \/ _ |- _ => destruct H
               | H : _ /\ _ |- _ => destruct H
               end; try discriminate; try contradiction; tauto. }
  destruct (conn_npn_state (handshake connection (snd read)))
    as [[| |]|]; cbn;
    repeat split; intros; auto; try tauto;
    repeat match goal with
           | H : _ \/ _ |- _ => destruct H
           | H : _ /\ _ |- _ => destruct H
           end; try discriminate; try contradiction; try tauto.
Qed.

(** [strncmp] looks at no more than the first [n] characters of its
    second argument. *)
Lemma strncmp_firstn (n : nat) (s1 s2 : list ascii) :
  strncmp s1 (firstn n s2) n = strncmp s1 s2 n.
Proof.
  revert s1 s2. induction n as [|n IH]; intros s1 s2; [reflexivity|].
  destruct s1 as [|c1 r1], s2 as [|c2 r2]; try reflexivity.
  cbn [firstn strncmp].
  destruct (Ascii.eqb c1 c2); [|reflexivity].
  destruct (Ascii.eqb c1 NUL); [reflexivity|apply IH].
Qed.

Lemma proto_is_spdy_firstn (storage : list ascii) (n : nat) :
  (n <= List.length storage)%nat ->
  proto_is_spdy storage n = true <-> firstn n storage = spdy2.
Proof.
  intro Hn.
  assert (Hlen : List.length (firstn n storage) = n)
    by (rewrite length_firstn; lia).
  rewrite <- proto_is_spdy_iff, Hlen.
  unfold proto_is_spdy.
  destruct (strlen (literal kSpdyProtocolName)); [|reflexivity].
  destruct (Nat.eqb n n0); [|reflexivity].
  now rewrite strncmp_firstn.
Qed.

Lemma list_ascii_of_string_inj (a b : string) :
  list_ascii_of_string a = list_ascii_of_string b -> a = b.
Proof.
  intro H.
  rewrite <- (string_of_list_ascii_of_string a),
          <- (string_of_list_ascii_of_string b).
  now rewrite H.
Qed.

Lemma length_list_ascii_of_string (a : string) :
  List.length (list_ascii_of_string a) = String.length a.
Proof. induction a as [|c a IH]; [reflexivity|]. cbn. now rewrite IH. Qed.

(** X3.  [OnNextProtocolNegotiated] compares exactly the first
    [proto_name_len] characters mod_ssl points at, which need not be
    NUL-terminated: on a master connection whose NPN has not happened
    the state becomes [USING_SPDY] when those characters are "spdy/2"
    and [NOT_USING_SPDY] otherwise, whatever follows them in the
    storage.  A longer name that starts with "spdy/2" and a proper
    prefix of it are both refused. *)
Theorem OnNextProtocolNegotiated_compares_len_characters
  (connection : conn_rec) (storage : list ascii) (proto_name_len : nat) :
  GetConnectionContext connection = Some fresh_master_context ->
  (proto_name_len <= List.length storage)%nat ->
  let r := OnNextProtocolNegotiated connection storage proto_name_len in
  fst (fst r) = OK /\ snd r = [] /\
  (conn_npn_state (snd (fst r)) = Some USING_SPDY <->
     firstn proto_name_len storage = spdy2) /\
  (firstn proto_name_len storage <> spdy2 ->
     conn_npn_state (snd (fst r)) = Some NOT_USING_SPDY) /\
  forall other,
    firstn proto_name_len other = firstn proto_name_len storage ->
    (proto_name_len <= List.length other)%nat ->
    OnNextProtocolNegotiated connection other proto_name_len = r.
Proof.
  intros Hctx Hn. cbv zeta.
  unfold OnNextProtocolNegotiated. rewrite Hctx. cbn -[proto_is_spdy].
  pose proof (proto_is_spdy_firstn storage Hn) as Hiff.
  assert (Hother : forall other,
            firstn proto_name_len other = firstn proto_name_len storage ->
            (proto_name_len <= List.length other)%nat ->
            proto_is_spdy other proto_name_len =
            proto_is_spdy storage proto_name_len).
  { intros other E Ho.
    pose proof (proto_is_spdy_firstn other Ho) as Hiff'. rewrite E in Hiff'.
    destruct (proto_is_spdy other proto_name_len),
             (proto_is_spdy storage proto_name_len); try reflexivity.
    - symmetry. apply Hiff, Hiff'. reflexivity.
    - apply Hiff', Hiff. reflexivity. }
  assert (Hsame : forall other,
            firstn proto_name_len other = firstn proto_name_len storage ->
            (proto_name_len <= List.length other)%nat ->
            (if proto_is_spdy other proto_name_len
             then (OK, with_context connection
                         (set_npn_state fresh_master_context USING_SPDY),
                   @nil Effect)
             else (OK, with_context connection
                         (set_npn_state fresh_master_context NOT_USING_SPDY),
                   [])) =
            (if proto_is_spdy storage proto_name_len
             then (OK, with_context connection
                         (set_npn_state fresh_master_context USING_SPDY), [])
             else (OK, with_context connection
                         (set_npn_state fresh_master_context NOT_USING_SPDY),
                   [])))
    by (intros other Eo Ho; now rewrite (Hother other Eo Ho)).
  destruct (proto_is_spdy storage proto_name_len) eqn:E.
  - split; [reflexivity|]. split; [reflexivity|].
    split; [split; [intros _; now apply Hiff|reflexivity]|].
    split; [|exact Hsame].
    intro Hne. elim Hne. now apply Hiff.
  - split; [reflexivity|]. split; [reflexivity|].
    split; [split; [discriminate|]|].
    + intro H. apply Hiff in H. discriminate.
    + split; [reflexivity|exact Hsame].
Qed.

Lemma OnNextProtocolNegotiated_compares_len_characters_witness :
  let c := {| sbh := Some 0%nat; context := Some fresh_master_context;
              server_config := {| spdy_enabled := true;
                                  max_threads_per_process := 4%Z |} |} in
  let storage := list_ascii_of_string "spdy/2http/1.1" in
  conn_npn_state (snd (fst (OnNextProtocolNegotiated c storage 6)))
    = Some USING_SPDY /\
  conn_npn_state (snd (fst (OnNextProtocolNegotiated c storage 7)))
    = Some NOT_USING_SPDY /\
  conn_npn_state (snd (fst (OnNextProtocolNegotiated c storage 5)))
    = Some NOT_USING_SPDY.
Proof.
  intros c storage.
  assert (H6 : (6 <= List.length storage)%nat) by (cbn; lia).
  assert (H7 : (7 <= List.length storage)%nat) by (cbn; lia).
  assert (H5 : (5 <= List.length storage)%nat) by (cbn; lia).
  pose proof (@OnNextProtocolNegotiated_compares_len_characters
                c storage 6 eq_refl H6) as (_ & _ & A & _).
  pose proof (@OnNextProtocolNegotiated_compares_len_characters
                c storage 7 eq_refl H7) as (_ & _ & _ & B & _).
  pose proof (@OnNextProtocolNegotiated_compares_len_characters
                c storage 5 eq_refl H5) as (_ & _ & _ & C & _).
  split; [apply A; reflexivity|].
  split; [apply B; discriminate|apply C; discriminate].
Defined.

(** X4.  The name [AdvertiseNpnProtocols] adds is the name
    [OnNextProtocolNegotiated] accepts: on an inbound master connection
    of a server with SPDY enabled, in a process that has its thread
    pool, the advertised list ends with a name that, reported back by
    mod_ssl, makes [ProcessConnection] serve the connection as SPDY, and
    every other name makes it decline. *)
Theorem advertised_name_is_the_accepted_name
  (pool : apr_thread_pool) (connection : conn_rec) (protos : list string) :
  sbh connection <> None ->
  GetConnectionContext connection = Some fresh_master_context ->
  spdy_enabled (GetServerConfig connection) = true ->
  let advertised := snd (AdvertiseNpnProtocols connection protos) in
  (exists name,
     last advertised "" = name /\ In name advertised /\
     fst (ProcessConnection (Some pool) connection (negotiated name)) = OK) /\
  forall name,
    fst (ProcessConnection (Some pool) connection (negotiated name)) = OK <->
    name = last advertised "".
Proof.
  intros Hsbh Hctx Hen. cbv zeta.
  assert (Hlast : last (snd (AdvertiseNpnProtocols connection protos)) ""
                  = kSpdyProtocolName).
  { unfold AdvertiseNpnProtocols. rewrite Hen. cbn [negb snd].
    apply last_last. }
  assert (Hin : In kSpdyProtocolName
                   (snd (AdvertiseNpnProtocols connection protos))).
  { unfold AdvertiseNpnProtocols. rewrite Hen. cbn [negb snd].
    apply in_or_app. right. now left. }
  assert (Hserve : forall name,
            fst (ProcessConnection (Some pool) connection (negotiated name))
              = OK <-> name = kSpdyProtocolName).
  { intro name.
    rewrite ProcessConnection_OK_iff.
    unfold negotiated. cbn [fst snd].
    rewrite (@handshake_fresh_master connection _ Hctx).
    split.
    - intros (_ & _ & _ & _ & H).
      apply list_ascii_of_string_inj. exact H.
    - intros ->. repeat split; auto; try discriminate.
      exists fresh_master_context. now split. }
  rewrite Hlast. split; [|exact Hserve].
  exists kSpdyProtocolName. repeat split; auto. now apply Hserve.
Qed.

Lemma advertised_name_is_the_accepted_name_witness :
  let c := {| sbh := Some 0%nat; context := Some fresh_master_context;
              server_config := {| spdy_enabled := true;
                                  max_threads_per_process := 4%Z |} |} in
  snd (AdvertiseNpnProtocols c ["http/1.1"]) = ["http/1.1"; "spdy/2"] /\
  fst (ProcessConnection (Some 1%nat) c (negotiated "spdy/2")) = OK /\
  fst (ProcessConnection (Some 1%nat) c (negotiated "http/1.1")) <> OK.
Proof.
  intro c.
  assert (Hsbh : sbh c <> None) by discriminate.
  pose proof (@advertised_name_is_the_accepted_name 1%nat c ["http/1.1"]
                Hsbh eq_refl eq_refl) as [_ H].
  split; [reflexivity|]. split.
  - apply H. reflexivity.
  - intro E. apply H in E. discriminate.
Defined.

(** X5.  [spdy_enabled] gates the advertisement and nothing else in
    these hooks: on a server that has SPDY disabled
    [AdvertiseNpnProtocols] declines, but when mod_ssl nevertheless
    reports "spdy/2" as the negotiated protocol, the connection is
    marked [USING_SPDY] and [ProcessConnection] creates and runs a
    session for it. *)
Theorem spdy_enabled_gates_only_the_advertisement
  (pool : apr_thread_pool) (connection : conn_rec) (protos : list string) :
  sbh connection <> None ->
  GetConnectionContext connection = Some fresh_master_context ->
  spdy_enabled (GetServerConfig connection) = false ->
  AdvertiseNpnProtocols connection protos = (DECLINED, protos) /\
  conn_npn_state
    (snd (fst (OnNextProtocolNegotiated connection spdy2
                 (List.length spdy2)))) = Some USING_SPDY /\
  ProcessConnection (Some pool) connection (negotiated kSpdyProtocolName) =
  (OK, [SpeculativeRead; SessionCreated (GetServerConfig connection);
        SessionRun]).
Proof.
  intros Hsbh Hctx Hdis.
  split; [unfold AdvertiseNpnProtocols; now rewrite Hdis|].
  assert (Hneg : OnNextProtocolNegotiated connection spdy2
                   (List.length spdy2) =
                 (OK, with_context connection
                        (set_npn_state fresh_master_context USING_SPDY), []))
    by (unfold OnNextProtocolNegotiated; now rewrite Hctx).
  split; [now rewrite Hneg|].
  unfold ProcessConnection, negotiated, handshake.
  destruct (sbh connection) as [h|]; [|now elim Hsbh].
  rewrite Hctx. cbn [is_slave fresh_master_context fst snd].
  change (list_ascii_of_string kSpdyProtocolName) with spdy2.
  rewrite Hneg. reflexivity.
Qed.

Lemma spdy_enabled_gates_only_the_advertisement_witness :
  let c := {| sbh := Some 0%nat; context := Some fresh_master_context;
              server_config := {| spdy_enabled := false;
                                  max_threads_per_process := 4%Z |} |} in
  AdvertiseNpnProtocols c ["http/1.1"] = (DECLINED, ["http/1.1"]) /\
  fst (ProcessConnection (Some 1%nat) c (negotiated "spdy/2")) = OK.
Proof.
  intro c.
  assert (Hsbh : sbh c <> None) by discriminate.
  pose proof (@spdy_enabled_gates_only_the_advertisement 1%nat c
                ["http/1.1"] Hsbh eq_refl eq_refl) as (A & _ & B).
  split; [exact A|]. exact (f_equal fst B).
Defined.

(** X6.  [DisableSslForSlaves] leaves a connection without context (a
    master connection, at that point) alone and declines; for a
    connection with a context it always answers OK, also when mod_ssl
    cannot be disabled, which it only logs.  mod_ssl's
    [ssl_engine_disable] is called exactly when the connection has a
    context and the function is available. *)
Theorem DisableSslForSlaves_outcomes
  (gDisableSslForConnection : optional_fn) (connection : conn_rec) :
  let r := DisableSslForSlaves gDisableSslForConnection connection in
  (GetConnectionContext connection = None -> r = (DECLINED, [])) /\
  (fst r = OK <-> GetConnectionContext connection <> None) /\
  (In CallSslEngineDisable (snd r) <->
     GetConnectionContext connection <> None /\
     gDisableSslForConnection <> None) /\
  (In (Logged (LogDFatal "mod_ssl missing for slave connection")) (snd r) <->
     GetConnectionContext connection <> None /\
     (gDisableSslForConnection = None \/
      exists f, gDisableSslForConnection = Some f /\ f connection = 0%Z)) /\
  (In (DCheckFailed "context->is_slave()") (snd r) <->
     exists ctx, GetConnectionContext connection = Some ctx /\
                 is_slave ctx = false).
Proof.
  cbv zeta. unfold DisableSslForSlaves, GetConnectionContext.
  destruct (context connection) as [ctx|]; [|cbn; hook_cases].
  destruct gDisableSslForConnection as [f|].
  - destruct (Z.eqb_spec (f connection) 0) as [E|E];
      destruct (is_slave ctx) eqn:Es; cbn;
      repeat split; intros; auto; try discriminate;
      repeat match goal with
             | H : _ \/ _ |- _ => destruct H
             | H : _ /\ _ |- _ => destruct H
             | H : exists _, _ |- _ => destruct H
             | H : Some _ = Some _ |- _ => injection H as H
             end; subst; try discriminate; try contradiction;
      try congruence; eauto 6.
  - destruct (is_slave ctx) eqn:Es; cbn;
      repeat split; intros; auto; try discriminate;
      repeat match goal with
             | H : _ \/ _ |- _ => destruct H
             | H : _ /\ _ |- _ => destruct H
             | H : exists _, _ |- _ => destruct H
             | H : Some _ = Some _ |- _ => injection H as H
             end; subst; try discriminate; try contradiction;
      try congruence; eauto 6.
Qed.

Section PreConnectionFacts.

Variable CreateMasterConnectionContext : conn_rec -> conn_rec.

Local Notation "'pre_connection'" :=
  (PreConnection CreateMasterConnectionContext) (only parsing).

(** X7.  [PreConnection] answers DONE, which keeps the core's filters
    out, exactly for a connection that already carries a context, and
    then adds the SPDY-to-HTTP input filter built from that context and
    leaves the connection as it is.  It answers OK exactly for a
    connection without context that mod_ssl reports to be over SSL, and
    only then creates a master context; in every other case it declines
    and changes nothing.  mod_ssl is asked only about connections
    without context. *)
Theorem PreConnection_outcomes
  (gIsUsingSslForConnection : optional_fn) (connection : conn_rec) :
  let r := pre_connection gIsUsingSslForConnection connection in
  (fst (fst r) = DONE <-> GetConnectionContext connection <> None) /\
  (fst (fst r) = OK <->
     GetConnectionContext connection = None /\
     exists f, gIsUsingSslForConnection = Some f /\ f connection <> 0%Z) /\
  (fst (fst r) <> DONE -> fst (fst r) <> OK -> fst (fst r) = DECLINED) /\
  (fst (fst r) = OK ->
     snd (fst r) = CreateMasterConnectionContext connection) /\
  (fst (fst r) <> OK -> snd (fst r) = connection) /\
  (forall h ctx, In (AddInputFilter h ctx) (snd r) <->
     h = SPDY_TO_HTTP /\ GetConnectionContext connection = Some ctx) /\
  (In CallSslIsHttps (snd r) <->
     GetConnectionContext connection = None /\
     gIsUsingSslForConnection <> None).
Proof.
  cbv zeta. unfold PreConnection, GetConnectionContext.
  destruct (context connection) as [ctx|].
  - destruct (is_slave ctx) eqn:Es; cbn;
      repeat split; intros; auto; try discriminate;
      repeat match goal with
             | H : _ \/ _ |- _ => destruct H
             | H : _ /\ _ |- _ => destruct H
             | H : exists _, _ |- _ => destruct H
             | H : AddInputFilter _ _ = AddInputFilter _ _ |- _ =>
                 injection H as H
             | H : Some _ = Some _ |- _ => injection H as H
             end; subst; try discriminate; try contradiction;
      try congruence; auto.
  - destruct gIsUsingSslForConnection as [f|].
    + destruct (Z.eqb_spec (f connection) 0) as [E|E]; cbn;
        repeat split; intros; auto; try discriminate;
        repeat match goal with
               | H : _ \/ _ |- _ => destruct H
               | H : _ /\ _ |- _ => destruct H
               | H : exists _, _ |- _ => destruct H
               | H : Some _ = Some _ |- _ => injection H as H
               end; subst; try discriminate; try contradiction;
        try congruence; eauto.
    + cbn; hook_cases.
Qed.

(** [CreateMasterConnectionContext] attaches a master context whose NPN
    has not happened and leaves the rest of the connection alone. *)
Hypothesis CreateMasterConnectionContext_fresh :
  forall c, CreateMasterConnectionContext c =
            with_context c fresh_master_context.

(** X8.  The way of a master connection through the hooks.  A new
    inbound connection has no context: [DisableSslForSlaves] leaves it
    alone.  When mod_ssl reports it to be over SSL, [PreConnection]
    attaches a master context, no request filters are inserted for it,
    and [ProcessConnection] serves it exactly when mod_ssl reports
    "spdy/2" as the negotiated protocol; when NPN did not take place it
    declines with a warning.  When the connection is not over SSL (or
    mod_ssl is missing) it gets no context, and [ProcessConnection]
    declines it without reading from it. *)
Theorem master_connection_through_the_hooks
  (gDisableSslForConnection gIsUsingSslForConnection : optional_fn)
  (pool : apr_thread_pool) (connection : conn_rec) :
  sbh connection <> None ->
  GetConnectionContext connection = None ->
  let r := pre_connection gIsUsingSslForConnection connection in
  let connection' := snd (fst r) in
  DisableSslForSlaves gDisableSslForConnection connection = (DECLINED, []) /\
  InsertRequestFilters connection' = [] /\
  (fst (fst r) = OK ->
     (forall name,
        fst (ProcessConnection (Some pool) connection' (negotiated name)) = OK
        <-> name = kSpdyProtocolName) /\
     ProcessConnection (Some pool) connection' (APR_SUCCESS, None) =
     (DECLINED, [SpeculativeRead;
                 LogWarning "NPN didn't happen during SSL handshake."])) /\
  (fst (fst r) <> OK ->
     forall read,
       ProcessConnection (Some pool) connection' read = (DECLINED, [])).
Proof.
  intros Hsbh Hctx. cbv zeta.
  split; [unfold DisableSslForSlaves; now rewrite Hctx|].
  unfold PreConnection. rewrite Hctx.
  assert (Hnone : InsertRequestFilters connection = [] /\
                  forall read, ProcessConnection (Some pool) connection read
                               = (DECLINED, [])).
  { unfold InsertRequestFilters, ProcessConnection. rewrite Hctx.
    destruct (sbh connection); split; reflexivity. }
  assert (Hnew : GetConnectionContext
                   (CreateMasterConnectionContext connection)
                 = Some fresh_master_context)
    by now rewrite CreateMasterConnectionContext_fresh.
  assert (Hsbh' : sbh (CreateMasterConnectionContext connection) <> None)
    by now rewrite CreateMasterConnectionContext_fresh.
  destruct gIsUsingSslForConnection as [f|];
    [destruct (Z.eqb (f connection) 0)|]; cbn [fst snd].
  - split; [apply Hnone|]. split; [intro H; discriminate|].
    intros _. apply Hnone.
  - split; [unfold InsertRequestFilters; now rewrite Hnew|].
    split; [|intro H; now elim H].
    intros _. split.
    + intro name. rewrite ProcessConnection_OK_iff.
      unfold negotiated. cbn [fst snd].
      rewrite (@handshake_fresh_master _ _ Hnew).
      split.
      * intros (_ & _ & _ & _ & H).
        apply list_ascii_of_string_inj. exact H.
      * intros ->. repeat split; auto; try discriminate.
        exists fresh_master_context. now split.
    + unfold ProcessConnection, handshake.
      destruct (sbh (CreateMasterConnectionContext connection));
        [|now elim Hsbh'].
      rewrite Hnew. cbn [is_slave fresh_master_context fst snd].
      unfold conn_npn_state. unfold GetConnectionContext in Hnew.
      rewrite Hnew. reflexivity.
  - split; [apply Hnone|]. split; [intro H; discriminate|].
    intros _. apply Hnone.
Qed.

End PreConnectionFacts.

Lemma master_connection_through_the_hooks_witness :
  let create := fun c => with_context c fresh_master_context in
  let https := Some (fun _ : conn_rec => 1%Z) in
  let c := {| sbh := Some 0%nat; context := None;
              server_config := {| spdy_enabled := true;
                                  max_threads_per_process := 4%Z |} |} in
  let c' := snd (fst (PreConnection create https c)) in
  fst (ProcessConnection (Some 1%nat) c' (negotiated "spdy/2")) = OK /\
  fst (ProcessConnection (Some 1%nat) c' (negotiated "http/1.1")) <> OK /\
  ProcessConnection (Some 1%nat)
    (snd (fst (PreConnection create None c))) (negotiated "spdy/2") =
  (DECLINED, []).
Proof.
  intros create https c c'.
  assert (Hsbh : sbh c <> None) by discriminate.
  pose proof (@master_connection_through_the_hooks create
                (fun _ => eq_refl) None https 1%nat c Hsbh eq_refl)
    as (_ & _ & Hok & _).
  pose proof (@master_connection_through_the_hooks create
                (fun _ => eq_refl) None None 1%nat c Hsbh eq_refl)
    as (_ & _ & _ & Hno).
  destruct (Hok eq_refl) as [Hname _].
  split; [apply Hname; reflexivity|]. split.
  - intro E. apply Hname in E. discriminate.
  - apply Hno. discriminate.
Defined.

(** X9.  [InsertRequestFilters] inserts its filters exactly for slave
    connections, and then always both: first the HTTP-to-SPDY filter,
    built from the connection's context, then the anti-chunking filter.
    No connection gets both treatments: where the filters are inserted
    [ProcessConnection] declines without reading, and a connection that
    [ProcessConnection] serves gets no filters, before or after the
    handshake. *)
Theorem InsertRequestFilters_only_for_slaves
  (gPerProcessThreadPool : option apr_thread_pool) (connection : conn_rec)
  (read : apr_status_t * option (list ascii)) :
  (InsertRequestFilters connection <> [] <->
     exists ctx, GetConnectionContext connection = Some ctx /\
                 is_slave ctx = true) /\
  (forall ctx, GetConnectionContext connection = Some ctx ->
     is_slave ctx = true ->
     InsertRequestFilters connection =
       [PoolRegisterDelete HTTP_TO_SPDY;
        AddOutputFilter HTTP_TO_SPDY (Some ctx);
        AddOutputFilter SPDY_ANTI_CHUNKING None]) /\
  (InsertRequestFilters connection <> [] ->
     ProcessConnection gPerProcessThreadPool connection read
       = (DECLINED, [])) /\
  (fst (ProcessConnection gPerProcessThreadPool connection read) = OK ->
     InsertRequestFilters connection = [] /\
     InsertRequestFilters (handshake connection (snd read)) = []).
Proof.
  assert (Hslave : InsertRequestFilters connection <> [] <->
            exists ctx, GetConnectionContext connection = Some ctx /\
                        is_slave ctx = true).
  { unfold InsertRequestFilters, GetConnectionContext.
    destruct (context connection) as [ctx|].
    - destruct (is_slave ctx) eqn:Es; cbn; split.
      + intros _. now exists ctx.
      + discriminate.
      + intro H. now elim H.
      + intros (c & [= <-] & H). congruence.
    - split; [intro H; now elim H|]. intros (c & H & _). discriminate. }
  split; [exact Hslave|]. split; [|split].
  - intros ctx Hctx Hs. unfold InsertRequestFilters.
    now rewrite Hctx, Hs.
  - intro H. apply Hslave in H. destruct H as (ctx & Hctx & Hs).
    unfold ProcessConnection. rewrite Hctx, Hs.
    now destruct (sbh connection).
  - intro Hok. apply ProcessConnection_OK_iff in Hok.
    destruct Hok as (_ & (ctx & Hctx & Hs) & _).
    unfold InsertRequestFilters. rewrite Hctx, Hs. split; [reflexivity|].
    pose proof (handshake_context connection (snd read)) as Hh.
    unfold GetConnectionContext in *. rewrite Hctx in Hh.
    destruct Hh as [state Hh]. rewrite Hh. cbn. now rewrite Hs.
Qed.

(** X10.  A slave connection is never treated as a SPDY master: for a
    connection whose context is a slave context, [DisableSslForSlaves]
    answers OK and asks mod_ssl, when it is there, to stay out;
    [PreConnection] answers DONE and adds the SPDY-to-HTTP filter
    without changing the connection; [OnNextProtocolNegotiated], should
    mod_ssl call it all the same, declines, logs and leaves the NPN
    state alone; and [ProcessConnection] declines without reading. *)
Theorem slave_connection_through_the_hooks
  (CreateMasterConnectionContext : conn_rec -> conn_rec)
  (disable https : conn_rec -> Z)
  (gPerProcessThreadPool : option apr_thread_pool)
  (connection : conn_rec) (ctx : ConnectionContext)
  (proto_name : list ascii) (proto_name_len : nat)
  (read : apr_status_t * option (list ascii)) :
  GetConnectionContext connection = Some ctx ->
  is_slave ctx = true ->
  disable connection <> 0%Z ->
  DisableSslForSlaves (Some disable) connection
    = (OK, [CallSslEngineDisable]) /\
  PreConnection CreateMasterConnectionContext (Some https) connection
    = (DONE, connection,
       [PoolRegisterDelete SPDY_TO_HTTP; AddInputFilter SPDY_TO_HTTP ctx]) /\
  OnNextProtocolNegotiated connection proto_name proto_name_len
    = (DECLINED, connection,
       [LogDFatal "mod_ssl was aparently not disabled for slave connection"])
  /\
  ProcessConnection gPerProcessThreadPool connection read = (DECLINED, []).
Proof.
  intros Hctx Hs Hd.
  unfold DisableSslForSlaves, PreConnection, OnNextProtocolNegotiated,
    ProcessConnection.
  rewrite Hctx, Hs.
  destruct (Z.eqb_spec (disable connection) 0) as [E|_]; [contradiction|].
  repeat split. now destruct (sbh connection).
Qed.

Lemma slave_connection_through_the_hooks_witness :
  let slave := {| is_slave := true; npn_state := NOT_DONE_YET |} in
  let c := {| sbh := Some 0%nat; context := Some slave;
              server_config := {| spdy_enabled := true;
                                  max_threads_per_process := 4%Z |} |} in
  ProcessConnection (Some 1%nat) c (negotiated "spdy/2") = (DECLINED, []) /\
  fst (fst (PreConnection (fun c => c) (Some (fun _ => 1%Z)) c)) = DONE.
Proof.
  intros slave c.
  assert (Hd : (fun _ : conn_rec => 1%Z) c <> 0%Z) by discriminate.
  pose proof (@slave_connection_through_the_hooks (fun c => c)
                (fun _ => 1%Z) (fun _ => 1%Z) (Some 1%nat) c slave
                spdy2 6 (negotiated "spdy/2") eq_refl eq_refl Hd)
    as (_ & A & _ & B).
  split; [exact B|]. now rewrite A.
Defined.

(** X11.  [RetrieveOptionalFunctions] stores what it retrieved and logs
    at most one message: the warning that mod_ssl is missing exactly
    when both functions are, the fatal message exactly when one of the
    two is, and nothing exactly when both are available. *)
Theorem RetrieveOptionalFunctions_log
  (ssl_engine_disable ssl_is_https : optional_fn) :
  let r := RetrieveOptionalFunctions ssl_engine_disable ssl_is_https in
  fst r = (ssl_engine_disable, ssl_is_https) /\
  (List.length (snd r) <= 1)%nat /\
  (snd r = [] <-> ssl_engine_disable <> None /\ ssl_is_https <> None) /\
  (In (LogWarning
        "It seems that mod_spdy is installed but mod_ssl isn't.  Without SSL, the server cannot ever use SPDY.")
      (snd r) <-> ssl_engine_disable = None /\ ssl_is_https = None) /\
  (In (LogDFatal
         "Some, but not all, of mod_ssl's optional functions are available.  What's going on?")
      (snd r) <->
     (ssl_engine_disable = None /\ ssl_is_https <> None) \/
     (ssl_engine_disable <> None /\ ssl_is_https = None)).
Proof.
  cbv zeta. unfold RetrieveOptionalFunctions.
  destruct ssl_engine_disable as [f|], ssl_is_https as [g|]; cbn;
    repeat split; intros; auto;
    repeat match goal with
           | H : _ \/ _ |- _ => destruct H
           | H : _ /\ _ |- _ => destruct H
           end; try discriminate; try contradiction; try congruence;
    try (left; split; [reflexivity|discriminate]);
    try (right; split; [discriminate|reflexivity]).
Qed.

End ConnectionHookFacts.

(* ------------------------------------------------------------------ *)
(** * Further properties of the output filters *)

Section AntiChunkingFacts.

Import CString Httpd AprTable ModSpdy.
Local Open Scope string_scope.

Variable brigade : Type.
Variable ap_pass_brigade : request_rec -> brigade -> apr_status_t.
Variable Write : request_rec -> brigade -> apr_status_t.

Lemma apr_table_get_setn (t : apr_table_t) (key val : string) :
  apr_table_get (apr_table_setn t key val) key = Some val.
Proof.
  induction t as [|e t IH]; cbn [apr_table_setn apr_table_get].
  - unfold key_is, strcasecmp_eq. cbn [fst snd].
    now rewrite String.eqb_refl.
  - destruct (key_is key e) eqn:E; cbn [apr_table_get].
    + change (key_is key (fst e, val)) with (key_is key e).
      now rewrite E.
    + now rewrite E.
Qed.

Lemma apr_table_get_setn_other (t : apr_table_t) (key val other : string) :
  strcasecmp_eq other key = false ->
  apr_table_get (apr_table_setn t key val) other = apr_table_get t other.
Proof.
  intro Hne. induction t as [|e t IH]; cbn [apr_table_setn apr_table_get].
  - unfold key_is, strcasecmp_eq in *. cbn [fst snd].
    rewrite String.eqb_sym. now rewrite Hne.
  - destruct (key_is key e) eqn:E; cbn [apr_table_get].
    + assert (Ho : key_is other e = false).
      { unfold key_is, strcasecmp_eq in *.
        apply String.eqb_eq in E. rewrite E.
        rewrite String.eqb_sym. exact Hne. }
      change (key_is other (fst e, val)) with (key_is other e).
      rewrite Ho. now apply apr_table_get_unset_other.
    + now rewrite IH.
Qed.

(** X13.  [AntiChunkingFilter] passes the brigade on with the response
    announcing [Transfer-Encoding: chunked], whatever the header held
    before, and with every other response header as it was; removing
    the header again gives the table the response has without it.  It
    logs nothing exactly when the request was not marked chunked and
    had no Transfer-Encoding header. *)
Theorem AntiChunkingFilter_announces_chunked
  (request : request_rec) (input_brigade : brigade) :
  let r := AntiChunkingFilter ap_pass_brigade request input_brigade in
  let request' := snd (fst r) in
  fst (fst r) = ap_pass_brigade request' input_brigade /\
  apr_table_get (headers_out request') "Transfer-Encoding" = Some "chunked" /\
  (forall other,
     strcasecmp_eq other "Transfer-Encoding" = false ->
     apr_table_get (headers_out request') other =
     apr_table_get (headers_out request) other) /\
  apr_table_unset (headers_out request') "Transfer-Encoding" =
    apr_table_unset (headers_out request) "Transfer-Encoding" /\
  chunked request' = chunked request /\
  (snd r = [] <->
     chunked request = 0%Z /\
     apr_table_get (headers_out request) "Transfer-Encoding" = None).
Proof.
  cbv zeta. unfold AntiChunkingFilter, set_headers_out.
  cbn [fst snd headers_out chunked].
  split; [reflexivity|].
  split; [apply apr_table_get_setn|].
  split; [intros other Hne; now apply apr_table_get_setn_other|].
  split; [apply apr_table_unset_setn|].
  split; [reflexivity|].
  destruct (Z.eqb_spec (chunked request) 0) as [E|E];
    destruct (apr_table_get (headers_out request) "Transfer-Encoding");
    cbn; split; try discriminate; try tauto;
    intros [H1 H2]; try discriminate; contradiction.
Qed.

(** X14.  [HttpToSpdyFilter] accepts what the anti-chunking filter
    leaves behind and nothing else about the transfer encoding: it logs
    nothing exactly when the request is not marked chunked and its
    Transfer-Encoding header is absent or holds exactly [chunked]
    (compared with [strcmp], so [Chunked] is logged). *)
Theorem HttpToSpdyFilter_log
  (request : request_rec) (input_brigade : brigade) :
  snd (HttpToSpdyFilter Write request input_brigade) = [] <->
  chunked request = 0%Z /\
  (apr_table_get (headers_out request) "Transfer-Encoding" = None \/
   apr_table_get (headers_out request) "Transfer-Encoding" = Some "chunked").
Proof.
  unfold HttpToSpdyFilter. cbn [snd].
  destruct (Z.eqb_spec (chunked request) 0) as [E|E]; cbn [negb app].
  - destruct (apr_table_get (headers_out request) "Transfer-Encoding")
      as [te|]; [|split; auto].
    unfold strcmp_eq.
    destruct (String.eqb_spec te "chunked") as [->|Hne]; cbn.
    + split; auto.
    + split; [discriminate|]. intros [_ [H|H]]; congruence.
  - split; [discriminate|]. intros [H _]. contradiction.
Qed.

End AntiChunkingFacts.

Lemma AntiChunkingFilter_then_HttpToSpdyFilter_witness :
  let request :=
    {| ModSpdy.chunked := 0;
       ModSpdy.headers_out :=
         [("Content-Type", "text/html"); ("Content-Length", "3")]%string;
       ModSpdy.the_request := "GET / HTTP/1.1" |} in
  let pass := fun (_ : ModSpdy.request_rec) (_ : unit) => Httpd.APR_SUCCESS in
  let r1 := ModSpdy.AntiChunkingFilter pass request tt in
  let r2 := ModSpdy.HttpToSpdyFilter pass (snd (fst r1)) tt in
  ModSpdy.headers_out (snd (fst r1)) =
    [("Content-Type", "text/html"); ("Content-Length", "3");
     ("Transfer-Encoding", "chunked")]%string /\
  ModSpdy.headers_out (snd (fst r2)) = ModSpdy.headers_out request /\
  snd r1 = [] /\ snd r2 = [].
Proof.
  intros request pass r1 r2.
  destruct (@AntiChunkingFilter_then_HttpToSpdyFilter unit pass pass
              request tt eq_refl eq_refl) as (_ & A & B & C).
  split; [reflexivity|]. split; [exact A|]. split; [exact B|exact C].
Defined.

(* ------------------------------------------------------------------ *)
(** * Further properties of InputFilterInputStream *)

Section InputStreamReads.

Import Httpd Brigade InputStream.

Lemma filter_bytes_app (a b : next_filter) :
  filter_bytes (a ++ b) = (filter_bytes a ++ filter_bytes b)%list.
Proof. unfold filter_bytes. now rewrite map_app, concat_app. Qed.

Lemma filter_bytes_taken (taken : next_filter) :
  filter_bytes taken = brigade_bytes (List.concat (map snd taken)).
Proof.
  induction taken as [|[rv b] t IH]; [reflexivity|].
  cbn [map List.concat snd]. rewrite brigade_bytes_app, <- IH.
  reflexivity.
Qed.

(** *** Lengths as [apr_off_t] *)

Lemma to_apr_off_t_small (z : Z) :
  (- APR_OFF_T_MAX - 1 <= z <= APR_OFF_T_MAX)%Z -> to_apr_off_t z = z.
Proof.
  unfold to_apr_off_t, APR_OFF_T_MAX. intro H.
  destruct (Z.lt_ge_cases z 0) as [Hn|Hp].
  - assert (E : (z mod 18446744073709551616 = z + 18446744073709551616)%Z).
    { rewrite <- (Z.mod_add z 1) by discriminate. apply Z.mod_small. lia. }
    rewrite E.
    destruct (Z.leb_spec (z + 18446744073709551616) 9223372036854775807);
      lia.
  - rewrite Z.mod_small by lia.
    destruct (Z.leb_spec z 9223372036854775807); lia.
Qed.

Lemma fits_apr_off_t_le (n m : nat) :
  (n <= m)%nat -> fits_apr_off_t m = true -> fits_apr_off_t n = true.
Proof.
  unfold fits_apr_off_t. intros H Hm.
  apply Z.leb_le in Hm. apply Z.leb_le. lia.
Qed.

(** With lengths that fit, [data_needed <= 0] says that the brigade
    holds the bytes asked for. *)
Lemma data_needed_le_0 (num_bytes brigade_len : nat) :
  fits_apr_off_t num_bytes = true ->
  fits_apr_off_t brigade_len = true ->
  (to_apr_off_t (Z.of_nat num_bytes - Z.of_nat brigade_len) <=? 0)%Z =
  (num_bytes <=? brigade_len)%nat.
Proof.
  unfold fits_apr_off_t. intros Hn Hb.
  apply Z.leb_le in Hn, Hb.
  rewrite to_apr_off_t_small by (unfold APR_OFF_T_MAX in *; lia).
  destruct (Nat.leb_spec num_bytes brigade_len);
    [apply Z.leb_le|apply Z.leb_gt]; lia.
Qed.

(** The bytes at hand: those of the brigade and those the filter has
    yet to deliver. *)
Lemma usable_iff (s : InputFilterInputStream) :
  usable s = true <->
  tmp_brigade_ s = [] /\
  all_live (brigade_ s) = true /\
  forallb (fun a => all_live (snd a)) (filter_ s) = true /\
  fits_apr_off_t (List.length (brigade_bytes (brigade_ s)) +
                  List.length (filter_bytes (filter_ s))) = true.
Proof.
  unfold usable. rewrite !andb_true_iff.
  destruct (tmp_brigade_ s); intuition discriminate.
Qed.

Lemma all_live_taken (taken : next_filter) :
  forallb (fun a => all_live (snd a)) taken = true ->
  all_live (List.concat (map snd taken)) = true.
Proof.
  induction taken as [|a taken IH]; [reflexivity|].
  cbn [forallb map List.concat]. rewrite andb_true_iff.
  intros [Ha Ht]. unfold all_live in *.
  rewrite forallb_app, Ha. now apply IH.
Qed.

(** What the loop of [PullBytesFromNextFilter] has done when it
    returns, for any fuel above the number of answers left. *)
Lemma PullBytesFromNextFilter_loop_spec (fuel : nat)
  (s : InputFilterInputStream) (num_bytes : nat) :
  fits_apr_off_t num_bytes = true ->
  fits_apr_off_t (List.length (brigade_bytes (brigade_ s)) +
                  List.length (filter_bytes (filter_ s))) = true ->
  (List.length (filter_ s) + 1 < fuel)%nat ->
  let r := PullBytesFromNextFilter_loop fuel s num_bytes in
  exists taken,
    filter_ s = (taken ++ filter_ (snd r))%list /\
    brigade_ (snd r) = (brigade_ s ++ List.concat (map snd taken))%list /\
    (forall pre a post, taken = (pre ++ a :: post)%list ->
       (List.length (brigade_bytes
                       (brigade_ s ++ List.concat (map snd pre)))
        < num_bytes)%nat /\
       (post <> [] -> fst a = APR_SUCCESS)) /\
    ((fst r = APR_SUCCESS /\
      (num_bytes <= List.length (brigade_bytes (brigade_ (snd r))))%nat) \/
     (fst r <> APR_SUCCESS /\ next_filter_rv_ (snd r) = fst r /\
      tmp_brigade_ (snd r) = [] /\
      (List.length (brigade_bytes (brigade_ s)) < num_bytes)%nat)) /\
    (taken = [] -> fst r = APR_SUCCESS -> snd r = s) /\
    (taken <> [] -> tmp_brigade_ (snd r) = []).
Proof.
  intro Hn. revert s.
  induction fuel as [|fuel IH]; intros s Hfit Hfuel; [lia|].
  cbv zeta. cbn [PullBytesFromNextFilter_loop].
  unfold apr_brigade_length.
  change (negb (APR_SUCCESS =? APR_SUCCESS)%Z) with false. cbv iota zeta.
  rewrite (@data_needed_le_0 num_bytes _ Hn)
    by (eapply fits_apr_off_t_le; [|exact Hfit]; lia).
  destruct (Nat.leb_spec num_bytes
              (List.length (brigade_bytes (brigade_ s)))) as [Hle|Hlt].
  { exists []. cbn [fst snd app map List.concat].
    rewrite app_nil_r. repeat split; auto.
    - destruct pre; discriminate.
    - destruct pre; discriminate.
    - intro H. now elim H. }
  destruct (filter_ s) as [|[rv tmp] rest] eqn:Hf; cbn [ap_get_brigade].
  { change (negb (APR_EOF =? APR_SUCCESS)%Z) with true. cbv iota.
    exists []. cbn [fst snd app map List.concat filter_ brigade_
                    next_filter_rv_ tmp_brigade_].
    unfold APR_BRIGADE_CONCAT. rewrite app_nil_r.
    repeat split; auto.
    - destruct pre; discriminate.
    - destruct pre; discriminate.
    - right. repeat split; auto. discriminate.
    - intros _ H. discriminate.  }
  destruct (Z.eqb_spec rv APR_SUCCESS) as [Hrv|Hrv]; cbn [negb].
  { set (s' := {| filter_ := rest;
                  brigade_ := APR_BRIGADE_CONCAT (brigade_ s) tmp;
                  tmp_brigade_ := []; next_filter_rv_ := rv |}).
    assert (Hfuel' : (List.length (filter_ s') + 1 < fuel)%nat)
      by (cbn [filter_ s']; cbn [List.length] in Hfuel; lia).
    assert (Hfit' : fits_apr_off_t
                      (List.length (brigade_bytes (brigade_ s')) +
                       List.length (filter_bytes (filter_ s'))) = true).
    { eapply fits_apr_off_t_le; [|exact Hfit].
      cbn [filter_ brigade_ s']. unfold APR_BRIGADE_CONCAT.
      rewrite brigade_bytes_app, length_app.
      change (filter_bytes ((rv, tmp) :: rest))
        with (brigade_bytes tmp ++ filter_bytes rest)%list.
      rewrite length_app. lia. }
    destruct (IH s' Hfit' Hfuel')
      as (taken & Hfil & Hbr & Hmin & Hend & _ & _).
    cbn [filter_ brigade_ s'] in Hfil, Hbr, Hmin, Hend.
    unfold APR_BRIGADE_CONCAT in *.
    exists ((rv, tmp) :: taken).
    split; [cbn [app]; now rewrite <- Hfil|].
    split; [rewrite Hbr; cbn [map List.concat snd]; now rewrite app_assoc|].
    split; [|split; [|split]].
    - intros pre a post E. destruct pre as [|p pre].
      + cbn [app] in E. injection E as <- <-.
        cbn [map List.concat fst]. rewrite app_nil_r. split; auto.
      + cbn [app] in E. injection E as <- E.
        destruct (Hmin pre a post E) as [H1 H2].
        split; [|exact H2].
        cbn [map List.concat snd]. now rewrite app_assoc.
    - destruct Hend as [H|(H1 & H2 & H3 & H4)]; [left; exact H|].
      right. repeat split; auto.
    - discriminate.
    - intros _.
      destruct Hend as [[H1 H2]|(_ & _ & H3 & _)]; [|exact H3].
      pose proof (IH s' Hfit' Hfuel')
        as (taken' & Hfil' & _ & _ & _ & Hs & Ht).
      destruct taken' as [|t' taken'].
      + rewrite (Hs eq_refl H1). reflexivity.
      + apply Ht. discriminate. }
  exists [(rv, tmp)].
  cbn [fst snd app map List.concat filter_ brigade_ next_filter_rv_
       tmp_brigade_].
  unfold APR_BRIGADE_CONCAT. rewrite app_nil_r.
  repeat split; auto.
  - destruct pre as [|p pre]; [|destruct pre; discriminate].
    cbn [map List.concat]. now rewrite app_nil_r.
  - intro Hpost. destruct pre as [|p pre].
    + cbn [app] in H. injection H as _ <-. now elim Hpost.
    + destruct pre; discriminate.
  - intro H. discriminate.
Qed.

Lemma PullBytesFromNextFilter_spec (s : InputFilterInputStream)
  (num_bytes : nat) :
  usable s = true ->
  fits_apr_off_t num_bytes = true ->
  let r := PullBytesFromNextFilter s num_bytes in
  exists taken,
    filter_ s = (taken ++ filter_ (snd r))%list /\
    brigade_ (snd r) = (brigade_ s ++ List.concat (map snd taken))%list /\
    (forall pre a post, taken = (pre ++ a :: post)%list ->
       (List.length (brigade_bytes
                       (brigade_ s ++ List.concat (map snd pre)))
        < num_bytes)%nat /\
       (post <> [] -> fst a = APR_SUCCESS)) /\
    ((fst r = APR_SUCCESS /\
      (num_bytes <= List.length (brigade_bytes (brigade_ (snd r))))%nat) \/
     (fst r <> APR_SUCCESS /\ next_filter_rv_ (snd r) = fst r /\
      tmp_brigade_ (snd r) = [] /\
      (List.length (brigade_bytes (brigade_ s)) < num_bytes)%nat)) /\
    (taken = [] -> fst r = APR_SUCCESS -> snd r = s) /\
    (taken <> [] -> tmp_brigade_ (snd r) = []).
Proof.
  intros Hu Hn. apply usable_iff in Hu. destruct Hu as (_ & _ & _ & Hfit).
  apply PullBytesFromNextFilter_loop_spec; [exact Hn|exact Hfit|lia].
Qed.

(** No byte is lost or made up by the pull: the brigade and what the
    filter has left hold together what they held before. *)
Lemma PullBytesFromNextFilter_keeps_bytes (s : InputFilterInputStream)
  (num_bytes : nat) :
  usable s = true ->
  fits_apr_off_t num_bytes = true ->
  let s1 := snd (PullBytesFromNextFilter s num_bytes) in
  (brigade_bytes (brigade_ s1) ++ filter_bytes (filter_ s1))%list =
  (brigade_bytes (brigade_ s) ++ filter_bytes (filter_ s))%list.
Proof.
  intros Hu Hn. cbv zeta.
  destruct (PullBytesFromNextFilter_spec s num_bytes Hu Hn)
    as (taken & Hfil & Hbr & _).
  rewrite Hbr, brigade_bytes_app, <- filter_bytes_taken, <- app_assoc.
  rewrite <- filter_bytes_app. now rewrite <- Hfil.
Qed.

(** The tmp brigade is empty again after the pull. *)
Lemma PullBytesFromNextFilter_tmp (s : InputFilterInputStream)
  (num_bytes : nat) :
  usable s = true ->
  fits_apr_off_t num_bytes = true ->
  tmp_brigade_ (snd (PullBytesFromNextFilter s num_bytes)) = [].
Proof.
  intros Hu Hn.
  destruct (PullBytesFromNextFilter_spec s num_bytes Hu Hn)
    as (taken & _ & _ & _ & Hend & Hnil & Hcons).
  destruct taken as [|a taken]; [|apply Hcons; discriminate].
  destruct Hend as [[H _]|(_ & _ & H & _)]; [|exact H].
  rewrite (Hnil eq_refl H). now apply usable_iff in Hu.
Qed.

(** The pull leaves a usable stream usable. *)
Lemma PullBytesFromNextFilter_usable (s : InputFilterInputStream)
  (num_bytes : nat) :
  usable s = true ->
  fits_apr_off_t num_bytes = true ->
  usable (snd (PullBytesFromNextFilter s num_bytes)) = true.
Proof.
  intros Hu Hn.
  pose proof (PullBytesFromNextFilter_tmp s num_bytes Hu Hn) as Htmp.
  pose proof (PullBytesFromNextFilter_keeps_bytes s num_bytes Hu Hn) as Hk.
  cbv zeta in Hk.
  destruct (PullBytesFromNextFilter_spec s num_bytes Hu Hn)
    as (taken & Hfil & Hbr & _).
  apply usable_iff in Hu. destruct Hu as (_ & Hlb & Hlf & Hfit).
  apply usable_iff. split; [exact Htmp|].
  rewrite Hfil, forallb_app, andb_true_iff in Hlf.
  destruct Hlf as [Hlt Hlf].
  split; [|split; [exact Hlf|]].
  - rewrite Hbr. unfold all_live in *. rewrite forallb_app, Hlb.
    now apply all_live_taken.
  - rewrite <- !length_app, Hk, length_app. exact Hfit.
Qed.

(** [Read] hands over the front of the brigade as the pull left it, and
    keeps the filter and its last status as the pull left them. *)
Lemma Read_front (s : InputFilterInputStream) (data_len : nat) :
  let s1 := snd (PullBytesFromNextFilter s data_len) in
  fst (Read s data_len) = firstn data_len (brigade_bytes (brigade_ s1)) /\
  filter_ (snd (Read s data_len)) = filter_ s1 /\
  next_filter_rv_ (snd (Read s data_len)) = next_filter_rv_ s1 /\
  tmp_brigade_ (snd (Read s data_len)) = tmp_brigade_ s1.
Proof.
  cbv zeta.
  destruct (Nat.le_gt_cases
              (List.length (brigade_bytes
                 (brigade_ (snd (PullBytesFromNextFilter s data_len)))))
              data_len) as [Hle|Hgt].
  - pose proof (@Read_within_data_len s data_len Hle) as [H _].
    rewrite H, firstn_all2 by exact Hle.
    unfold Read. destruct (PullBytesFromNextFilter s data_len) as [rv s1].
    destruct (FinishRead (brigade_ s1) data_len) as [[b e] br].
    destruct (apr_brigade_cleanup br). repeat split.
  - pose proof (@Read_beyond_data_len s data_len Hgt)
      as (e & dropped & H & _).
    rewrite H.
    unfold Read. destruct (PullBytesFromNextFilter s data_len) as [rv s1].
    destruct (FinishRead (brigade_ s1) data_len) as [[b e'] br].
    destruct (apr_brigade_cleanup br). repeat split.
Qed.

(** A [Read] that empties the brigade leaves a usable stream usable. *)
Lemma Read_usable (s : InputFilterInputStream) (data_len : nat) :
  usable s = true ->
  fits_apr_off_t data_len = true ->
  brigade_ (snd (Read s data_len)) = [] ->
  usable (snd (Read s data_len)) = true.
Proof.
  intros Hu Hn Hnil.
  pose proof (PullBytesFromNextFilter_usable s data_len Hu Hn) as Hu1.
  destruct (Read_front s data_len) as (_ & Hfil & _ & Htmp).
  apply usable_iff in Hu1. destruct Hu1 as (Ht & _ & Hlf & Hfit).
  apply usable_iff. rewrite Htmp, Hfil, Hnil.
  repeat split; auto.
  eapply fits_apr_off_t_le; [|exact Hfit]. cbn [brigade_bytes map
    List.concat List.length]. lia.
Qed.

(** A bucket destroyed in the brigade makes the stream unusable. *)
Lemma destroyed_unusable (s : InputFilterInputStream) (e : apr_bucket) :
  brigade_ s = [e] -> live e = false -> usable s = false.
Proof.
  intros Hb Hl. unfold usable, all_live. rewrite Hb. cbn [forallb].
  rewrite Hl. now destruct (tmp_brigade_ s).
Qed.

(** X15.  On a usable stream and for a number of bytes an [apr_off_t]
    holds, [PullBytesFromNextFilter] takes the answers of the next
    filter in order and appends their buckets to the brigade, also those
    of an answer that reports an error.  It asks the filter only while
    the brigade is short of [num_bytes], so it makes no call at all when
    the brigade can satisfy the request, and it goes on only after a
    successful answer.  It returns [APR_SUCCESS] with at least
    [num_bytes] in the brigade, or else the status of the last answer,
    which it also leaves in [next_filter_rv_].  No byte is lost or made
    up on the way, and the stream is left usable. *)
Theorem PullBytesFromNextFilter_pulls_what_is_missing
  (s : InputFilterInputStream) (num_bytes : nat) :
  usable s = true ->
  fits_apr_off_t num_bytes = true ->
  let r := PullBytesFromNextFilter s num_bytes in
  (exists taken,
     filter_ s = (taken ++ filter_ (snd r))%list /\
     brigade_ (snd r) = (brigade_ s ++ List.concat (map snd taken))%list /\
     forall pre a post, taken = (pre ++ a :: post)%list ->
       (List.length (brigade_bytes
                       (brigade_ s ++ List.concat (map snd pre)))
        < num_bytes)%nat /\
       (post <> [] -> fst a = APR_SUCCESS)) /\
  ((fst r = APR_SUCCESS /\
    (num_bytes <= List.length (brigade_bytes (brigade_ (snd r))))%nat) \/
   (fst r <> APR_SUCCESS /\ next_filter_rv_ (snd r) = fst r)) /\
  ((num_bytes <= List.length (brigade_bytes (brigade_ s)))%nat ->
   r = (APR_SUCCESS, s)) /\
  (brigade_bytes (brigade_ (snd r)) ++ filter_bytes (filter_ (snd r)))%list =
  (brigade_bytes (brigade_ s) ++ filter_bytes (filter_ s))%list /\
  usable (snd r) = true.
Proof.
  intros Hu Hn. cbv zeta.
  destruct (PullBytesFromNextFilter_spec s num_bytes Hu Hn)
    as (taken & Hfil & Hbr & Hmin & Hend & Hnil & _).
  split; [exists taken; auto|].
  split; [destruct Hend as [H|(H1 & H2 & _)]; auto|].
  split; [|split; [now apply PullBytesFromNextFilter_keeps_bytes
                  |now apply PullBytesFromNextFilter_usable]].
  intro Hle.
  destruct taken as [|a taken].
  - destruct Hend as [[H _]|(_ & _ & _ & H)]; [|lia].
    rewrite (surjective_pairing (PullBytesFromNextFilter s num_bytes)).
    now rewrite H, (Hnil eq_refl H).
  - destruct (Hmin [] a taken eq_refl) as [H _].
    cbn [map List.concat] in H. rewrite app_nil_r in H. lia.
Qed.

Lemma PullBytesFromNextFilter_pulls_what_is_missing_witness :
  let a := "a"%byte in let b := "b"%byte in let c := "c"%byte in
  let s := new_stream [(APR_SUCCESS, [heap_bucket [a]]);
                       (APR_SUCCESS, [heap_bucket [b]; heap_bucket [c]]);
                       (APR_SUCCESS, [heap_bucket [a]])] in
  let r := PullBytesFromNextFilter s 2 in
  fst r = APR_SUCCESS /\
  brigade_bytes (brigade_ (snd r)) = [a; b; c] /\
  (brigade_bytes (brigade_ (snd r)) ++ filter_bytes (filter_ (snd r)))%list =
    [a; b; c; a] /\
  usable (snd r) = true.
Proof.
  intros a b c s r.
  destruct (@PullBytesFromNextFilter_pulls_what_is_missing s 2
              eq_refl eq_refl) as (_ & _ & _ & Hk & Hu).
  split; [reflexivity|]. split; [reflexivity|].
  split; [exact Hk|exact Hu].
Defined.

(** X16.  On a usable stream, [Read] of a number of bytes an
    [apr_off_t] holds returns exactly the first [min(data_len, n)] of
    the [n] bytes the brigade holds after the pull, in order, and leaves
    the brigade empty exactly when [n] is at most [data_len]. *)
Theorem Read_returns_the_front_of_the_brigade
  (s : InputFilterInputStream) (data_len : nat) :
  usable s = true ->
  fits_apr_off_t data_len = true ->
  let buffered :=
    brigade_bytes (brigade_ (snd (PullBytesFromNextFilter s data_len))) in
  fst (Read s data_len) = firstn data_len buffered /\
  List.length (fst (Read s data_len)) =
    Nat.min data_len (List.length buffered) /\
  (brigade_ (snd (Read s data_len)) = [] <->
   (List.length buffered <= data_len)%nat).
Proof.
  intros _ _. cbv zeta.
  destruct (Read_front s data_len) as (Hfront & _).
  split; [exact Hfront|].
  split; [rewrite Hfront; apply length_firstn|].
  split.
  - intro Hnil.
    destruct (Nat.le_gt_cases
                (List.length (brigade_bytes
                   (brigade_ (snd (PullBytesFromNextFilter s data_len)))))
                data_len) as [Hle|Hgt]; [exact Hle|].
    destruct (@Read_beyond_data_len s data_len Hgt)
      as (e & dropped & _ & H & _).
    rewrite H in Hnil. discriminate.
  - intro Hle. now apply Read_within_data_len.
Qed.

Lemma Read_returns_the_front_of_the_brigade_witness :
  let a := "a"%byte in let b := "b"%byte in let c := "c"%byte in
  let s := new_stream [(APR_SUCCESS, [heap_bucket [a]]);
                       (APR_SUCCESS, [heap_bucket [b]; heap_bucket [c]])] in
  fst (Read s 3) = [a; b; c] /\
  List.length (fst (Read s 3)) = 3%nat /\
  brigade_ (snd (Read s 3)) = [].
Proof.
  intros a b c s.
  destruct (@Read_returns_the_front_of_the_brigade s 3 eq_refl eq_refl)
    as (H1 & H2 & H3).
  split; [exact H1|]. split; [exact H2|].
  apply H3. cbn. lia.
Defined.

(** X17.  A short read tells the caller that the filter is done for
    now: when [Read], on a usable stream and for a number of bytes an
    [apr_off_t] holds, returns fewer than [data_len] bytes, the last
    status of the next filter, which [next_filter_rv()] reports, is not
    [APR_SUCCESS], and the stream is empty. *)
Theorem short_Read_reports_the_filter_status
  (s : InputFilterInputStream) (data_len : nat) :
  usable s = true ->
  fits_apr_off_t data_len = true ->
  (List.length (fst (Read s data_len)) < data_len)%nat ->
  next_filter_rv_ (snd (Read s data_len)) <> APR_SUCCESS /\
  brigade_ (snd (Read s data_len)) = [] /\
  IsEmpty (snd (Read s data_len)) = Some true.
Proof.
  intros Hu Hn Hshort.
  destruct (Read_front s data_len) as (Hfront & _ & Hrv & Htmp).
  rewrite Hfront, length_firstn in Hshort.
  destruct (PullBytesFromNextFilter_spec s data_len Hu Hn)
    as (taken & _ & _ & _ & Hend & _).
  destruct Hend as [[_ H]|(Hne & Hrv' & Htmp' & _)]; [lia|].
  assert (Hnil : brigade_ (snd (Read s data_len)) = [])
    by (apply Read_within_data_len; lia).
  split; [rewrite Hrv, Hrv'; exact Hne|].
  split; [exact Hnil|].
  unfold IsEmpty. now rewrite Htmp, Htmp', Hnil.
Qed.

Lemma short_Read_reports_the_filter_status_witness :
  let s := new_stream [(APR_SUCCESS, [heap_bucket ["a"%byte; "b"%byte]])] in
  fst (Read s 5) = ["a"%byte; "b"%byte] /\
  next_filter_rv_ (snd (Read s 5)) <> APR_SUCCESS /\
  IsEmpty (snd (Read s 5)) = Some true.
Proof.
  intro s.
  assert (Hshort : (List.length (fst (Read s 5)) < 5)%nat) by (cbn; lia).
  destruct (@short_Read_reports_the_filter_status s 5 eq_refl eq_refl
              Hshort) as (A & _ & B).
  split; [reflexivity|]. split; [exact A|exact B].
Defined.

(** X18.  The [CHECK] of [IsEmpty] holds on a usable stream and still
    holds after a [Read] on it: [IsEmpty] answers, before the [Read]
    with [true] exactly when the brigade holds no bucket, and after it
    with [true] exactly when the brigade held no more than [data_len]
    bytes once the pull was done. *)
Theorem IsEmpty_after_Read (s : InputFilterInputStream) (data_len : nat) :
  usable s = true ->
  fits_apr_off_t data_len = true ->
  IsEmpty s = Some match brigade_ s with [] => true | _ => false end /\
  IsEmpty (snd (Read s data_len)) =
    Some (List.length
            (brigade_bytes
               (brigade_ (snd (PullBytesFromNextFilter s data_len))))
          <=? data_len)%nat.
Proof.
  intros Hu Hn.
  pose proof (PullBytesFromNextFilter_tmp s data_len Hu Hn) as Ht1.
  pose proof Hu as Hu'. apply usable_iff in Hu'. destruct Hu' as (Ht & _).
  split; [unfold IsEmpty; now rewrite Ht|].
  destruct (Read_front s data_len) as (_ & _ & _ & Htmp).
  unfold IsEmpty. rewrite Htmp, Ht1.
  destruct (Nat.leb_spec
              (List.length (brigade_bytes
                 (brigade_ (snd (PullBytesFromNextFilter s data_len)))))
              data_len) as [Hle|Hgt].
  - pose proof (@Read_within_data_len s data_len Hle) as [_ H].
    now rewrite H.
  - destruct (@Read_beyond_data_len s data_len Hgt)
      as (e & dropped & _ & H & _).
    now rewrite H.
Qed.

Lemma IsEmpty_after_Read_witness :
  let s := new_stream [(APR_SUCCESS, [heap_bucket ["a"%byte; "b"%byte]])] in
  IsEmpty s = Some true /\
  IsEmpty (snd (Read s 2)) = Some true /\
  IsEmpty (snd (Read s 1)) = Some false.
Proof.
  intro s.
  destruct (@IsEmpty_after_Read s 2 eq_refl eq_refl) as [H0 H2].
  destruct (@IsEmpty_after_Read s 1 eq_refl eq_refl) as [_ H1].
  split; [exact H0|]. split; [exact H2|exact H1].
Defined.

(** X19.  On a usable stream, as long as the next filter keeps to the
    number of bytes it is asked for, successive [Read] calls lose and
    duplicate nothing: the bytes returned so far, in order, followed by
    the bytes the filter has yet to deliver, are the bytes the brigade
    and the filter held at the start; the brigade is empty after every
    call and the stream stays usable. *)
Theorem Reads_within_requests_lose_nothing
  (s : InputFilterInputStream) (lens : list nat) :
  usable s = true ->
  forallb fits_apr_off_t lens = true ->
  within_requests s lens ->
  let r := Reads s lens in
  (List.concat (fst r) ++ brigade_bytes (brigade_ (snd r))
     ++ filter_bytes (filter_ (snd r)))%list =
  (brigade_bytes (brigade_ s) ++ filter_bytes (filter_ s))%list /\
  (lens <> [] -> brigade_ (snd r) = []) /\
  usable (snd r) = true.
Proof.
  revert s. induction lens as [|n lens IH]; intros s Hu Hfit Hw; cbv zeta.
  - cbn [Reads fst snd List.concat app]. split; [reflexivity|].
    split; [|exact Hu]. intro H. now elim H.
  - destruct Hw as [Hle Hw]. cbn [Reads].
    cbn [forallb] in Hfit. apply andb_true_iff in Hfit.
    destruct Hfit as [Hn Hfit].
    destruct (Read_front s n) as (Hfront & Hfil & _).
    pose proof (@Read_within_data_len s n Hle) as [Hall Hnil].
    pose proof (PullBytesFromNextFilter_keeps_bytes s n Hu Hn) as Hkeep.
    pose proof (@Read_usable s n Hu Hn Hnil) as Hu1.
    cbv zeta in Hkeep.
    destruct (Read s n) as [bytes s1] eqn:E. cbn [fst snd] in *.
    specialize (IH s1 Hu1 Hfit Hw). cbv zeta in IH.
    destruct (Reads s1 lens) as [more s2] eqn:E2. cbn [fst snd] in *.
    destruct IH as (IH1 & IH2 & IH3).
    split; [|split; [|exact IH3]].
    + cbn [List.concat]. rewrite <- app_assoc, IH1, Hnil, Hfil.
      cbn [brigade_bytes map List.concat app].
      now rewrite Hall.
    + intros _. destruct lens as [|m lens].
      * cbn [Reads] in E2. injection E2 as _ <-. exact Hnil.
      * apply IH2. discriminate.
Qed.

Lemma Reads_within_requests_lose_nothing_witness :
  let a := "a"%byte in let b := "b"%byte in let c := "c"%byte in
  let s := new_stream [(APR_SUCCESS, [heap_bucket [a]]);
                       (APR_SUCCESS, [heap_bucket [b]; heap_bucket [c]])] in
  fst (Reads s [1; 2; 5]%nat) = [[a]; [b; c]; []] /\
  (List.concat (fst (Reads s [1; 2; 5]%nat)) ++
   filter_bytes (filter_ (snd (Reads s [1; 2; 5]%nat))))%list = [a; b; c].
Proof.
  intros a b c s.
  assert (Hw : within_requests s [1; 2; 5]%nat)
    by (cbn; repeat split; lia).
  destruct (@Reads_within_requests_lose_nothing s [1; 2; 5]%nat
              eq_refl eq_refl Hw) as (H & Hnil & _).
  split; [reflexivity|].
  rewrite Hnil in H by discriminate. exact H.
Defined.

(** X20.  What [Read] does on a usable stream when the brigade holds
    more than [data_len] bytes after the pull, which takes a next filter
    that hands over more than it was asked for: it returns the first
    [data_len] bytes, and of the bytes beyond them it keeps those of one
    bucket only, the one [extra] points at, in a bucket that
    [apr_brigade_cleanup] has destroyed; the bytes of all the buckets
    after it are dropped, and the stream is no longer usable. *)
Theorem Read_keeps_one_bucket_beyond_data_len
  (s : InputFilterInputStream) (data_len : nat) :
  usable s = true ->
  fits_apr_off_t data_len = true ->
  let s1 := snd (PullBytesFromNextFilter s data_len) in
  let buffered := brigade_bytes (brigade_ s1) in
  (data_len < List.length buffered)%nat ->
  usable s1 = true /\
  usable (snd (Read s data_len)) = false /\
  exists e dropped,
    fst (Read s data_len) = firstn data_len buffered /\
    brigade_ (snd (Read s data_len)) = [e] /\
    live e = false /\
    skipn data_len buffered = (data e ++ dropped)%list.
Proof.
  intros Hu Hn. cbv zeta. intro Hlt.
  destruct (@Read_beyond_data_len s data_len Hlt)
    as (e & dropped & H1 & H2 & H3 & H4).
  split; [now apply PullBytesFromNextFilter_usable|].
  split; [now apply (@destroyed_unusable _ e)|].
  now exists e, dropped.
Qed.

Lemma Read_keeps_one_bucket_beyond_data_len_witness :
  let a := "a"%byte in let b := "b"%byte in let c := "c"%byte in
  let s := new_stream [(APR_SUCCESS, [heap_bucket [a; b]; heap_bucket [c]])] in
  exists e dropped,
    fst (Read s 1) = [a] /\
    brigade_ (snd (Read s 1)) = [e] /\
    live e = false /\
    [b; c] = (data e ++ dropped)%list.
Proof.
  intros a b c s.
  assert (Hlt : (1 < List.length
                     (brigade_bytes
                        (brigade_ (snd (PullBytesFromNextFilter s 1)))))%nat)
    by (cbn; lia).
  exact (proj2 (proj2 (@Read_keeps_one_bucket_beyond_data_len s 1
                         eq_refl eq_refl Hlt))).
Defined.

(** X21.  On a usable stream, [Read] with [data_len] zero returns
    nothing and does not turn to the next filter: the filter and its
    last status stay as they are.  Of a brigade that holds bytes it
    keeps the first bucket only, destroyed. *)
Theorem Read_of_zero_bytes (s : InputFilterInputStream) :
  usable s = true ->
  fst (Read s 0) = [] /\
  filter_ (snd (Read s 0)) = filter_ s /\
  next_filter_rv_ (snd (Read s 0)) = next_filter_rv_ s /\
  brigade_ (snd (Read s 0)) =
    match brigade_ s with
    | [] => []
    | e :: _ => if (0 <? List.length (brigade_bytes (brigade_ s)))%nat
                then [apr_bucket_destroy e] else []
    end.
Proof.
  intro Hu.
  assert (Hpull : PullBytesFromNextFilter s 0 = (APR_SUCCESS, s)).
  { destruct (@PullBytesFromNextFilter_spec s 0 Hu eq_refl)
      as (taken & _ & _ & Hmin & Hend & Hnil & _).
    destruct taken as [|a taken].
    - destruct Hend as [[H _]|(_ & _ & _ & H)]; [|lia].
      rewrite (surjective_pairing (PullBytesFromNextFilter s 0)).
      now rewrite H, (Hnil eq_refl H).
    - destruct (Hmin [] a taken eq_refl) as [H _]. lia. }
  unfold Read. rewrite Hpull.
  unfold FinishRead, apr_brigade_length, apr_brigade_flatten.
  change (negb (APR_SUCCESS =? APR_SUCCESS)%Z) with false. cbv iota.
  destruct (0 <? List.length (brigade_bytes (brigade_ s)))%nat eqn:E.
  - destruct (brigade_ s) as [|e rest]; [discriminate|].
    cbn. repeat split.
  - destruct (brigade_ s) as [|e rest]; cbn; repeat split.
Qed.

Lemma Read_of_zero_bytes_witness :
  let s := new_stream [(APR_SUCCESS, [heap_bucket ["a"%byte]])] in
  fst (Read s 0) = [] /\
  filter_ (snd (Read s 0)) = filter_ s /\
  next_filter_rv_ (snd (Read s 0)) = APR_SUCCESS /\
  brigade_ (snd (Read s 0)) = [].
Proof.
  intro s. exact (@Read_of_zero_bytes s eq_refl).
Defined.

End InputStreamReads.

(* ------------------------------------------------------------------ *)
(** * Further properties of the NPN callback *)

Section NegotiationOutcomes.

Import CString Httpd AprTable ModSpdy.
Local Open Scope string_scope.

(** X22.  [OnNextProtocolNegotiated] answers OK exactly when the
    connection carries a master context whose NPN state is
    [NOT_DONE_YET], and then logs nothing; in every other case it
    answers DECLINED, logs exactly one fatal message and leaves the
    connection as it is.  Whatever it answers, it changes nothing of the
    connection but the NPN state: the scoreboard handle, the server
    configuration and the kind of context stay. *)
Theorem OnNextProtocolNegotiated_outcomes (connection : conn_rec)
  (proto_name : list ascii) (proto_name_len : nat) :
  let r := OnNextProtocolNegotiated connection proto_name proto_name_len in
  let connection' := snd (fst r) in
  (fst (fst r) = OK <->
     exists ctx, GetConnectionContext connection = Some ctx /\
                 is_slave ctx = false /\ npn_state ctx = NOT_DONE_YET) /\
  (fst (fst r) = OK -> snd r = []) /\
  (fst (fst r) <> OK ->
     fst (fst r) = DECLINED /\ connection' = connection /\
     exists msg, snd r = [LogDFatal msg]) /\
  sbh connection' = sbh connection /\
  server_config connection' = server_config connection /\
  option_map is_slave (context connection') =
    option_map is_slave (context connection).
Proof.
  cbv zeta. unfold OnNextProtocolNegotiated, GetConnectionContext.
  destruct (context connection) as [ctx|] eqn:Hctx.
  2:{ cbn [fst snd]. rewrite Hctx.
      repeat split; try discriminate; auto.
      - intros (c & H & _). discriminate.
      - eexists. reflexivity. }
  destruct (is_slave ctx) eqn:Es.
  { cbn [fst snd]. rewrite Hctx.
    repeat split; try discriminate; auto.
    - intros (c & [= <-] & H & _). congruence.
    - eexists. reflexivity. }
  destruct (npn_state ctx) eqn:En; cbn [NpnState_eqb negb].
  - destruct (proto_is_spdy proto_name proto_name_len);
      cbn [fst snd with_context sbh server_config context option_map
           set_npn_state is_slave];
      rewrite ?Es; repeat split; auto;
      try (intro H; now elim H);
      try (exists ctx; repeat split; assumption);
      try match goal with H : ?x <> ?x |- _ => now elim H end.
  - cbn [fst snd]. rewrite Hctx.
    repeat split; try discriminate; auto.
    + intros (c & [= <-] & _ & H). congruence.
    + eexists. reflexivity.
  - cbn [fst snd]. rewrite Hctx.
    repeat split; try discriminate; auto.
    + intros (c & [= <-] & _ & H). congruence.
    + eexists. reflexivity.
Qed.

End NegotiationOutcomes.
